(** * A card-game framework: engine, War rules and Go Fish rules

    Shallow embedding of the TypeScript sources
    [core/Card.ts], [core/Deck.ts], [core/Hand.ts], [core/Player.ts],
    [core/GameState.ts], [core/CardUtils.ts], [core/GameRules.ts],
    [core/BaseGame.ts], [games/war/WarRules.ts] and
    [games/go-fish/GoFishRules.ts].

    Objects that the program shares between containers are kept in an
    explicit store: every [Card] object lives in a heap and the decks, hands
    and custom-state arrays hold references to it.  Arrays, [Deck], [Hand],
    [Player] and [GameState] objects are modelled by value, because the
    program copies them whenever it hands them to another owner
    ([new Deck([...cards])], [new Hand(getCards())], [players.map(clone)]).

    Code that can raise (a [throw], or a property read on [undefined]) is
    written in a state-and-exception monad in which the store survives a
    raise, as it does in JavaScript. *)

From stdpp Require Import base list strings pretty sets.
From Stdlib Require Import ZArith Ascii.

Set Default Proof Using "Type".

(** ** Effects: state that survives exceptions *)

Inductive Outcome (A : Type) : Type :=
  | Returned (a : A)
  | Thrown (msg : string).
Arguments Returned {A} a.
Arguments Thrown {A} msg.

Definition Eff (S A : Type) : Type := S → Outcome A * S.

Definition ret {S A : Type} (a : A) : Eff S A := λ s, (Returned a, s).

Definition bind {S A B : Type} (m : Eff S A) (k : A → Eff S B) : Eff S B :=
  λ s, match m s with
       | (Returned a, s') => k a s'
       | (Thrown e, s') => (Thrown e, s')
       end.

Definition throw {S A : Type} (msg : string) : Eff S A := λ s, (Thrown msg, s).
Definition gets {S A : Type} (f : S → A) : Eff S A := λ s, (Returned (f s), s).
Definition modify {S : Type} (f : S → S) : Eff S unit := λ s, (Returned tt, f s).

(** A pure computation that may raise, run without touching the store. *)
Definition liftO {S A : Type} (f : S → Outcome A) : Eff S A := λ s, (f s, s).

Notation "x <- m ;; k" := (bind m (λ x, k))
  (at level 100, m at next level, right associativity,
   format "'[v' x  <-  m  ;;  '/' k ']'").
Notation "m ;;; k" := (bind m (λ _, k))
  (at level 100, right associativity, format "'[v' m  ;;;  '/' k ']'").

(** ** JavaScript strings and objects *)

(** [s.split("-")[0]]: the part of [s] before the first dash. *)
Fixpoint split_head (s : string) : string :=
  match s with
  | EmptyString => EmptyString
  | String c r => if Ascii.eqb c "-"%char then EmptyString else String c (split_head r)
  end.

(** [s.split("-")]: the segments of [s] between dashes; never empty. *)
Fixpoint split_dash (s : string) : list string :=
  match s with
  | EmptyString => [EmptyString]
  | String c r =>
      if Ascii.eqb c "-"%char then EmptyString :: split_dash r
      else match split_dash r with
           | seg :: segs => String c seg :: segs
           | [] => [String c EmptyString]
           end
  end.

(** The property names that every plain object inherits from
    [Object.prototype]: a read [o[k]] of such a name on an object without an
    own property [k] yields the inherited function (for ["__proto__"], the
    prototype object), which is truthy, is not a number and has no [push]. *)
Definition objectPrototypeKeys : list string :=
  ["constructor"; "__defineGetter__"; "__defineSetter__"; "hasOwnProperty";
   "__lookupGetter__"; "__lookupSetter__"; "isPrototypeOf"; "propertyIsEnumerable";
   "toString"; "valueOf"; "__proto__"; "toLocaleString"].

Definition inherited (k : string) : bool := bool_decide (k ∈ objectPrototypeKeys).

(** Property keys that are array indices (canonical decimal numerals below
    [2^32 - 1]) are enumerated first, in ascending numeric order; all other
    string keys follow in insertion order. *)
Definition digit_of (c : ascii) : option N :=
  let n := N_of_ascii c in
  if ((48 <=? n) && (n <=? 57))%N then Some (n - 48)%N else None.

Fixpoint parse_digits (acc : N) (s : string) : option N :=
  match s with
  | EmptyString => Some acc
  | String c r =>
      match digit_of c with
      | Some d => parse_digits (acc * 10 + d)%N r
      | None => None
      end
  end.

Definition array_index (s : string) : option N :=
  match s with
  | EmptyString => None
  | String c r =>
      if Ascii.eqb c "0"%char
      then (if String.eqb r EmptyString then Some 0%N else None)
      else match parse_digits 0 s with
           | Some n => if (n <? 4294967295)%N then Some n else None
           | None => None
           end
  end.

(** A plain object with string keys, kept in property-enumeration order. *)
Abbreviation JsObject V := (list (string * V)) (only parsing).

Module JsObject.

Fixpoint get {V} (k : string) (o : JsObject V) : option V :=
  match o with
  | [] => None
  | (k', v) :: o' => if String.eqb k k' then Some v else get k o'
  end.

(** Does a new key [k] come before the existing key [k'] ? *)
Definition before (k k' : string) : bool :=
  match array_index k, array_index k' with
  | Some n, Some n' => (n <? n')%N
  | Some _, None => true
  | None, _ => false
  end.

Fixpoint add {V} (k : string) (v : V) (o : JsObject V) : JsObject V :=
  match o with
  | [] => [(k, v)]
  | (k', v') :: o' =>
      if before k k' then (k, v) :: (k', v') :: o' else (k', v') :: add k v o'
  end.

Fixpoint replace {V} (k : string) (v : V) (o : JsObject V) : JsObject V :=
  match o with
  | [] => []
  | (k', v') :: o' =>
      if String.eqb k k' then (k', v) :: o' else (k', v') :: replace k v o'
  end.

(** [o[k] = v] *)
Definition set {V} (k : string) (v : V) (o : JsObject V) : JsObject V :=
  match get k o with
  | Some _ => replace k v o
  | None => add k v o
  end.

Definition keys {V} (o : JsObject V) : list string := o.*1.
Definition values {V} (o : JsObject V) : list V := o.*2.

End JsObject.

(** ** Cards and the card heap *)

Module Card.
(** [class Card { id; name; isFaceUp }].  JSON round-trips of a card yield a
    plain object with the same three fields, modelled by the same record. *)
Record t : Type := mk { id : string; name : string; isFaceUp : bool }.

Definition eqb (a b : t) : bool :=
  String.eqb (id a) (id b) && String.eqb (name a) (name b)
  && Bool.eqb (isFaceUp a) (isFaceUp b).

(** [flip()] *)
Definition flip (c : t) : t := mk (id c) (name c) (negb (isFaceUp c)).

(** [clone()]: the fields of the new object. *)
Definition clone (c : t) : t := mk (id c) (name c) (isFaceUp c).
End Card.

(** A reference to a [Card] object, and the store of all card objects. *)
Abbreviation ref := nat (only parsing).
Abbreviation heap := (list Card.t) (only parsing).

Module Heap.
Definition alloc (c : Card.t) (h : heap) : ref * heap := (length h, h ++ [c]).

(** [card.id] for the object behind a reference. *)
Definition id (h : heap) (r : ref) : string :=
  match h !! r with Some c => Card.id c | None => EmptyString end.

(** [card.name] *)
Definition name (h : heap) (r : ref) : string :=
  match h !! r with Some c => Card.name c | None => EmptyString end.

(** [card.isFaceUp = b] *)
Definition setFaceUp (r : ref) (b : bool) (h : heap) : heap :=
  match h !! r with
  | Some c => <[r := Card.mk (Card.id c) (Card.name c) b]> h
  | None => h
  end.

(** The card values behind a list of references. *)
Definition read (h : heap) (rs : list ref) : list (option Card.t) :=
  (λ r, h !! r) <$> rs.

(** [card.flip()] on the object behind a reference. *)
Definition flip (r : ref) (h : heap) : heap :=
  match h !! r with
  | Some c => <[r := Card.flip c]> h
  | None => h
  end.

(** [card.clone()]: a new object, and the reference to it. *)
Definition clone (r : ref) (h : heap) : option ref * heap :=
  match h !! r with
  | Some c => let '(r', h') := alloc (Card.clone c) h in (Some r', h')
  | None => (None, h)
  end.
End Heap.

(** ** Deck (Deck.ts), the array inside a [Deck] object *)

Module Deck.
Abbreviation t := (list ref) (only parsing).

(** [[cards[i], cards[j]] = [cards[j], cards[i]]] *)
Definition swap (i j : nat) (cards : t) : t :=
  match cards !! i, cards !! j with
  | Some a, Some b => <[i := b]> (<[j := a]> cards)
  | _, _ => cards
  end.

(** The loop of [shuffle], entered with [i]; [rnd] supplies, for each
    iteration, a natural number standing for the outcome of
    [Math.random()]: [Math.floor(Math.random() * (i + 1))] ranges over
    [0..i] and is modelled as the next oracle value modulo [i + 1]. *)
Fixpoint shuffle_from (i : nat) (rnd : list nat) (cards : t) : t :=
  match i with
  | 0 => cards
  | S i' =>
      let j := hd 0 rnd `mod` (i + 1) in
      shuffle_from i' (tl rnd) (swap i j cards)
  end.

Definition shuffle (rnd : list nat) (cards : t) : t :=
  shuffle_from (length cards - 1) rnd cards.

(** [draw(count)]: the cards taken from the front and the remaining deck. *)
Definition draw (count : nat) (cards : t) : list ref * t :=
  let actualCount := count `min` length cards in
  (take actualCount cards, drop actualCount cards).

Definition size (cards : t) : nat := length cards.
Definition isEmpty (cards : t) : bool := length cards =? 0.
Definition getCards (cards : t) : list ref := cards.

(** [cut(position)], for an integral [position]. *)
Definition cut (position : Z) (cards : t) : t :=
  if ((position <=? 0) || (Z.of_nat (length cards) <=? position))%Z then cards
  else
    let top := take (Z.to_nat position) cards in
    let bottom := drop (Z.to_nat position) cards in
    bottom ++ top.

(** [drawSpecific(cardId)]: the card found, if any, and the remaining
    deck. *)
Fixpoint drawSpecific (h : heap) (cardId : string) (cards : t) : option ref * t :=
  match cards with
  | [] => (None, [])
  | c :: rest =>
      if String.eqb (Heap.id h c) cardId then (Some c, rest)
      else let '(r, rest') := drawSpecific h cardId rest in (r, c :: rest')
  end.

Definition addToTop (card : ref) (cards : t) : t := card :: cards.
Definition addToBottom (card : ref) (cards : t) : t := cards ++ [card].

(** [removeFromTop()]: [cards.shift()] *)
Definition removeFromTop (cards : t) : option ref * t :=
  match cards with
  | [] => (None, [])
  | c :: rest => (Some c, rest)
  end.

Definition addMultipleToTop (cs : list ref) (cards : t) : t := cs ++ cards.
Definition addMultipleToBottom (cs : list ref) (cards : t) : t := cards ++ cs.
End Deck.

(** ** Hand (Hand.ts), the array inside a [Hand] object *)

Module Hand.
Abbreviation t := (list ref) (only parsing).

Definition addCards (cards : list ref) (hand : t) : t := hand ++ cards.
Definition addCard (card : ref) (hand : t) : t := hand ++ [card].

(** [removeCard(cardId)]: drops the first card whose id is [cardId]. *)
Fixpoint removeCard (h : heap) (cardId : string) (hand : t) : option ref * t :=
  match hand with
  | [] => (None, [])
  | c :: rest =>
      if String.eqb (Heap.id h c) cardId then (Some c, rest)
      else let '(r, rest') := removeCard h cardId rest in (r, c :: rest')
  end.

(** [removeCards(cardIds)]: the removed cards and the remaining hand. *)
Definition removeCards (h : heap) (cardIds : list string) (hand : t) : list ref * t :=
  (filter (λ c, Heap.id h c ∈ cardIds) hand, filter (λ c, Heap.id h c ∉ cardIds) hand).

Definition getCards (hand : t) : list ref := hand.
Definition size (hand : t) : nat := length hand.

(** [getCard(cardId)]: [cards.find(card => card.id === cardId)] *)
Definition getCard (h : heap) (cardId : string) (hand : t) : option ref :=
  List.find (λ c, String.eqb (Heap.id h c) cardId) hand.

(** [getCardsByPredicate(predicate)]; the predicate reads the card object. *)
Definition getCardsByPredicate (h : heap) (predicate : Card.t → bool) (hand : t)
  : list ref :=
  List.filter (λ c, from_option predicate false (h !! c)) hand.

Definition isEmpty (hand : t) : bool := length hand =? 0.

(** [hasCard(cardId)]: [cards.some(card => card.id === cardId)] *)
Definition hasCard (h : heap) (cardId : string) (hand : t) : bool :=
  existsb (λ c, String.eqb (Heap.id h c) cardId) hand.

(** [clear()]: the cards that were held, and the empty hand. *)
Definition clear (hand : t) : list ref * t := (hand, []).
End Hand.

(** ** Player (Player.ts) *)

Module Player.
Record t : Type := mk { id : string; name : string; hand : Hand.t; score : Z }.

(** [new Player(id, name, initialScore = 0)] *)
Definition new (id name : string) : t := mk id name [] 0.

Definition setHand (f : Hand.t → Hand.t) (p : t) : t :=
  mk (id p) (name p) (f (hand p)) (score p).
Definition setScore (s : Z) (p : t) : t := mk (id p) (name p) (hand p) s.

(** [clone()]: a new player whose new hand holds the same card objects. *)
Definition clone (p : t) : t := mk (id p) (name p) (Hand.getCards (hand p)) (score p).

Definition addScore (points : Z) (p : t) : t :=
  mk (id p) (name p) (hand p) (score p + points).
Definition getScore (p : t) : Z := score p.
End Player.

(** ** Custom state values *)

(** [customState] is a [Record<string, any>].  The two rule sets store
    [null], booleans, strings, arrays of cards ([cardsInPlay]) and one object
    of string arrays ([books]); the model covers these shapes. *)
Inductive CustomValue : Type :=
  | VNull
  | VBool (b : bool)
  | VStr (s : string)
  | VCards (cs : list ref)
  | VBooks (m : JsObject (list string)).

(** JavaScript truthiness of a property read ([None] is [undefined]). *)
Definition truthy (v : option CustomValue) : bool :=
  match v with
  | None | Some VNull | Some (VBool false) => false
  | Some (VStr s) => negb (String.eqb s EmptyString)
  | Some (VBool true) | Some (VCards _) | Some (VBooks _) => true
  end.

(** A move is an [any]: a string, a request object with a string target and
    a string rank, [null], or some other value (a number, a boolean,
    [undefined], an object whose [targetPlayerId] is not a string).  A
    request object with a string target whose [rank] is not a string is not
    represented. *)
Inductive Move : Type :=
  | MoveString (s : string)
  | MoveAsk (targetPlayerId rank : string)
  | MoveNull
  | MoveOther.

(** ** GameState (GameState.ts) *)

Module GameState.
Record t : Type := mk {
  deck : Deck.t;
  discardPile : Deck.t;
  players : list Player.t;
  currentPlayerId : string;
  round : Z;
  customState : JsObject CustomValue
}.

(** [new GameState(deck)] *)
Definition new (deck : Deck.t) : t := mk deck [] [] EmptyString 1 [].

Definition setDeck (d : Deck.t) (s : t) : t :=
  mk d (discardPile s) (players s) (currentPlayerId s) (round s) (customState s).
Definition setPlayers (ps : list Player.t) (s : t) : t :=
  mk (deck s) (discardPile s) ps (currentPlayerId s) (round s) (customState s).
Definition setCurrentPlayerId (i : string) (s : t) : t :=
  mk (deck s) (discardPile s) (players s) i (round s) (customState s).

(** [players.findIndex(p => p.id === playerId)]; a [Player] reference is
    the position of the object in [players]. *)
Fixpoint findIndex (f : Player.t → bool) (ps : list Player.t) : option nat :=
  match ps with
  | [] => None
  | p :: ps' => if f p then Some 0 else S <$> findIndex f ps'
  end.

Definition getPlayerById (playerId : string) (s : t) : option nat :=
  findIndex (λ p, String.eqb (Player.id p) playerId) (players s).

(** [addPlayer(player)] *)
Definition addPlayer (player : Player.t) (s : t) : t :=
  let s' := setPlayers (players s ++ [player]) s in
  if (length (players s') =? 1) && String.eqb (currentPlayerId s') EmptyString
  then setCurrentPlayerId (Player.id player) s'
  else s'.

(** [setCustomState(key, value)] *)
Definition setCustomState (key : string) (value : CustomValue) (s : t) : t :=
  mk (deck s) (discardPile s) (players s) (currentPlayerId s) (round s)
     (JsObject.set key value (customState s)).

(** [customState[key]] *)
Definition customValue (key : string) (s : t) : option CustomValue :=
  JsObject.get key (customState s).

(** [getCustomState(key, defaultValue)]: [customState[key] ?? defaultValue].
    This is the read of an own property: for a [key] that is not set and
    names a property inherited from [Object.prototype] the code yields the
    inherited function, which has no counterpart among the values modelled.
    The rule sets read the fixed keys ["cardsInPlay"], ["warMode"],
    ["roundWinner"], ["books"], ["lastAction"], ["gameOver"] and
    ["anotherTurn"], none of which is inherited. *)
Definition getCustomState (key : string) (defaultValue : CustomValue) (s : t)
  : CustomValue :=
  match customValue key s with
  | None | Some VNull => defaultValue
  | Some v => v
  end.

(** [JSON.parse(JSON.stringify(v))]: every card object inside the value is
    rebuilt as a new object with the same fields. *)
Fixpoint copyCards (cs : list ref) (h : heap) : list ref * heap :=
  match cs with
  | [] => ([], h)
  | c :: cs' =>
      match h !! c with
      | Some v =>
          let '(c', h1) := Heap.alloc v h in
          let '(r, h2) := copyCards cs' h1 in (c' :: r, h2)
      | None => let '(r, h2) := copyCards cs' h in (c :: r, h2)
      end
  end.

Definition jsonValue (v : CustomValue) (h : heap) : CustomValue * heap :=
  match v with
  | VCards cs => let '(cs', h') := copyCards cs h in (VCards cs', h')
  | _ => (v, h)
  end.

Fixpoint jsonClone (o : JsObject CustomValue) (h : heap)
  : JsObject CustomValue * heap :=
  match o with
  | [] => ([], h)
  | (k, v) :: o' =>
      let '(v', h1) := jsonValue v h in
      let '(r, h2) := jsonClone o' h1 in ((k, v') :: r, h2)
  end.

(** [clone()] *)
Definition clone (s : t) (h : heap) : t * heap :=
  let '(custom, h') := jsonClone (customState s) h in
  (mk (Deck.getCards (deck s)) (Deck.getCards (discardPile s))
      (Player.clone <$> players s) (currentPlayerId s) (round s) custom,
   h').

(** [getCurrentPlayer()] *)
Definition getCurrentPlayer (s : t) : option nat := getPlayerById (currentPlayerId s) s.

(** [removePlayer(playerId)]: the player spliced out, if any, and the
    state left. *)
Definition removePlayer (playerId : string) (s : t) : option Player.t * t :=
  match getPlayerById playerId s with
  | Some index => (players s !! index, setPlayers (delete index (players s)) s)
  | None => (None, s)
  end.
End GameState.

(** The part of the program state that a rule set can reach: the live
    [GameState] object and the card objects. *)
Record World : Type := mkWorld { state : GameState.t; cards : heap }.

Module W.
(** Reads and writes of the live state, on the [Eff World] monad. *)
Definition getState : Eff World GameState.t := gets state.
Definition getHeap : Eff World heap := gets cards.
Definition modifyState (f : GameState.t → GameState.t) : Eff World unit :=
  modify (λ w, mkWorld (f (state w)) (cards w)).
Definition modifyHeap (f : heap → heap) : Eff World unit :=
  modify (λ w, mkWorld (state w) (f (cards w))).

(** Dereferencing a value that may be [undefined]. *)
Definition orThrow {A} (o : option A) (msg : string) : Eff World A :=
  match o with Some a => ret a | None => throw msg end.

Definition playerAt (i : nat) : Eff World Player.t :=
  s <- getState;;
  orThrow (GameState.players s !! i) "TypeError: Cannot read properties of undefined".

Definition updatePlayer (i : nat) (f : Player.t → Player.t) : Eff World unit :=
  modifyState (λ s, GameState.setPlayers (alter f i (GameState.players s)) s).

Definition setCustomState (key : string) (v : CustomValue) : Eff World unit :=
  modifyState (GameState.setCustomState key v).

(** [player.setScore(player.hand.size())] *)
Definition scoreHand (i : nat) : Eff World unit :=
  updatePlayer i (λ p, Player.setScore (Z.of_nat (Hand.size (Player.hand p))) p).

(** [players.find(f)], as the position of the player found. *)
Definition findPlayer (f : Player.t → bool) : Eff World (option nat) :=
  s <- getState;; ret (GameState.findIndex f (GameState.players s)).

(** [deck.draw(count)] on the live deck. *)
Definition drawFromDeck (count : nat) : Eff World (list ref) :=
  s <- getState;;
  let '(drawn, rest) := Deck.draw count (GameState.deck s) in
  modifyState (GameState.setDeck rest);;;
  ret drawn.
End W.

(** ** CardUtils (CardUtils.ts) *)

Module CardUtils.
Definition suits : list string := ["Hearts"; "Diamonds"; "Clubs"; "Spades"].
Definition ranks : list string :=
  ["2"; "3"; "4"; "5"; "6"; "7"; "8"; "9"; "10"; "J"; "Q"; "K"; "A"].

(** [createStandardDeck()]: the 52 card objects, in creation order. *)
Definition standardCards : list Card.t :=
  suit ← suits; rank ← ranks;
  [Card.mk (rank +:+ "-" +:+ suit) (rank +:+ " of " +:+ suit) false].

(** [dealCards(deck, players, cardsPerPlayer, true)]: one card at a time
    to each player in turn; a player gets nothing once the deck is empty. *)
Fixpoint dealRound (players : list nat) : Eff World unit :=
  match players with
  | [] => ret tt
  | p :: rest =>
      card <- W.drawFromDeck 1;;
      (if 0 <? length card
       then W.updatePlayer p (Player.setHand (Hand.addCards card))
       else ret tt);;;
      dealRound rest
  end.

Fixpoint dealCards (players : list nat) (cardsPerPlayer : nat) : Eff World unit :=
  match cardsPerPlayer with
  | 0 => ret tt
  | S n => dealRound players;;; dealCards players n
  end.

(** [groupCardsByRank(cards)]: rank is [card.id.split("-")[0]].
    [result[rank]] is read as an own property, which is what the code does
    for every rank that is not a name inherited from [Object.prototype]; for
    such a name the code finds the inherited function and raises on [push].
    The properties below that go through this function assume plain ranks
    (see [plainRanks]); [groupCardsBySuit] below models the raise. *)
Fixpoint groupInto (h : heap) (cards : list ref) (result : JsObject (list ref))
  : JsObject (list ref) :=
  match cards with
  | [] => result
  | card :: rest =>
      let rank := split_head (Heap.id h card) in
      let group := default [] (JsObject.get rank result) in
      groupInto h rest (JsObject.set rank (group ++ [card]) result)
  end.

Definition groupCardsByRank (h : heap) (cards : list ref) : JsObject (list ref) :=
  groupInto h cards [].

(** [createCustomDeck(cardDefinitions)]: the card objects, in order. *)
Record CardDefinition : Type :=
  mkCardDefinition { defId : string; defName : string; defIsFaceUp : option bool }.

Definition createCustomDeck (cardDefinitions : list CardDefinition) : list Card.t :=
  (λ def, Card.mk (defId def) (defName def) (default false (defIsFaceUp def)))
  <$> cardDefinitions.

(** [dealCards(deck, players, cardsPerPlayer, false)]: each player in turn
    draws all of their cards at once. *)
Fixpoint dealAtOnce (players : list nat) (cardsPerPlayer : nat) : Eff World unit :=
  match players with
  | [] => ret tt
  | p :: rest =>
      cards <- W.drawFromDeck cardsPerPlayer;;
      W.updatePlayer p (Player.setHand (Hand.addCards cards));;;
      dealAtOnce rest cardsPerPlayer
  end.

(** [dealCards(deck, players, cardsPerPlayer, dealOneAtATime)] *)
Definition dealCardsBy (dealOneAtATime : bool) (players : list nat)
    (cardsPerPlayer : nat) : Eff World unit :=
  if dealOneAtATime then dealCards players cardsPerPlayer
  else dealAtOnce players cardsPerPlayer.

Definition rankMap : JsObject nat :=
  [("2", 2); ("3", 3); ("4", 4); ("5", 5); ("6", 6); ("7", 7); ("8", 8);
   ("9", 9); ("10", 10); ("J", 11); ("Q", 12); ("K", 13); ("A", 14)].

(** [getCardRank(card)]: [rankMap[rank] || 0].  [None] stands for the
    value inherited from [Object.prototype], which is not a number. *)
Definition getCardRank (h : heap) (card : ref) : option nat :=
  let rank := split_head (Heap.id h card) in
  match JsObject.get rank rankMap with
  | Some n => Some n
  | None => if inherited rank then None else Some 0
  end.

(** [getCardSuit(card)]: [card.id.split("-")[1] || ""] *)
Definition getCardSuit (h : heap) (card : ref) : string :=
  default EmptyString (split_dash (Heap.id h card) !! 1).

(** [compareCardsByRank(card1, card2)]; [None] is [NaN]. *)
Definition compareCardsByRank (h : heap) (card1 card2 : ref) : option Z :=
  r1 ← getCardRank h card1; r2 ← getCardRank h card2;
  Some (Z.of_nat r1 - Z.of_nat r2)%Z.

(** [groupCardsBySuit(cards)].  A suit that names an inherited property
    reads as truthy before any group exists, and the [push] on it raises. *)
Fixpoint groupBySuitInto (h : heap) (cards : list ref) (result : JsObject (list ref))
  : Outcome (JsObject (list ref)) :=
  match cards with
  | [] => Returned result
  | card :: rest =>
      let suit := getCardSuit h card in
      match JsObject.get suit result with
      | Some group => groupBySuitInto h rest (JsObject.set suit (group ++ [card]) result)
      | None =>
          if inherited suit
          then Thrown "TypeError: result[suit].push is not a function"
          else groupBySuitInto h rest (JsObject.set suit [card] result)
      end
  end.

Definition groupCardsBySuit (h : heap) (cards : list ref) : Outcome (JsObject (list ref)) :=
  groupBySuitInto h cards [].
End CardUtils.

(** ** The rules contract (GameRules.ts) *)

(** The acting [Player] object is passed as its position in [players].
    [initializeGame] also receives the random oracle used by [shuffle].
    The query methods do not write to the state in either rule set and are
    modelled as functions of the current world. *)
Record IGameRules : Type := {
  initializeGame : list nat → Eff World unit;
  validateMove : nat → Move → World → Outcome bool;
  applyMove : nat → Move → Eff World unit;
  isGameOver : World → bool;
  getWinners : World → list string;
  getCurrentPlayerId : World → string;
  getNextPlayerId : World → Outcome string;
  nextTurn : Eff World unit
}.

(** ** War (WarRules.ts) *)

Module WarRules.
Definition rankMap : JsObject nat :=
  [("2", 2); ("3", 3); ("4", 4); ("5", 5); ("6", 6); ("7", 7); ("8", 8);
   ("9", 9); ("10", 10); ("J", 11); ("Q", 12); ("K", 13); ("A", 14)].

(** [rankMap[card.id.split("-")[0]] || 0], for a rank that is an own key of
    [rankMap] or no property at all.  For a rank that names a property
    inherited from [Object.prototype] the code obtains the inherited function
    instead of a number, and what [>] then answers depends on the text the
    engine prints for that function; the properties of War below assume
    plain ranks (see [plainRanks]), and [CardUtils.getCardRank] marks the
    case. *)
Definition getCardRank (h : heap) (card : ref) : nat :=
  default 0 (JsObject.get (split_head (Heap.id h card)) rankMap).

Definition initializeGame (rnd : list nat) : Eff World unit :=
  s <- W.getState;;
  if negb (length (GameState.players s) =? 2)
  then throw "War requires exactly 2 players"
  else
    W.modifyState (λ s, GameState.setDeck (Deck.shuffle rnd (GameState.deck s)) s);;;
    s <- W.getState;;
    let totalCards := Deck.size (GameState.deck s) in
    let cardsPerPlayer := totalCards `div` 2 in
    dealt1 <- W.drawFromDeck cardsPerPlayer;;
    W.updatePlayer 0 (Player.setHand (Hand.addCards dealt1));;;
    dealt2 <- W.drawFromDeck cardsPerPlayer;;
    W.updatePlayer 1 (Player.setHand (Hand.addCards dealt2));;;
    player1 <- W.playerAt 0;;
    W.modifyState (GameState.setCurrentPlayerId (Player.id player1));;;
    W.setCustomState "cardsInPlay" (VCards []);;;
    W.setCustomState "warMode" (VBool false);;;
    W.setCustomState "roundWinner" VNull.

Definition isPlay (move : Move) : bool :=
  match move with MoveString s => String.eqb s "play" | _ => false end.

(** [move === "play" && player.hand.size() > 0] *)
Definition validateMove (player : nat) (move : Move) (w : World) : Outcome bool :=
  match GameState.players (state w) !! player with
  | Some p => Returned (isPlay move && (0 <? Hand.size (Player.hand p)))
  | None => Thrown "TypeError: Cannot read properties of undefined"
  end.

(** [handleRoundWin(gameState, winner, cards)] *)
Definition handleRoundWin (winner : nat) (cards : list ref) : Eff World unit :=
  W.updatePlayer winner (Player.setHand (Hand.addCards cards));;;
  W.setCustomState "cardsInPlay" (VCards []);;;
  W.setCustomState "warMode" (VBool false);;;
  w <- W.playerAt winner;;
  W.setCustomState "roundWinner" (VStr (Player.id w));;;
  W.scoreHand winner;;;
  found <- W.findPlayer (λ p, negb (String.eqb (Player.id p) (Player.id w)));;
  otherPlayer <- W.orThrow found "TypeError: Cannot read properties of undefined";;
  W.scoreHand otherPlayer.

(** [const c = p.hand.getCards()[0]; p.hand.removeCard(c.id)]: reading
    [c.id] raises when the hand is empty. *)
Definition playTop (p : nat) : Eff World ref :=
  pl <- W.playerAt p;;
  card <- W.orThrow (Hand.getCards (Player.hand pl) !! 0)
            "TypeError: Cannot read properties of undefined (reading 'id')";;
  h <- W.getHeap;;
  W.updatePlayer p (Player.setHand (λ hand, (Hand.removeCard h (Heap.id h card) hand).2));;;
  ret card.

(** The [for (let i = 0; i < 3; i++)] loop of a war, with [n] iterations
    left. *)
Fixpoint commitWarCards (n : nat) (player otherPlayer : nat) (cardsInPlay : list ref)
  : Eff World (list ref) :=
  match n with
  | 0 => ret cardsInPlay
  | S n' =>
      playerWarCard <- playTop player;;
      otherPlayerWarCard <- playTop otherPlayer;;
      commitWarCards n' player otherPlayer
        (cardsInPlay ++ [playerWarCard; otherPlayerWarCard])
  end.

(** [getCustomState<Card[]>("cardsInPlay", []) || []]: the array to push
    onto, or [None] when the stored value is truthy and has no [push]. *)
Definition cardsInPlayArray (s : GameState.t) : option (list ref) :=
  match GameState.getCustomState "cardsInPlay" (VCards []) s with
  | VCards cs => Some cs
  | v => if truthy (Some v) then None else Some []
  end.

(** [applyMove(gameState, player, move)].  The array read from
    [customState] is pushed onto in place; every path below stores a new
    array under ["cardsInPlay"] before it returns, and nothing can raise
    between the push and that store, so the in-place push is not
    separately visible.  The unused read of ["warMode"] is omitted. *)
Definition applyMove (player : nat) (move : Move) : Eff World unit :=
  if negb (isPlay move) then ret tt
  else
    s <- W.getState;;
    let stored := cardsInPlayArray s in
    pl <- W.playerAt player;;
    found <- W.findPlayer (λ p, negb (String.eqb (Player.id p) (Player.id pl)));;
    otherIdx <- W.orThrow found "TypeError: Cannot read properties of undefined (reading 'id')";;
    other <- W.playerAt otherIdx;;
    otherPlayer <- W.orThrow (GameState.getPlayerById (Player.id other) s)
                     "TypeError: Cannot read properties of undefined (reading 'hand')";;
    playerCard <- playTop player;;
    otherPlayerCard <- playTop otherPlayer;;
    W.modifyHeap (Heap.setFaceUp playerCard true);;;
    W.modifyHeap (Heap.setFaceUp otherPlayerCard true);;;
    before <- W.orThrow stored "TypeError: cardsInPlay.push is not a function";;
    let cardsInPlay := before ++ [playerCard; otherPlayerCard] in
    h <- W.getHeap;;
    let playerRank := getCardRank h playerCard in
    let otherPlayerRank := getCardRank h otherPlayerCard in
    if otherPlayerRank <? playerRank then handleRoundWin player cardsInPlay
    else if playerRank <? otherPlayerRank then handleRoundWin otherPlayer cardsInPlay
    else
      W.setCustomState "warMode" (VBool true);;;
      W.setCustomState "cardsInPlay" (VCards cardsInPlay);;;
      p <- W.playerAt player;;
      o <- W.playerAt otherPlayer;;
      let psize := Hand.size (Player.hand p) in
      let osize := Hand.size (Player.hand o) in
      if (psize <? 4) || (osize <? 4)
      then (if osize <? psize then handleRoundWin player cardsInPlay
            else handleRoundWin otherPlayer cardsInPlay)
      else
        cardsInPlay' <- commitWarCards 3 player otherPlayer cardsInPlay;;
        W.setCustomState "cardsInPlay" (VCards cardsInPlay').

(** [players.some(player => player.hand.size() === 0)] *)
Definition isGameOver (w : World) : bool :=
  existsb (λ p, Hand.size (Player.hand p) =? 0) (GameState.players (state w)).

(** [players.filter(player => player.hand.size() > 0).map(player => player.id)] *)
Definition getWinners (w : World) : list string :=
  Player.id <$>
    filter (λ p, 0 < Hand.size (Player.hand p)) (GameState.players (state w)).

Definition getCurrentPlayerId (w : World) : string :=
  GameState.currentPlayerId (state w).

(** [players.find(p => p.id !== currentPlayerId)!.id] *)
Definition getNextPlayerId (w : World) : Outcome string :=
  let s := state w in
  match List.find (λ p, negb (String.eqb (Player.id p) (GameState.currentPlayerId s)))
          (GameState.players s) with
  | Some p => Returned (Player.id p)
  | None => Thrown "TypeError: Cannot read properties of undefined (reading 'id')"
  end.

Definition nextTurn : Eff World unit :=
  next <- liftO getNextPlayerId;;
  W.modifyState (GameState.setCurrentPlayerId next).

Definition rules : IGameRules :=
  Build_IGameRules initializeGame validateMove applyMove isGameOver
    getWinners getCurrentPlayerId getNextPlayerId nextTurn.
End WarRules.

(** ** Go Fish (GoFishRules.ts) *)

Module GoFishRules.
(** [card.id.split("-")[0]] *)
Definition getCardRank (h : heap) (card : ref) : string := split_head (Heap.id h card).

Definition initializeGame (rnd : list nat) : Eff World unit :=
  s <- W.getState;;
  if length (GameState.players s) <? 2
  then throw "Go Fish requires at least 2 players"
  else
    W.modifyState (λ s, GameState.setDeck (Deck.shuffle rnd (GameState.deck s)) s);;;
    let cardsPerPlayer := if 3 <? length (GameState.players s) then 5 else 7 in
    CardUtils.dealCards (seq 0 (length (GameState.players s))) cardsPerPlayer;;;
    first <- W.playerAt 0;;
    W.modifyState (GameState.setCurrentPlayerId (Player.id first));;;
    W.setCustomState "books" (VBooks []);;;
    W.setCustomState "lastAction" VNull;;;
    W.setCustomState "gameOver" (VBool false).

(** [typeof null] is ["object"], so reading [move.targetPlayerId] raises
    for [null]; every other value without the two string fields fails the
    shape test. *)
Definition validateMove (player : nat) (move : Move) (w : World) : Outcome bool :=
  match move with
  | MoveNull => Thrown "TypeError: Cannot read properties of null (reading 'targetPlayerId')"
  | MoveAsk targetPlayerId rank =>
      match GameState.players (state w) !! player with
      | None => Thrown "TypeError: Cannot read properties of undefined"
      | Some p =>
          if String.eqb targetPlayerId (Player.id p) then Returned false
          else match GameState.getPlayerById targetPlayerId (state w) with
               | None => Returned false
               | Some _ =>
                   Returned (existsb (λ c, String.eqb (getCardRank (cards w) c) rank)
                               (Hand.getCards (Player.hand p)))
               end
      end
  | _ => Returned false
  end.

(** [getCustomState("books", {}) || {}], as the object that
    [checkForBooks] writes to.  A truthy primitive cannot take the
    property write; a stored array is not a shape the model covers and
    raises here as well. *)
Definition booksObject (s : GameState.t) : option (JsObject (list string)) :=
  match GameState.getCustomState "books" (VBooks []) s with
  | VBooks m => Some m
  | v => if truthy (Some v) then None else Some []
  end.

(** The body of [for (const [rank, cards] of Object.entries(cardsByRank))]. *)
Fixpoint collectBooks (player : nat) (playerId : string)
    (entries : list (string * list ref)) (books : JsObject (list string))
  : Eff World (JsObject (list string)) :=
  match entries with
  | [] => ret books
  | (rank, group) :: rest =>
      if length group =? 4 then
        h <- W.getHeap;;
        W.updatePlayer player
          (Player.setHand (λ hand, (Hand.removeCards h (Heap.id h <$> group) hand).2));;;
        let mine := default [] (JsObject.get playerId books) ++ [rank] in
        W.updatePlayer player (Player.setScore (Z.of_nat (length mine)));;;
        collectBooks player playerId rest (JsObject.set playerId mine books)
      else collectBooks player playerId rest books
  end.

(** [checkForBooks(gameState, player)].  The object read from
    [customState] is written in place and stored again at the end.
    [books[player.id]] is read as an own property: for a player id that
    names a property inherited from [Object.prototype] the code skips the
    initialisation and raises on [push] when a book completes, and grouping
    the hand raises for such a rank.  The properties below assume plain ids
    and ranks (see [plainIds], [plainRanks]); under them nothing raises in
    between. *)
Definition checkForBooks (player : nat) : Eff World unit :=
  pl <- W.playerAt player;;
  h <- W.getHeap;;
  let cardsByRank := CardUtils.groupCardsByRank h (Hand.getCards (Player.hand pl)) in
  s <- W.getState;;
  books <- W.orThrow (booksObject s) "TypeError: Cannot create property on a primitive";;
  let books := match JsObject.get (Player.id pl) books with
               | Some _ => books
               | None => JsObject.set (Player.id pl) [] books
               end in
  books <- collectBooks player (Player.id pl) cardsByRank books;;
  W.setCustomState "books" (VBooks books).

(** [Object.entries(books)] reduced to what the rules read: each key with
    the [length] of its value ([None] when the value has no [length]).
    A stored string enumerates its characters, a stored array its
    elements. *)
Definition bookLengths (s : GameState.t) : list (string * option nat) :=
  match GameState.getCustomState "books" (VBooks []) s with
  | VBooks m => (λ kv, (kv.1, Some (length kv.2))) <$> m
  | VStr str => (λ i, (pretty i, Some 1)) <$> seq 0 (String.length str)
  | VCards cs => (λ i, (pretty i, None)) <$> seq 0 (length cs)
  | _ => []
  end.

(** [reduce((sum, playerBooks) => sum + playerBooks.length, 0)];
    [None] is [NaN]. *)
Definition totalBooks (s : GameState.t) : option nat :=
  foldl (λ sum kv, n ← sum; l ← kv.2; Some (n + l)) (Some 0) (bookLengths s).

(** Does some other player with cards hold a card of [rank] ? *)
Definition someoneElseHolds (h : heap) (ps : list Player.t) (player : Player.t)
    (rank : string) : bool :=
  existsb (λ otherPlayer,
      negb (String.eqb (Player.id otherPlayer) (Player.id player))
      && negb (Hand.size (Player.hand otherPlayer) =? 0)
      && existsb (λ c, String.eqb (getCardRank h c) rank)
           (Hand.getCards (Player.hand otherPlayer)))
    ps.

Definition isGameOver (w : World) : bool :=
  let s := state w in
  if bool_decide (totalBooks s = Some 13) then true
  else if Deck.isEmpty (GameState.deck s) then
    let anyPlayerHasCards :=
      existsb (λ p, 0 <? Hand.size (Player.hand p)) (GameState.players s) in
    if negb anyPlayerHasCards then true
    else negb (existsb (λ player,
             negb (Hand.size (Player.hand player) =? 0)
             && existsb (someoneElseHolds (cards w) (GameState.players s) player)
                  (JsObject.keys (CardUtils.groupCardsByRank (cards w)
                     (Hand.getCards (Player.hand player)))))
           (GameState.players s))
  else false.

(** The loop of [getWinners]: the running maximum and the winners so far. *)
Fixpoint mostBooks (entries : list (string * option nat)) (maxBooks : nat)
    (winners : list string) : list string :=
  match entries with
  | [] => winners
  | (playerId, len) :: rest =>
      match len with
      | Some n =>
          if maxBooks <? n then mostBooks rest n [playerId]
          else if n =? maxBooks then mostBooks rest maxBooks (winners ++ [playerId])
          else mostBooks rest maxBooks winners
      | None => mostBooks rest maxBooks winners
      end
  end.

Definition getWinners (w : World) : list string :=
  mostBooks (bookLengths (state w)) 0 [].

Definition getCurrentPlayerId (w : World) : string :=
  GameState.currentPlayerId (state w).

Definition getNextPlayerId (w : World) : Outcome string :=
  let s := state w in
  if truthy (Some (GameState.getCustomState "anotherTurn" (VBool false) s))
  then Returned (GameState.currentPlayerId s)
  else
    let n := length (GameState.players s) in
    if n =? 0 then Thrown "TypeError: Cannot read properties of undefined (reading 'id')"
    else
      let nextIndex :=
        match GameState.getPlayerById (GameState.currentPlayerId s) s with
        | Some currentIndex => (currentIndex + 1) `mod` n
        | None => 0
        end in
      match GameState.players s !! nextIndex with
      | Some p => Returned (Player.id p)
      | None => Thrown "TypeError: Cannot read properties of undefined (reading 'id')"
      end.

Definition nextTurn : Eff World unit :=
  next <- liftO getNextPlayerId;;
  W.modifyState (GameState.setCurrentPlayerId next);;;
  W.setCustomState "anotherTurn" (VBool false).

(** The branch of [applyMove] taken when the target holds the rank. *)
Definition takeCards (player target : nat) (rank : string) (targetCards : list ref)
  : Eff World string :=
  pl <- W.playerAt player;;
  tp <- W.playerAt target;;
  let action := Player.name pl +:+ " asked " +:+ Player.name tp +:+ " for " +:+ rank
                +:+ "s and got " +:+ pretty (length targetCards) +:+ " card(s)" in
  h <- W.getHeap;;
  let removedCards := (Hand.removeCards h (Heap.id h <$> targetCards)
                         (Player.hand tp)).1 in
  W.updatePlayer target
    (Player.setHand (λ hand, (Hand.removeCards h (Heap.id h <$> targetCards) hand).2));;;
  W.updatePlayer player (Player.setHand (Hand.addCards removedCards));;;
  checkForBooks player;;;
  ret action.

(** The branch of [applyMove] taken when the target lacks the rank. *)
Definition goFish (player target : nat) (rank : string) : Eff World string :=
  pl <- W.playerAt player;;
  tp <- W.playerAt target;;
  let action := Player.name pl +:+ " asked " +:+ Player.name tp +:+ " for " +:+ rank
                +:+ "s and was told to Go Fish!" in
  s <- W.getState;;
  if negb (Deck.isEmpty (GameState.deck s)) then
    drawn <- W.drawFromDeck 1;;
    drawnCard <- W.orThrow (drawn !! 0) "TypeError: Cannot read properties of undefined";;
    W.updatePlayer player (Player.setHand (Hand.addCard drawnCard));;;
    h <- W.getHeap;;
    (if String.eqb (getCardRank h drawnCard) rank then
       W.setCustomState "anotherTurn" (VBool true);;;
       checkForBooks player;;;
       ret (action +:+ " " +:+ Player.name pl +:+ " drew the " +:+ Heap.name h drawnCard
            +:+ " and gets another turn!")
     else
       W.setCustomState "anotherTurn" (VBool false);;;
       checkForBooks player;;;
       ret (action +:+ " " +:+ Player.name pl +:+ " drew a card."))
  else
    W.setCustomState "anotherTurn" (VBool false);;;
    ret (action +:+ " The deck is empty.").

(** [applyMove(gameState, player, move)].  Destructuring [null] or
    [undefined] raises; for the other values without a string
    [targetPlayerId] no player is found and reading [targetPlayer.hand]
    raises. *)
Definition applyMove (player : nat) (move : Move) : Eff World unit :=
  match move with
  | MoveAsk targetPlayerId rank =>
      s <- W.getState;;
      target <- W.orThrow (GameState.getPlayerById targetPlayerId s)
                  "TypeError: Cannot read properties of undefined (reading 'hand')";;
      tp <- W.playerAt target;;
      h <- W.getHeap;;
      let targetCards :=
        filter (λ c, getCardRank h c = rank) (Hand.getCards (Player.hand tp)) in
      action <- (if 0 <? length targetCards
                 then takeCards player target rank targetCards
                 else goFish player target rank);;
      W.setCustomState "lastAction" (VStr action);;;
      w <- gets (λ w, w);;
      if isGameOver w then W.setCustomState "gameOver" (VBool true) else ret tt
  | _ => throw "TypeError: Cannot read properties of undefined"
  end.

Definition rules : IGameRules :=
  Build_IGameRules initializeGame validateMove applyMove isGameOver
    getWinners getCurrentPlayerId getNextPlayerId nextTurn.
End GoFishRules.

(** ** The engine (BaseGame.ts) *)

(** Calls made on the output adapter.  [showGameOver] receives the players
    looked up from the winner ids; the event records the ids. *)
Inductive OutputEvent : Type :=
  | RenderGameState
  | ShowError (message : string)
  | ShowGameOver (winners : list string).

Module BaseGame.
Record t : Type := mk {
  gameState : GameState.t;
  history : list GameState.t;
  moveHistory : list (string * Move);
  store : heap;
  output : list OutputEvent
}.

(** [new BaseGame(rules, output, initialDeck)]: the deck's card objects
    are the contents of the heap. *)
Definition new (initialCards : list Card.t) : t :=
  mk (GameState.new (seq 0 (length initialCards))) [] [] initialCards [].

Definition world (g : t) : World := mkWorld (gameState g) (store g).

(** Runs rules code on the live state and the card objects. *)
Definition onWorld {A} (m : Eff World A) : Eff t A :=
  λ g, let '(r, w) := m (world g) in
       (r, mk (state w) (history g) (moveHistory g) (cards w) (output g)).

Definition emit (e : OutputEvent) : Eff t unit :=
  modify (λ g, mk (gameState g) (history g) (moveHistory g) (store g) (output g ++ [e])).

(** [addPlayer(player)] *)
Definition addPlayer (player : Player.t) (g : t) : t :=
  mk (GameState.addPlayer player (gameState g)) (history g) (moveHistory g)
     (store g) (output g).

(** [this.gameState = s.clone()] *)
Definition restore (s : GameState.t) : Eff t unit :=
  modify (λ g, let '(c, h) := GameState.clone s (store g) in
               mk c (history g) (moveHistory g) h (output g)).

(** [saveState()]: [this.history.push(this.gameState.clone())] *)
Definition saveState : Eff t unit :=
  modify (λ g, let '(c, h) := GameState.clone (gameState g) (store g) in
               mk (gameState g) (history g ++ [c]) (moveHistory g) h (output g)).

Section Rules.
Variable rules : IGameRules.

(** [start()] *)
Definition start (rnd : list nat) : Eff t unit :=
  saveState;;;
  onWorld (initializeGame rules rnd);;;
  emit RenderGameState.

(** [playMove(playerId, move)] *)
Definition playMove (playerId : string) (move : Move) : Eff t bool :=
  g <- gets (λ g, g);;
  match GameState.getPlayerById playerId (gameState g) with
  | None =>
      emit (ShowError ("Player with ID " +:+ playerId +:+ " not found"));;;
      ret false
  | Some player =>
      let name := from_option Player.name EmptyString
                    (GameState.players (gameState g) !! player) in
      if negb (String.eqb playerId (getCurrentPlayerId rules (world g))) then
        emit (ShowError ("It's not " +:+ name +:+ "'s turn"));;;
        ret false
      else
        valid <- liftO (λ g, validateMove rules player move (world g));;
        if negb valid then
          emit (ShowError ("Invalid move by " +:+ name));;;
          ret false
        else
          saveState;;;
          onWorld (applyMove rules player move);;;
          modify (λ g, mk (gameState g) (history g)
                         (moveHistory g ++ [(playerId, move)]) (store g) (output g));;;
          g <- gets (λ g, g);;
          (if isGameOver rules (world g)
           then emit (ShowGameOver (getWinners rules (world g)))
           else onWorld (nextTurn rules);;; emit RenderGameState);;;
          ret true
  end.

(** [getCurrentPlayer()] *)
Definition getCurrentPlayer (g : t) : option nat :=
  GameState.getPlayerById (getCurrentPlayerId rules (world g)) (gameState g).
End Rules.

(** [undo()] *)
Definition undo : Eff t bool :=
  g <- gets (λ g, g);;
  if length (history g) <=? 1 then
    emit (ShowError "No moves to undo");;;
    ret false
  else
    modify (λ g, mk (gameState g) (removelast (history g))
                   (removelast (moveHistory g)) (store g) (output g));;;
    g <- gets (λ g, g);;
    from_option restore (throw "TypeError: Cannot read properties of undefined (reading 'clone')")
      (history g !! (length (history g) - 1));;;
    emit RenderGameState;;;
    ret true.

(** [restart()] *)
Definition restart : Eff t unit :=
  g <- gets (λ g, g);;
  match history g with
  | [] => emit (ShowError "No game to restart")
  | first :: _ =>
      restore first;;;
      modify (λ g, mk (gameState g) [first] [] (store g) (output g));;;
      emit RenderGameState
  end.

Definition getGameState (g : t) : GameState.t := gameState g.

(** [getPlayers()]: a copy of the array of players. *)
Definition getPlayers (g : t) : list Player.t := GameState.players (gameState g).
End BaseGame.

(** ** The game of War (WarGame.ts) *)

Module WarGame.
(** [new WarGame(output)] *)
Definition new : BaseGame.t := BaseGame.new CardUtils.standardCards.

(** [playTurn()]: the promise it returns settles with the result of the
    body, which awaits nothing. *)
Definition playTurn : Eff BaseGame.t bool :=
  g <- gets (λ g, g);;
  match BaseGame.getCurrentPlayer WarRules.rules g with
  | None =>
      BaseGame.emit (ShowError "No current player");;;
      ret false
  | Some currentPlayer =>
      match GameState.players (BaseGame.gameState g) !! currentPlayer with
      | Some p => BaseGame.playMove WarRules.rules (Player.id p) (MoveString "play")
      | None => throw "TypeError: Cannot read properties of undefined (reading 'id')"
      end
  end.
End WarGame.

(** ** Vocabulary of the properties *)

(** *** States compared by value

    The value of a state is what is seen by following every card reference:
    two states are value-equal when their views coincide. *)

Inductive ValueView : Type :=
  | WNull
  | WBool (b : bool)
  | WStr (s : string)
  | WCards (cs : list (option Card.t))
  | WBooks (m : JsObject (list string)).

Record PlayerView : Type := mkPlayerView {
  pv_id : string; pv_name : string; pv_hand : list (option Card.t); pv_score : Z
}.

Record StateView : Type := mkStateView {
  sv_deck : list (option Card.t);
  sv_discardPile : list (option Card.t);
  sv_players : list PlayerView;
  sv_currentPlayerId : string;
  sv_round : Z;
  sv_customState : JsObject ValueView
}.

Definition viewValue (h : heap) (v : CustomValue) : ValueView :=
  match v with
  | VNull => WNull
  | VBool b => WBool b
  | VStr s => WStr s
  | VCards cs => WCards (Heap.read h cs)
  | VBooks m => WBooks m
  end.

Definition viewPlayer (h : heap) (p : Player.t) : PlayerView :=
  mkPlayerView (Player.id p) (Player.name p) (Heap.read h (Player.hand p)) (Player.score p).

Definition view (h : heap) (s : GameState.t) : StateView :=
  mkStateView (Heap.read h (GameState.deck s)) (Heap.read h (GameState.discardPile s))
    (viewPlayer h <$> GameState.players s) (GameState.currentPlayerId s)
    (GameState.round s) (prod_map id (viewValue h) <$> GameState.customState s).

(** *** Card references held by a state *)

Definition valueRefs (v : CustomValue) : list ref :=
  match v with VCards cs => cs | _ => [] end.

(** The cards tracked in [customState] (for War, the ["cardsInPlay"] pile). *)
Definition customRefs (o : JsObject CustomValue) : list ref :=
  kv ← o; valueRefs kv.2.

Definition handRefs (ps : list Player.t) : list ref := p ← ps; Player.hand p.

(** Every card of the game: deck, discard pile, all hands, and the
    collections tracked in [customState]. *)
Definition allRefs (s : GameState.t) : list ref :=
  GameState.deck s ++ GameState.discardPile s ++ handRefs (GameState.players s)
  ++ customRefs (GameState.customState s).

Definition allIds (w : World) : list string := Heap.id (cards w) <$> allRefs (state w).

(** No dangling reference: every reference of the state is allocated. *)
Definition refsOk (h : heap) (s : GameState.t) : Prop :=
  Forall (λ r, r < length h) (allRefs s).

(** The ranks recorded as completed books, over all players. *)
Definition bookRanks (s : GameState.t) : list string :=
  match GameState.customValue "books" s with
  | Some (VBooks m) => mjoin (JsObject.values m)
  | _ => []
  end.

(** *** Books of a hand *)

(** The grouping of [cards] by rank that [groupCardsByRank] computes: every
    rank present has one entry, which holds exactly its cards. *)
Definition grouped (h : heap) (cards : list ref) (o : JsObject (list ref)) : Prop :=
  NoDup (JsObject.keys o)
  ∧ ∀ r, JsObject.get r o
         = (if decide (filter (λ c, GoFishRules.getCardRank h c = r) cards = []) then None
            else Some (filter (λ c, GoFishRules.getCardRank h c = r) cards)).

(** The groups of four that [checkForBooks] sets aside, and the ids of
    their cards. *)
Definition completed (entries : list (string * list ref)) : list (string * list ref) :=
  filter (λ e, length e.2 = 4) entries.
Definition completedIds (h : heap) (entries : list (string * list ref)) : list string :=
  e ← completed entries; Heap.id h <$> e.2.

(** *** Sequences of engine calls *)

Inductive Call : Type :=
  | PlayMove (playerId : string) (move : Move)
  | Undo
  | Restart.

(** The value a call returns: [restart] returns nothing. *)
Definition call (rules : IGameRules) (c : Call) : Eff BaseGame.t (option bool) :=
  match c with
  | PlayMove playerId move => b <- BaseGame.playMove rules playerId move;; ret (Some b)
  | Undo => b <- BaseGame.undo;; ret (Some b)
  | Restart => BaseGame.restart;;; ret None
  end.

(** Calls made one after the other; a call that raises ends the sequence. *)
Fixpoint calls (rules : IGameRules) (cs : list Call) : Eff BaseGame.t (list (option bool)) :=
  match cs with
  | [] => ret []
  | c :: cs' => r <- call rules c;; rs <- calls rules cs';; ret (r :: rs)
  end.

(** The accepted moves still in effect after a call with result [r]: an
    accepted move is appended, a successful undo takes the last one back, a
    restart takes all of them back. *)
Definition inEffect (log : list (string * Move)) (cr : Call * option bool)
  : list (string * Move) :=
  match cr with
  | (PlayMove playerId move, Some true) => log ++ [(playerId, move)]
  | (Undo, Some true) => removelast log
  | (Restart, _) => []
  | _ => log
  end.

(** [n] calls of [restart] in a row. *)
Fixpoint restarts (n : nat) : Eff BaseGame.t unit :=
  match n with
  | 0 => ret tt
  | S n' => BaseGame.restart;;; restarts n'
  end.

(** The invariant of an engine after [start()]: the first snapshot is in
    place and the history is one longer than the move log. *)
Definition inLockstep (snapshot : GameState.t) (g : BaseGame.t) : Prop :=
  ∃ rest, BaseGame.history g = snapshot :: rest
          ∧ length rest = length (BaseGame.moveHistory g).

(** *** States a rule set can reach

    From a start world: [initializeGame], then moves that the rule set
    validates for the player whose turn it is and that [applyMove] carries
    out, each followed by [nextTurn] unless the game is over. *)
Inductive Reachable (rules : IGameRules) (w0 : World) : World → Prop :=
  | reach_init rnd w :
      initializeGame rules rnd w0 = (Returned tt, w) →
      Reachable rules w0 w
  | reach_move w player move w' :
      Reachable rules w0 w →
      validateMove rules player move w = Returned true →
      applyMove rules player move w = (Returned tt, w') →
      Reachable rules w0 w'
  | reach_turn w w' :
      Reachable rules w0 w →
      nextTurn rules w = (Returned tt, w') →
      Reachable rules w0 w'.

(** *** Where the cards are

    A game is fresh when nothing has been dealt, discarded or recorded: the
    state that [new GameState(deck)] and [addPlayer] build. *)
Definition freshGame (w : World) : Prop :=
  GameState.discardPile (state w) = []
  ∧ GameState.customState (state w) = []
  ∧ handRefs (GameState.players (state w)) = [].

(** The ids of the cards of the deck. *)
Definition startIds (w : World) : list string :=
  Heap.id (cards w) <$> GameState.deck (state w).

(** The shape of [customState] that War keeps. *)
Definition warCustom (cs : list nat) (mode : bool) (winner : CustomValue)
  : JsObject CustomValue :=
  [("cardsInPlay", VCards cs); ("warMode", VBool mode); ("roundWinner", winner)].

(** The invariant of War: two players, the three entries of [customState],
    and the cards of the deck, the hands and the pile in play carry the ids
    [ids]. *)
Definition warInv (ids : list string) (w : World) : Prop :=
  ∃ dk a b cur rd cs mode winner,
    state w = GameState.mk dk [] [a; b] cur rd (warCustom cs mode winner)
    ∧ valueRefs winner = []
    ∧ Heap.id (cards w) <$> (dk ++ Player.hand a ++ Player.hand b ++ cs) ≡ₚ ids.

(** The invariant of Go Fish: the cards of the start deck are in the deck
    or in a hand, except those of completed books, which are four cards of
    its rank for every book recorded. *)
Definition goFishInv (h0 : list Card.t) (cards0 : list nat) (w : World) : Prop :=
  cards w = h0
  ∧ GameState.discardPile (state w) = []
  ∧ customRefs (GameState.customState (state w)) = []
  ∧ is_Some (GoFishRules.booksObject (state w))
  ∧ ∃ gone,
      GameState.deck (state w) ++ handRefs (GameState.players (state w)) ++ gone ≡ₚ cards0
      ∧ GoFishRules.getCardRank h0 <$> gone ≡ₚ bookRanks (state w) ≫= replicate 4.

(** *** Strings, deals and turns *)

(** No card has a rank that names a property inherited from
    [Object.prototype]: the reads [rankMap[rank]] and [result[rank]] then see
    own properties only. *)
Definition plainRanks (h : list Card.t) : Prop :=
  Forall (λ c, inherited (split_head (Card.id c)) = false) h.

(** No player has such a name for an id: [books[player.id]] reads an own
    property or nothing. *)
Definition plainIds (ps : list Player.t) : Prop :=
  Forall (λ p, inherited (Player.id p) = false) ps.

(** Does [s] contain a dash ? *)
Fixpoint has_dash (s : string) : bool :=
  match s with
  | EmptyString => false
  | String c r => Ascii.eqb c "-"%char || has_dash r
  end.

(** [ps'] is [ps] with, for every position [i], [extra i] more cards in the
    hand and nothing else changed. *)
Definition dealt (extra : nat → nat) (ps ps' : list Player.t) : Prop :=
  length ps' = length ps
  ∧ ∀ i p, ps !! i = Some p →
      ∃ p', ps' !! i = Some p'
            ∧ Player.id p' = Player.id p ∧ Player.name p' = Player.name p
            ∧ Player.score p' = Player.score p
            ∧ take (length (Player.hand p)) (Player.hand p') = Player.hand p
            ∧ length (Player.hand p') = length (Player.hand p) + extra i.

(** The invariant of the loop of [groupCardsBySuit]. *)
Definition groupedBySuit (h : list Card.t) (cards : list nat) (o : list (string * list nat))
  : Prop :=
  NoDup (JsObject.keys o)
  ∧ ∀ suit, JsObject.get suit o
            = (if decide (filter (λ c, CardUtils.getCardSuit h c = suit) cards = []) then None
               else Some (filter (λ c, CardUtils.getCardSuit h c = suit) cards)).

(** [n] calls of [nextTurn] in a row. *)
Fixpoint turns (rules : IGameRules) (n : nat) : Eff World unit :=
  match n with
  | 0 => ret tt
  | S n' => nextTurn rules;;; turns rules n'
  end.

(** ** Example games

    The games of the examples below are played with the standard deck of
    [createStandardDeck()] by two players, as [WarGame] and [GoFishGame]
    set them up. *)

Definition alice : Player.t := Player.new "p1" "Alice".
Definition bob : Player.t := Player.new "p2" "Bob".

(** [new WarGame(); game.addPlayer(alice); game.addPlayer(bob)] (the same
    for [GoFishGame]). *)
Definition newGame : BaseGame.t :=
  BaseGame.addPlayer bob (BaseGame.addPlayer alice (BaseGame.new CardUtils.standardCards)).

(** The oracle under which [shuffle] moves no card: [j = i] at every step. *)
Definition keepOrder (n : nat) : list nat := reverse (seq 1 (n - 1)).

(** An oracle for [shuffle] on 52 cards that picks [j = i] except at
    [i = 39], [26] and [13], where it picks [14], [4] and [2]. *)
Definition stackedOracle : list nat :=
  (λ i, if i =? 39 then 14 else if i =? 26 then 4 else if i =? 13 then 2 else i)
  <$> reverse (seq 1 51).

Definition play : Move := MoveString "play".

(** War after [start()] with the unshuffled deck: every comparison ties. *)
Definition warStarted : BaseGame.t :=
  (BaseGame.start WarRules.rules (keepOrder 52) newGame).2.

(** ... and after the first move of the first player. *)
Definition warAfterOneMove : BaseGame.t :=
  (BaseGame.playMove WarRules.rules "p1" play warStarted).2.

(** Go Fish after [start()] with the stacked shuffle: the first player
    holds the 2 of Hearts, Diamonds and Clubs, the second player holds no 2,
    and the 2 of Spades is on top of the deck. *)
Definition goFishStarted : BaseGame.t :=
  (BaseGame.start GoFishRules.rules stackedOracle newGame).2.

(** A War position with one card of rank 7 in each hand. *)
Definition tieWorld : World :=
  mkWorld
    (GameState.mk [] []
       [Player.mk "p1" "Alice" [0] 1; Player.mk "p2" "Bob" [1] 1] "p1" 1
       [("cardsInPlay", VCards []); ("warMode", VBool false); ("roundWinner", VNull)])
    [Card.mk "7-Hearts" "7 of Hearts" false; Card.mk "7-Spades" "7 of Spades" false].

(** A War position in which the top cards tie and four cards remain in each
    hand after the reveal. *)
Definition warTieWorld : World :=
  mkWorld
    (GameState.mk [] []
       [Player.mk "p1" "Alice" [0; 1; 2; 3; 4] 5; Player.mk "p2" "Bob" [5; 6; 7; 8; 9] 5]
       "p1" 1
       [("cardsInPlay", VCards []); ("warMode", VBool false); ("roundWinner", VNull)])
    ((λ i, Card.mk i i false) <$>
       ["7-Hearts"; "2-Hearts"; "3-Hearts"; "4-Hearts"; "5-Hearts";
        "7-Spades"; "2-Spades"; "3-Spades"; "4-Spades"; "5-Spades"]).

(** A run of engine calls on the example game of War: a move, a move by the
    player whose turn it is not, an undo and a restart. *)
Definition someCalls : list Call :=
  [PlayMove "p1" play; PlayMove "p1" play; Undo; Restart].

(** A longer run on the same game: a move, a move out of turn, the move of
    the second player, an undo, and a move of the first player, whose turn it
    is again. *)
Definition mixedCalls : list Call :=
  [PlayMove "p1" play; PlayMove "p1" play; PlayMove "p2" play; Undo; PlayMove "p1" play].

(** The example game of War played to its end: with the unshuffled deck the
    players alternate for eight moves, after which the second player holds
    all 52 cards. *)
Definition warToTheEnd : list Call :=
  [PlayMove "p1" play; PlayMove "p2" play; PlayMove "p1" play; PlayMove "p2" play;
   PlayMove "p1" play; PlayMove "p2" play; PlayMove "p1" play; PlayMove "p2" play].

(** The worlds of the example games after [initializeGame], and Go Fish
    after the first player then asks the second for 2s. *)
Definition newWorld : World := BaseGame.world newGame.
Definition warDealt : World := (WarRules.initializeGame (keepOrder 52) newWorld).2.
Definition goFishDealt : World := (GoFishRules.initializeGame stackedOracle newWorld).2.
Definition goFishAfterBook : World :=
  (GoFishRules.applyMove 0 (MoveAsk "p2" "2") goFishDealt).2.

(** A Go Fish position with an empty deck in which the first player holds
    a 7 and the second a 7 and a 9: the first player may ask the second for
    7s. *)
Definition askWorld : World :=
  mkWorld
    (GameState.mk [] []
       [Player.mk "p1" "Alice" [0] 0; Player.mk "p2" "Bob" [1; 2] 0] "p1" 1
       [("books", VBooks []); ("lastAction", VNull); ("gameOver", VBool false)])
    [Card.mk "7-Hearts" "7 of Hearts" false; Card.mk "7-Spades" "7 of Spades" false;
     Card.mk "9-Clubs" "9 of Clubs" false].

(** A game of War that the first player has won: the second player holds
    no card. *)
Definition wonGame : BaseGame.t :=
  BaseGame.mk
    (GameState.mk [] []
       [Player.mk "p1" "Alice" [0; 1] 2; Player.mk "p2" "Bob" [] 0] "p1" 1
       [("cardsInPlay", VCards []); ("warMode", VBool false); ("roundWinner", VStr "p1")])
    [] []
    [Card.mk "7-Hearts" "7 of Hearts" true; Card.mk "5-Spades" "5 of Spades" true]
    [].

(** Two players and five cards to deal. *)
Definition dealWorld : World :=
  mkWorld (GameState.mk [0; 1; 2; 3; 4] [] [alice; bob] EmptyString 1 [])
    ((λ i, Card.mk i i false) <$>
       ["2-Hearts"; "3-Hearts"; "4-Hearts"; "5-Hearts"; "6-Hearts"]).

(** * Properties *)

(** ** Objects and the card heap *)

Example js_key_order :
  JsObject.keys (JsObject.set "2" 0 (JsObject.set "K" 1 (JsObject.set "10" 2
    (JsObject.set "J" 3 (JsObject.set "10" 4 [])))))
  = ["2"; "10"; "J"; "K"].
Proof. reflexivity. Qed.

Lemma get_add_eq {V} k (v : V) o :
  JsObject.get k o = None → JsObject.get k (JsObject.add k v o) = Some v.
Proof.
  induction o as [|[k' v'] o IH]; simpl.
  - by rewrite String.eqb_refl.
  - destruct (String.eqb k k') eqn:E; [done|]. intros Hn.
    destruct (JsObject.before k k'); simpl.
    + by rewrite String.eqb_refl.
    + rewrite E. auto.
Qed.

Lemma get_add_ne {V} k k' (v : V) o :
  k ≠ k' → JsObject.get k' (JsObject.add k v o) = JsObject.get k' o.
Proof.
  intros Hne. induction o as [|[k2 v2] o IH]; simpl.
  - by apply String.eqb_neq in Hne; rewrite String.eqb_sym, Hne.
  - destruct (JsObject.before k k2); simpl.
    + assert (String.eqb k' k = false) as -> by (apply String.eqb_neq; congruence). done.
    + destruct (String.eqb k' k2); auto.
Qed.

Lemma get_replace_eq {V} k (v : V) o :
  is_Some (JsObject.get k o) → JsObject.get k (JsObject.replace k v o) = Some v.
Proof.
  induction o as [|[k' v'] o IH]; simpl; [by intros [? ?]|].
  destruct (String.eqb k k') eqn:E; simpl; rewrite E; auto.
Qed.

Lemma get_replace_ne {V} k k' (v : V) o :
  k ≠ k' → JsObject.get k' (JsObject.replace k v o) = JsObject.get k' o.
Proof.
  intros Hne. induction o as [|[k2 v2] o IH]; simpl; [done|].
  destruct (String.eqb k k2) eqn:E; simpl.
  - apply String.eqb_eq in E as <-.
    by assert (String.eqb k' k = false) as -> by (apply String.eqb_neq; congruence).
  - destruct (String.eqb k' k2); auto.
Qed.

Lemma get_set_eq {V} k (v : V) o : JsObject.get k (JsObject.set k v o) = Some v.
Proof.
  unfold JsObject.set. destruct (JsObject.get k o) eqn:E.
  - apply get_replace_eq. by rewrite E.
  - by apply get_add_eq.
Qed.

Lemma get_set_ne {V} k k' (v : V) o :
  k ≠ k' → JsObject.get k' (JsObject.set k v o) = JsObject.get k' o.
Proof.
  intros. unfold JsObject.set.
  destruct (JsObject.get k o); auto using get_replace_ne, get_add_ne.
Qed.

Lemma heap_id_setFaceUp r b h r' : Heap.id (Heap.setFaceUp r b h) r' = Heap.id h r'.
Proof.
  unfold Heap.id, Heap.setFaceUp. destruct (h !! r) as [c|] eqn:E; [|done].
  destruct (decide (r = r')) as [->|Hne].
  - rewrite list_lookup_insert_eq by (by eapply lookup_lt_Some). by rewrite E.
  - by rewrite list_lookup_insert_ne.
Qed.

Lemma heap_ids_setFaceUp r b h (l : list nat) :
  Heap.id (Heap.setFaceUp r b h) <$> l = Heap.id h <$> l.
Proof. apply list_fmap_ext. intros. apply heap_id_setFaceUp. Qed.

(** Cards taken out of a collection with distinct ids are not among the
    cards that are kept. *)
Lemma nodup_disjoint {A B} (f g : A → B) (taken kept all : list A) (ids : list B) :
  NoDup (f <$> all) → taken ++ kept ≡ₚ all → (∀ c, g c = f c) →
  ids ≡ₚ f <$> kept →
  Forall (λ c, g c ∉ ids) taken.
Proof.
  intros Hnd Hperm Hg Hids. rewrite <-Hperm, fmap_app in Hnd.
  apply NoDup_app in Hnd as (_ & Hdisj & _).
  apply Forall_forall. intros c Hc. rewrite Hg, Hids.
  by apply Hdisj, list_elem_of_fmap_2.
Qed.

Lemma length_setFaceUp r b h : length (Heap.setFaceUp r b h) = length h.
Proof. unfold Heap.setFaceUp. destruct (h !! r); [apply length_insert|done]. Qed.

(** ** Rejected moves *)

Section Engine.
Variable rules : IGameRules.

(** A call of [playMove] that fails one of its three checks returns
    [false] and changes nothing but the output. *)
Lemma playMove_rejected g playerId move :
  GameState.getPlayerById playerId (BaseGame.gameState g) = None
  ∨ playerId ≠ getCurrentPlayerId rules (BaseGame.world g)
  ∨ (∃ player,
       GameState.getPlayerById playerId (BaseGame.gameState g) = Some player
       ∧ validateMove rules player move (BaseGame.world g) = Returned false) →
  ∃ out,
    BaseGame.playMove rules playerId move g
    = (Returned false,
       BaseGame.mk (BaseGame.gameState g) (BaseGame.history g)
         (BaseGame.moveHistory g) (BaseGame.store g) out).
Proof.
  intros H. unfold BaseGame.playMove, bind, gets, BaseGame.emit, modify, ret, liftO.
  destruct (GameState.getPlayerById playerId (BaseGame.gameState g)) as [player|] eqn:Hp;
    [|by eexists].
  destruct (String.eqb playerId (getCurrentPlayerId rules (BaseGame.world g))) eqn:Hc;
    simpl; [|by eexists].
  apply String.eqb_eq in Hc.
  destruct H as [H|[H|(p & Hp' & Hv)]]; [done..|].
  simplify_eq. rewrite Hv. simpl. by eexists.
Qed.
End Engine.

(** C4. Under War or Go Fish rules, a call of [playMove] whose player id is
    not among the players, or is not the id of the current player, or whose
    move the rules do not validate, returns [false] and leaves the live
    state, the history, the move log and the card objects as they were. *)
Theorem rejected_move_is_atomic rules g playerId move :
  rules = WarRules.rules ∨ rules = GoFishRules.rules →
  GameState.getPlayerById playerId (BaseGame.gameState g) = None
  ∨ playerId ≠ getCurrentPlayerId rules (BaseGame.world g)
  ∨ (∃ player,
       GameState.getPlayerById playerId (BaseGame.gameState g) = Some player
       ∧ validateMove rules player move (BaseGame.world g) = Returned false) →
  let r := BaseGame.playMove rules playerId move g in
  r.1 = Returned false
  ∧ BaseGame.gameState r.2 = BaseGame.gameState g
  ∧ BaseGame.history r.2 = BaseGame.history g
  ∧ BaseGame.moveHistory r.2 = BaseGame.moveHistory g
  ∧ BaseGame.store r.2 = BaseGame.store g.
Proof.
  intros _ H. destruct (playMove_rejected rules g playerId move H) as [out ->]. done.
Qed.

(** ** War: resolving a tie *)

Section War.

#[local] Arguments WarRules.getCardRank : simpl never.
#[local] Arguments Nat.ltb : simpl never.
#[local] Arguments Heap.id : simpl never.
#[local] Arguments Heap.setFaceUp : simpl never.
#[local] Arguments JsObject.set : simpl never.
#[local] Arguments JsObject.get : simpl never.
#[local] Arguments String.eqb : simpl never.
#[local] Arguments WarRules.cardsInPlayArray : simpl never.

Lemma getCardRank_setFaceUp r b h c :
  WarRules.getCardRank (Heap.setFaceUp r b h) c = WarRules.getCardRank h c.
Proof. unfold WarRules.getCardRank. by rewrite heap_id_setFaceUp. Qed.

Lemma two_players (ps : list Player.t) i j p o :
  length ps = 2 → i ≠ j → ps !! i = Some p → ps !! j = Some o →
  (i = 0 ∧ j = 1 ∧ ps = [p; o]) ∨ (i = 1 ∧ j = 0 ∧ ps = [o; p]).
Proof.
  intros Hl Hne Hi Hj.
  destruct ps as [|a [|b [|]]]; simplify_eq/=.
  destruct i as [|[|]], j as [|[|]]; simplify_eq/=; auto.
Qed.

(** One round of symbolic execution of rules code on a two-player world. *)
Ltac war_step :=
  cbv beta delta [bind]; cbn;
  rewrite ?String.eqb_refl, ?heap_id_setFaceUp, ?getCardRank_setFaceUp,
    ?Nat.ltb_irrefl, ?get_set_eq;
  repeat match goal with
    | H : String.eqb _ _ = _ |- _ => rewrite H
    | H : WarRules.cardsInPlayArray _ = _ |- _ => rewrite H
    | H : WarRules.getCardRank _ _ = _ |- _ => rewrite H
    | H : Nat.ltb _ _ = _ |- _ => rewrite H
    | H : orb _ _ = _ |- _ => rewrite H
    end.

Ltac war_run := repeat (progress war_step).

(** Reads of [customState] after a chain of writes. *)
Ltac custom_reads :=
  unfold GameState.customValue; cbn;
  repeat (rewrite get_set_eq || rewrite get_set_ne by discriminate).

Ltac war_finish :=
  unfold Player.setScore, Player.setHand, Hand.addCards, Hand.size;
  repeat (progress (cbn; rewrite ?String.eqb_refl, ?heap_id_setFaceUp));
  custom_reads.

(** Puts a two-player world in explicit form, for both seatings. *)
Ltac war_setup w Hl Hne Hp Ho Hid :=
  let s := fresh "s" in let h := fresh "h" in
  destruct w as [s h]; simpl in *;
  let Hid' := fresh "Hid'" in
  pose proof Hid as Hid';
  apply String.eqb_neq in Hid; apply not_eq_sym, String.eqb_neq in Hid';
  destruct (two_players _ _ _ _ _ Hl Hne Hp Ho) as [(-> & -> & Hps)|(-> & -> & Hps)];
  match goal with
  | p : Player.t, o : Player.t |- _ =>
      destruct p, o, s; simpl in *; subst
  end.

(** C10. In a tie where, after the two cards are revealed, both hands have
    the same size and that size is below four, the contested pile (the cards
    already in play and the two revealed cards) goes to the opponent of the
    acting player, who is recorded as the round winner; the acting player
    receives nothing.  The cards have plain ranks, so that [getCardRank] is
    the number that the code compares. *)
Theorem war_tie_equal_hands_goes_to_opponent (w : World) player otherPlayer p o
    pc ph oc oh before :
  plainRanks (cards w) →
  length (GameState.players (state w)) = 2 →
  player ≠ otherPlayer →
  GameState.players (state w) !! player = Some p →
  GameState.players (state w) !! otherPlayer = Some o →
  Player.id p ≠ Player.id o →
  Player.hand p = pc :: ph →
  Player.hand o = oc :: oh →
  WarRules.cardsInPlayArray (state w) = Some before →
  WarRules.getCardRank (cards w) pc = WarRules.getCardRank (cards w) oc →
  length ph = length oh →
  length ph < 4 →
  ∃ w',
    WarRules.applyMove player (MoveString "play") w = (Returned tt, w')
    ∧ GameState.players (state w') !! otherPlayer
      = Some (Player.mk (Player.id o) (Player.name o) (oh ++ before ++ [pc; oc])
                (Z.of_nat (length (oh ++ before ++ [pc; oc]))))
    ∧ GameState.players (state w') !! player
      = Some (Player.mk (Player.id p) (Player.name p) ph (Z.of_nat (length ph)))
    ∧ GameState.customValue "roundWinner" (state w') = Some (VStr (Player.id o))
    ∧ GameState.customValue "cardsInPlay" (state w') = Some (VCards []).
Proof.
  intros _ Hl Hne Hp Ho Hid Hph Hoh Hb Hr Hlen Hlt.
  assert (Hlt1 : (length ph <? 4) = true) by (by apply Nat.ltb_lt).
  assert (Hlt2 : (length oh <? length ph) = false) by (apply Nat.ltb_ge; lia).
  war_setup w Hl Hne Hp Ho Hid; unfold WarRules.applyMove; war_run;
    (eexists; split; [reflexivity|]); war_finish; by rewrite <-?(assoc_L (++)).
Qed.

(** C7 (amended). In a tie in which each player still holds at least four
    cards after the reveal, [applyMove] leaves [warMode] true and puts eight
    more cards on the pile of cards in play: the two revealed cards and the
    next three of each player, which leave the hands (when the ids of the two
    hands are distinct, none of the eight is in a hand afterwards).  The pile
    therefore holds the cards that were in play before the move plus eight,
    exactly eight when none was in play.  In a tie in which a player holds
    fewer than four cards after the reveal, the player holding strictly more
    cards receives the whole pile.  The cards have plain ranks, so that
    [getCardRank] is the number that the code compares. *)
Theorem war_tie_outcome (w : World) player otherPlayer p o pc ph oc oh before :
  plainRanks (cards w) →
  length (GameState.players (state w)) = 2 →
  player ≠ otherPlayer →
  GameState.players (state w) !! player = Some p →
  GameState.players (state w) !! otherPlayer = Some o →
  Player.id p ≠ Player.id o →
  Player.hand p = pc :: ph →
  Player.hand o = oc :: oh →
  WarRules.cardsInPlayArray (state w) = Some before →
  WarRules.getCardRank (cards w) pc = WarRules.getCardRank (cards w) oc →
  ∃ w',
    WarRules.applyMove player (MoveString "play") w = (Returned tt, w')
    ∧ (4 ≤ length ph → 4 ≤ length oh →
       ∃ p1 p2 p3 o1 o2 o3,
         let committed := [pc; oc; p1; o1; p2; o2; p3; o3] in
         take 3 ph = [p1; p2; p3] ∧ take 3 oh = [o1; o2; o3]
         ∧ GameState.customValue "warMode" (state w') = Some (VBool true)
         ∧ GameState.customValue "cardsInPlay" (state w')
           = Some (VCards (before ++ committed))
         ∧ length (before ++ committed) = length before + 8
         ∧ Player.hand <$> GameState.players (state w') !! player = Some (drop 3 ph)
         ∧ Player.hand <$> GameState.players (state w') !! otherPlayer = Some (drop 3 oh)
         ∧ (NoDup (Heap.id (cards w) <$> (pc :: ph) ++ (oc :: oh)) →
            Forall (λ c, Heap.id (cards w') c
                         ∉ Heap.id (cards w') <$> handRefs (GameState.players (state w')))
              committed))
    ∧ ((length ph < 4 ∨ length oh < 4) → length oh < length ph →
       Player.hand <$> GameState.players (state w') !! player
       = Some (ph ++ before ++ [pc; oc])
       ∧ Player.hand <$> GameState.players (state w') !! otherPlayer = Some oh
       ∧ GameState.customValue "roundWinner" (state w') = Some (VStr (Player.id p)))
    ∧ ((length ph < 4 ∨ length oh < 4) → length ph < length oh →
       Player.hand <$> GameState.players (state w') !! otherPlayer
       = Some (oh ++ before ++ [pc; oc])
       ∧ Player.hand <$> GameState.players (state w') !! player = Some ph
       ∧ GameState.customValue "roundWinner" (state w') = Some (VStr (Player.id o))).
Proof.
  intros _ Hl Hne Hp Ho Hid Hph Hoh Hb Hr.
  destruct (decide (length ph < 4 ∨ length oh < 4)) as [Hshort|Hlong].
  - (* too few cards for a war *)
    assert (Hlt1 : (length ph <? 4) || (length oh <? 4) = true).
    { apply orb_true_iff. rewrite !Nat.ltb_lt. done. }
    destruct (length oh <? length ph) eqn:Hcmp;
      [apply Nat.ltb_lt in Hcmp as Hcmp'|apply Nat.ltb_ge in Hcmp as Hcmp'];
      war_setup w Hl Hne Hp Ho Hid; unfold WarRules.applyMove; war_run;
      (eexists; split; [reflexivity|]); war_finish;
      (split; [intros; lia|]); rewrite <-?(assoc_L (++));
      (split; intros; [done || lia|done || lia]).
  - (* a war *)
    destruct ph as [|p1 [|p2 [|p3 [|p4 ph]]]]; try (exfalso; apply Hlong; simpl; lia).
    destruct oh as [|o1 [|o2 [|o3 [|o4 oh]]]]; try (exfalso; apply Hlong; simpl; lia).
    assert (Hlt1 : (S (S (S (S (length ph)))) <? 4) = false) by (apply Nat.ltb_ge; lia).
    assert (Hlt2 : (S (S (S (S (length oh)))) <? 4) = false) by (apply Nat.ltb_ge; lia).
    war_setup w Hl Hne Hp Ho Hid; unfold WarRules.applyMove; war_run;
      (eexists; split; [reflexivity|]); war_finish;
      (split; [|split; intros; exfalso; apply Hlong; simpl; lia]);
      intros _ _; exists p1, p2, p3, o1, o2, o3; cbn;
      rewrite <-?(assoc_L (++)); cbn;
      (repeat split; [rewrite length_app; simpl; lia|]);
      rewrite ?app_nil_r; intros Hnd;
      apply (nodup_disjoint (Heap.id h) _ _ ((p4 :: ph) ++ (o4 :: oh))
               ((pc :: p1 :: p2 :: p3 :: p4 :: ph) ++ (oc :: o1 :: o2 :: o3 :: o4 :: oh)) _ Hnd);
      first [ by intros c; rewrite !heap_id_setFaceUp
            | solve_Permutation
            | rewrite ?heap_ids_setFaceUp, !fmap_app, !fmap_cons; solve_Permutation ].
Qed.

End War.

Example warStarted_hands :
  (Hand.size ∘ Player.hand) <$> GameState.players (BaseGame.gameState warStarted) = [26; 26]
  ∧ BaseGame.moveHistory warStarted = []
  ∧ length (BaseGame.history warStarted) = 1.
Proof. vm_compute. done. Qed.

(** C7, as stated, fails when cards are already in play.  After the first
    tie of the example game eight cards are in play; the top cards of the two
    players (both of rank 6) tie again, each player holds 21 cards after the
    reveal, and the move of the second player leaves sixteen cards in play. *)
Lemma war_second_tie_leaves_sixteen_in_play :
  let w := BaseGame.world warAfterOneMove in
  let rankOfTop i :=
    p ← GameState.players (state w) !! i;
    c ← Player.hand p !! 0;
    Some (WarRules.getCardRank (cards w) c) in
  let inPlay s :=
    match GameState.customValue "cardsInPlay" s with
    | Some (VCards cs) => Some (length cs)
    | _ => None
    end in
  GameState.currentPlayerId (state w) = "p2"
  ∧ rankOfTop 0 = Some 6 ∧ rankOfTop 1 = Some 6
  ∧ (Hand.size ∘ Player.hand) <$> GameState.players (state w) = [22; 22]
  ∧ inPlay (state w) = Some 8
  ∧ (WarRules.applyMove 1 play w).1 = Returned tt
  ∧ GameState.customValue "warMode" (state (WarRules.applyMove 1 play w).2)
    = Some (VBool true)
  ∧ inPlay (state (WarRules.applyMove 1 play w).2) = Some 16.
Proof. vm_compute. done. Qed.

(** ** Objects: entries after a write *)

Lemma get_None_keys {V} k (o : JsObject V) : JsObject.get k o = None ↔ k ∉ JsObject.keys o.
Proof.
  unfold JsObject.keys. induction o as [|[k' v'] o IH]; simpl.
  - split; [intros _; apply not_elem_of_nil|done].
  - rewrite not_elem_of_cons. destruct (String.eqb k k') eqn:E.
    + apply String.eqb_eq in E. split; [done|]. intros [? _]. done.
    + apply String.eqb_neq in E. rewrite IH. tauto.
Qed.

Lemma add_perm {V} k (v : V) o : JsObject.add k v o ≡ₚ (k, v) :: o.
Proof.
  induction o as [|[k' v'] o IH]; simpl; [done|].
  destruct (JsObject.before k k'); [done|]. rewrite IH. apply Permutation_swap.
Qed.

Lemma replace_split {V} k (v old : V) o :
  JsObject.get k o = Some old →
  ∃ l1 l2, o = l1 ++ ((k, old) :: l2) ∧ (k ∉ JsObject.keys l1)
           ∧ JsObject.replace k v o = l1 ++ ((k, v) :: l2).
Proof.
  induction o as [|[k' v'] o IH]; simpl; [done|].
  destruct (String.eqb k k') eqn:E.
  - apply String.eqb_eq in E as <-. intros [= ->]. exists [], o.
    split_and!; [done|apply not_elem_of_nil|done].
  - intros Hg. destruct (IH Hg) as (l1 & l2 & -> & Hk & ->).
    exists ((k', v') :: l1), l2. split_and!; [done| |done].
    unfold JsObject.keys. rewrite fmap_cons. apply not_elem_of_cons.
    split; [by apply String.eqb_neq|done].
Qed.

Lemma filter_all {A} (P : A → Prop) `{!∀ x, Decision (P x)} (l : list A) :
  Forall P l → filter P l = l.
Proof.
  induction 1 as [|x l Hx _ IH]; [done|]. by rewrite filter_cons_True, IH.
Qed.

Lemma filter_none {A} (P : A → Prop) `{!∀ x, Decision (P x)} (l : list A) :
  Forall (λ x, ¬ P x) l → filter P l = [].
Proof.
  induction 1 as [|x l Hx _ IH]; [done|]. by rewrite filter_cons_False, IH.
Qed.

Lemma other_keys {V} k (l : list (string * V)) :
  k ∉ JsObject.keys l → Forall (λ kv, kv.1 ≠ k) l.
Proof.
  intros Hk. apply Forall_forall. intros [k' v'] Hin Heq. simpl in Heq. subst k'.
  apply Hk. by apply (list_elem_of_fmap_2 fst) in Hin.
Qed.

(** The entries of an object after [o[k] = v]: the entry written, and the
    entries under the other keys. *)
Lemma set_perm {V} k (v : V) o :
  NoDup (JsObject.keys o) →
  JsObject.set k v o ≡ₚ (k, v) :: filter (λ kv, kv.1 ≠ k) o.
Proof.
  intros Hnd. unfold JsObject.set. destruct (JsObject.get k o) as [old|] eqn:E.
  - destruct (replace_split k v old o E) as (l1 & l2 & -> & Hk & ->).
    unfold JsObject.keys in Hnd. rewrite fmap_app, fmap_cons in Hnd.
    apply NoDup_app in Hnd as (_ & _ & Hnd2). apply NoDup_cons in Hnd2 as [Hk2 _].
    rewrite filter_app, filter_cons_False by (simpl; auto).
    rewrite !filter_all by (by apply other_keys).
    by rewrite Permutation_middle.
  - rewrite add_perm. f_equiv.
    rewrite filter_all; [done|]. by apply other_keys, get_None_keys.
Qed.

Lemma set_keys_NoDup {V} k (v : V) o :
  NoDup (JsObject.keys o) → NoDup (JsObject.keys (JsObject.set k v o)).
Proof.
  intros Hnd. unfold JsObject.keys. rewrite (set_perm k v o Hnd), fmap_cons.
  apply NoDup_cons. split.
  - simpl. intros ([k' v'] & Heq & Hin)%list_elem_of_fmap. simpl in Heq. subst k'.
    by apply list_elem_of_filter in Hin as [? _].
  - eapply sublist_NoDup; [exact Hnd|apply fmap_sublist, sublist_filter].
Qed.

Lemma elem_of_set {V} k (v : V) o k' v' :
  NoDup (JsObject.keys o) →
  (k', v') ∈ JsObject.set k v o ↔ (k' = k ∧ v' = v) ∨ (k' ≠ k ∧ (k', v') ∈ o).
Proof.
  intros Hnd. rewrite (set_perm k v o Hnd), elem_of_cons, list_elem_of_filter.
  simpl. intuition congruence.
Qed.

Lemma elem_of_get {V} k (v : V) o :
  NoDup (JsObject.keys o) → (k, v) ∈ o ↔ JsObject.get k o = Some v.
Proof.
  unfold JsObject.keys. induction o as [|[k' v'] o IH]; simpl.
  - intros _. split; [by intros ?%elem_of_nil|done].
  - rewrite NoDup_cons, elem_of_cons. intros [Hk Hnd].
    destruct (String.eqb k k') eqn:E.
    + apply String.eqb_eq in E as ->. split; [|intros [= ->]; by left].
      intros [?|Hin]; [congruence|]. destruct Hk.
      by apply (list_elem_of_fmap_2 fst) in Hin.
    + apply String.eqb_neq in E. rewrite <-IH by done. intuition congruence.
Qed.

(** ** Grouping a hand by rank *)

Section Groups.
Variable h : list Card.t.
Abbreviation rankOf := (GoFishRules.getCardRank h) (only parsing).

Lemma groupInto_grouped done cards o :
  grouped h done o → grouped h (done ++ cards) (CardUtils.groupInto h cards o).
Proof.
  revert done o. induction cards as [|c cards IH]; intros done o [Hnd Hget]; simpl.
  - by rewrite app_nil_r.
  - rewrite (assoc_L (++) done [c] cards : done ++ c :: cards = (done ++ [c]) ++ cards).
    apply IH. split; [by apply set_keys_NoDup|].
    intros r. rewrite filter_app, filter_cons, filter_nil.
    change (split_head (Heap.id h c)) with (rankOf c). destruct (decide (rankOf c = r)) as [<-|Hne].
    + rewrite get_set_eq, Hget.
      destruct (decide (filter _ done = [])) as [->|_]; simpl; [done|].
      by rewrite decide_False by (by intros [_ ?]%app_eq_nil).
    + rewrite get_set_ne, Hget, app_nil_r by done. done.
Qed.

Lemma groupCardsByRank_grouped cards :
  grouped h cards (CardUtils.groupCardsByRank h cards).
Proof.
  apply (groupInto_grouped [] cards []). split; [constructor|].
  intros r. by rewrite filter_nil, decide_True.
Qed.

Lemma group_sound cards r g :
  (r, g) ∈ CardUtils.groupCardsByRank h cards →
  g = filter (λ c, rankOf c = r) cards ∧ g ≠ [].
Proof.
  destruct (groupCardsByRank_grouped cards) as [Hnd Hget].
  rewrite elem_of_get, Hget by done. destruct (decide _); naive_solver.
Qed.

Lemma group_complete cards c :
  c ∈ cards →
  (rankOf c, filter (λ c', rankOf c' = rankOf c) cards)
  ∈ CardUtils.groupCardsByRank h cards.
Proof.
  intros Hc. destruct (groupCardsByRank_grouped cards) as [Hnd Hget].
  rewrite elem_of_get, Hget by done.
  rewrite decide_False; [done|]. intros Hnil.
  by apply (filter_nil_not_elem_of _ _ c Hnil).
Qed.
End Groups.

(** ** Go Fish: collecting books *)

Lemma alter_lookup {A} (f : A → A) i (l : list A) x :
  l !! i = Some x → alter f i l = <[i := f x]> l.
Proof.
  revert i. induction l as [|y l IH]; intros [|i] ?; simplify_eq/=; [done|].
  f_equal. by apply IH.
Qed.

Lemma ranks_after_push k (mine : list string) rank books :
  JsObject.get k books = Some mine →
  mjoin (JsObject.values (JsObject.set k (mine ++ [rank]) books))
  ≡ₚ mjoin (JsObject.values books) ++ [rank].
Proof.
  intros Hget. unfold JsObject.set. rewrite Hget.
  destruct (replace_split k (mine ++ [rank]) mine books Hget) as (l1 & l2 & -> & _ & ->).
  unfold JsObject.values. rewrite !fmap_app, !fmap_cons, !join_app. simpl.
  solve_Permutation.
Qed.

Lemma ranks_after_init k books :
  JsObject.get k books = None →
  mjoin (JsObject.values (JsObject.set k ([] : list string) books))
  ≡ₚ mjoin (JsObject.values books).
Proof.
  intros Hget. unfold JsObject.set, JsObject.values. rewrite Hget.
  rewrite (add_perm k [] books), fmap_cons. done.
Qed.

Lemma handRefs_insert ps i p p' :
  ps !! i = Some p →
  handRefs (<[i := p']> ps) ++ Player.hand p ≡ₚ handRefs ps ++ Player.hand p'.
Proof.
  unfold handRefs. revert i. induction ps as [|q ps IH]; intros [|i] Hi; simplify_eq/=.
  - solve_Permutation.
  - rewrite <-!(assoc_L (++)), (IH i Hi). done.
Qed.

Section Books.
Variable player : nat.


Lemma collectBooks_run playerId entries books dk dp ps cur rd cu h pl :
  ps !! player = Some pl →
  is_Some (JsObject.get playerId books) →
  ∃ sc books',
    GoFishRules.collectBooks player playerId entries books
      (mkWorld (GameState.mk dk dp ps cur rd cu) h)
    = (Returned books',
       mkWorld (GameState.mk dk dp
                  (<[player := Player.mk (Player.id pl) (Player.name pl)
                       (filter (λ c, Heap.id h c ∉ completedIds h entries) (Player.hand pl))
                       sc]> ps) cur rd cu) h)
    ∧ is_Some (JsObject.get playerId books')
    ∧ mjoin (JsObject.values books')
      ≡ₚ mjoin (JsObject.values books) ++ (completed entries).*1.
Proof.
  revert books ps pl. induction entries as [|[rank group] entries IH];
    intros books ps pl Hpl Hbooks; cbn [GoFishRules.collectBooks].
  - exists (Player.score pl), books. split_and!; [|done|].
    + unfold ret. do 3 f_equal. rewrite filter_all; [|by apply Forall_forall; intros; apply not_elem_of_nil].
      destruct pl. by rewrite list_insert_id.
    + cbn. by rewrite app_nil_r.
  - destruct (length group =? 4) eqn:E.
    + apply Nat.eqb_eq in E.
      unfold bind at 1 2 3, W.getHeap, gets, W.updatePlayer, W.modifyState, modify. cbn.
      rewrite (alter_lookup _ _ _ _ Hpl). 
      rewrite (alter_lookup _ _ _ (Player.setHand _ pl)) by
        (apply list_lookup_insert_eq; by eapply lookup_lt_Some).
      rewrite list_insert_insert_eq.
      destruct Hbooks as [mine Hmine]. rewrite Hmine.
      unfold GameState.setPlayers, Player.setScore, Player.setHand, Hand.removeCards.
      cbn [fst snd GameState.deck GameState.discardPile GameState.players
           GameState.currentPlayerId GameState.round GameState.customState
           Player.id Player.name Player.hand Player.score default from_option id].
      set (pl1 := Player.mk (Player.id pl) (Player.name pl)
                    (filter (λ c, Heap.id h c ∉ Heap.id h <$> group) (Player.hand pl))
                    (Z.of_nat (length (mine ++ [rank])))).
      destruct (IH (JsObject.set playerId (mine ++ [rank]) books)
                   (<[player := pl1]> ps) pl1)
        as (sc & books' & -> & Hsome & Hranks).
      { apply list_lookup_insert_eq. by eapply lookup_lt_Some. }
      { by rewrite get_set_eq. }
      exists sc, books'. split_and!; [|done|].
      * do 3 f_equal. rewrite list_insert_insert_eq. do 2 f_equal. simpl.
        rewrite list_filter_filter. apply list_filter_iff. intros c.
        unfold completedIds, completed. rewrite decide_True by done.
        simpl. rewrite not_elem_of_app. tauto.
      * rewrite Hranks, (ranks_after_push _ _ _ _ Hmine).
        unfold completed. rewrite decide_True by done.
        rewrite fmap_cons. simpl. solve_Permutation.
    + apply Nat.eqb_neq in E.
      destruct (IH books ps pl Hpl Hbooks) as (sc & books' & -> & Hsome & Hranks).
      exists sc, books'. split_and!; [|done|].
      * do 3 f_equal. unfold completedIds, completed. by rewrite filter_cons_False.
      * rewrite Hranks. unfold completed. by rewrite filter_cons_False.
Qed.

#[local] Arguments Heap.id : simpl never.
#[local] Arguments Heap.name : simpl never.
#[local] Arguments JsObject.set : simpl never.
#[local] Arguments JsObject.get : simpl never.
#[local] Arguments String.eqb : simpl never.
#[local] Arguments String.append : simpl never.
#[local] Arguments pretty : simpl never.
#[local] Arguments filter : simpl never.
#[local] Arguments list_filter : simpl never.
#[local] Arguments CardUtils.groupCardsByRank : simpl never.
#[local] Arguments GoFishRules.getCardRank : simpl never.
#[local] Arguments GoFishRules.collectBooks : simpl never.
#[local] Arguments GoFishRules.checkForBooks : simpl never.
#[local] Arguments GoFishRules.booksObject : simpl never.
#[local] Arguments GoFishRules.isGameOver : simpl never.
#[local] Arguments GameState.getPlayerById : simpl never.
#[local] Arguments GoFishRules.takeCards : simpl never.

(** One round of symbolic execution of Go Fish code. *)
Ltac gofish_step :=
  cbv beta delta [bind Hand.getCards Deck.getCards]; cbn;
  repeat match goal with
    | H : _ !! _ = Some _ |- _ => rewrite H
    | H : GoFishRules.booksObject _ = _ |- _ => rewrite H
    | H : GameState.getPlayerById _ _ = _ |- _ => rewrite H
    | H : String.eqb _ _ = _ |- _ => rewrite H
    | H : Nat.ltb _ _ = _ |- _ => rewrite H
    | H : filter _ _ = _ |- _ => rewrite H
    end.

Ltac gofish_run := repeat (progress gofish_step).

(** Puts the world reached so far in explicit form. *)
Ltac gofish_norm :=
  unfold GameState.setCustomState, GameState.setPlayers, GameState.setDeck,
    Player.setHand, Player.setScore, Hand.addCard, Hand.addCards, Hand.removeCards;
  cbn [GameState.deck GameState.discardPile GameState.players
       GameState.currentPlayerId GameState.round GameState.customState
       Player.id Player.name Player.hand Player.score fst snd state cards];
  rewrite ?drop_0;
  repeat (erewrite alter_lookup by
            first [eassumption | apply list_lookup_insert_eq; by eapply lookup_lt_Some]);
  cbn [Player.id Player.name Player.hand Player.score].

Lemma checkForBooks_run dk dp ps cur rd cu h pl books :
  ps !! player = Some pl →
  GoFishRules.booksObject (GameState.mk dk dp ps cur rd cu) = Some books →
  let groups := CardUtils.groupCardsByRank h (Player.hand pl) in
  ∃ sc books',
    GoFishRules.checkForBooks player (mkWorld (GameState.mk dk dp ps cur rd cu) h)
    = (Returned tt,
       mkWorld (GameState.mk dk dp
                  (<[player := Player.mk (Player.id pl) (Player.name pl)
                       (filter (λ c, Heap.id h c ∉ completedIds h groups) (Player.hand pl))
                       sc]> ps) cur rd
                  (JsObject.set "books" (VBooks books') cu)) h)
    ∧ mjoin (JsObject.values books')
      ≡ₚ mjoin (JsObject.values books) ++ (completed groups).*1.
Proof.
  intros Hpl Hbooks groups.
  destruct (collectBooks_run (Player.id pl) groups
              (match JsObject.get (Player.id pl) books with
               | Some _ => books
               | None => JsObject.set (Player.id pl) [] books
               end) dk dp ps cur rd cu h pl Hpl)
    as (sc & books' & Hrun & _ & Hranks).
  { destruct (JsObject.get _ books) eqn:E; [by rewrite E|]. by rewrite get_set_eq. }
  exists sc, books'. split.
  - unfold GoFishRules.checkForBooks. gofish_run. fold groups. by rewrite Hrun.
  - rewrite Hranks.
    destruct (JsObject.get _ books) eqn:E; [done|]. by rewrite ranks_after_init.
Qed.

Lemma booksObject_set_other k v dk dp ps cur rd cu :
  k ≠ "books" →
  GoFishRules.booksObject (GameState.mk dk dp ps cur rd (JsObject.set k v cu))
  = GoFishRules.booksObject (GameState.mk dk dp ps cur rd cu).
Proof.
  intros Hk. unfold GoFishRules.booksObject, GameState.getCustomState, GameState.customValue.
  cbn. by rewrite get_set_ne.
Qed.

Lemma booksObject_players dk dp ps ps' cur rd cu dk' :
  GoFishRules.booksObject (GameState.mk dk' dp ps' cur rd cu)
  = GoFishRules.booksObject (GameState.mk dk dp ps cur rd cu).
Proof. done. Qed.

(** The go-fish branch with a card to draw. *)
Lemma applyMove_draw targetPlayerId rank target top rest dp ps cur rd cu h pl tp books :
  GameState.getPlayerById targetPlayerId (GameState.mk (top :: rest) dp ps cur rd cu)
  = Some target →
  ps !! target = Some tp →
  ps !! player = Some pl →
  filter (λ c, GoFishRules.getCardRank h c = rank) (Player.hand tp) = [] →
  GoFishRules.booksObject (GameState.mk (top :: rest) dp ps cur rd cu) = Some books →
  let hand := Player.hand pl ++ [top] in
  let groups := CardUtils.groupCardsByRank h hand in
  ∃ sc books' action over,
    GoFishRules.applyMove player (MoveAsk targetPlayerId rank)
      (mkWorld (GameState.mk (top :: rest) dp ps cur rd cu) h)
    = (Returned tt,
       mkWorld (GameState.mk rest dp
                  (<[player := Player.mk (Player.id pl) (Player.name pl)
                       (filter (λ c, Heap.id h c ∉ completedIds h groups) hand) sc]> ps)
                  cur rd
                  ((if over : bool then JsObject.set "gameOver" (VBool true) else id)
                     (JsObject.set "lastAction" (VStr action)
                        (JsObject.set "books" (VBooks books')
                           (JsObject.set "anotherTurn"
                              (VBool (String.eqb (GoFishRules.getCardRank h top) rank))
                              cu))))) h)
    ∧ mjoin (JsObject.values books')
      ≡ₚ mjoin (JsObject.values books) ++ (completed groups).*1.
Proof.
  intros Htarget Htp Hpl Hnone Hbooks hand groups.
  set (pl1 := Player.mk (Player.id pl) (Player.name pl) hand (Player.score pl)).
  destruct (checkForBooks_run rest dp (<[player := pl1]> ps) cur rd
              (JsObject.set "anotherTurn"
                 (VBool (String.eqb (GoFishRules.getCardRank h top) rank)) cu) h pl1 books)
    as (sc & books' & Hcb & Hranks).
  { apply list_lookup_insert_eq. by eapply lookup_lt_Some. }
  { by rewrite booksObject_set_other, (booksObject_players (top :: rest) _ ps). }
  rewrite list_insert_insert_eq in Hcb.
  unfold GoFishRules.applyMove, GoFishRules.goFish.
  destruct (String.eqb (GoFishRules.getCardRank h top) rank) eqn:Hrank;
    gofish_run; gofish_norm; fold hand; fold pl1; rewrite Hcb; gofish_run; gofish_norm;
    (match goal with
     | |- context [GoFishRules.isGameOver ?w] => destruct (GoFishRules.isGameOver w)
     end);
    [eexists sc, books', _, true|eexists sc, books', _, false
    |eexists sc, books', _, true|eexists sc, books', _, false];
    (split; [reflexivity|exact Hranks]).
Qed.

(** The outcome of the game-over test, whichever it is. *)
Ltac gofish_over :=
  match goal with
  | |- context [GoFishRules.isGameOver ?w] => destruct (GoFishRules.isGameOver w)
  end.

(** The go-fish branch with an empty deck. *)
Lemma applyMove_no_card targetPlayerId rank target dp ps cur rd cu h pl tp :
  GameState.getPlayerById targetPlayerId (GameState.mk [] dp ps cur rd cu) = Some target →
  ps !! target = Some tp →
  ps !! player = Some pl →
  filter (λ c, GoFishRules.getCardRank h c = rank) (Player.hand tp) = [] →
  ∃ action over,
    GoFishRules.applyMove player (MoveAsk targetPlayerId rank)
      (mkWorld (GameState.mk [] dp ps cur rd cu) h)
    = (Returned tt,
       mkWorld (GameState.mk [] dp ps cur rd
                  ((if over : bool then JsObject.set "gameOver" (VBool true) else id)
                     (JsObject.set "lastAction" (VStr action)
                        (JsObject.set "anotherTurn" (VBool false) cu)))) h).
Proof.
  intros Htarget Htp Hpl Hnone.
  unfold GoFishRules.applyMove, GoFishRules.goFish.
  gofish_run; gofish_norm; gofish_over;
    [eexists _, true|eexists _, false]; reflexivity.
Qed.

(** The branch in which the target hands over its cards of the rank. *)
Lemma applyMove_take targetPlayerId rank target dk dp ps cur rd cu h pl tp books :
  GameState.getPlayerById targetPlayerId (GameState.mk dk dp ps cur rd cu) = Some target →
  ps !! target = Some tp →
  ps !! player = Some pl →
  filter (λ c, GoFishRules.getCardRank h c = rank) (Player.hand tp) ≠ [] →
  GoFishRules.booksObject (GameState.mk dk dp ps cur rd cu) = Some books →
  let given := filter (λ c, GoFishRules.getCardRank h c = rank) (Player.hand tp) in
  let taken := filter (λ c, Heap.id h c ∈ Heap.id h <$> given) (Player.hand tp) in
  let kept := filter (λ c, Heap.id h c ∉ Heap.id h <$> given) (Player.hand tp) in
  let ps1 := <[target := Player.mk (Player.id tp) (Player.name tp) kept (Player.score tp)]> ps in
  ∃ p1 sc books' action over,
    ps1 !! player = Some p1
    ∧ GoFishRules.applyMove player (MoveAsk targetPlayerId rank)
        (mkWorld (GameState.mk dk dp ps cur rd cu) h)
      = (Returned tt,
         mkWorld (GameState.mk dk dp
                    (<[player := Player.mk (Player.id p1) (Player.name p1)
                         (filter (λ c, Heap.id h c
                                       ∉ completedIds h (CardUtils.groupCardsByRank h
                                                           (Player.hand p1 ++ taken)))
                            (Player.hand p1 ++ taken)) sc]> ps1)
                    cur rd
                    ((if over : bool then JsObject.set "gameOver" (VBool true) else id)
                       (JsObject.set "lastAction" (VStr action)
                          (JsObject.set "books" (VBooks books') cu)))) h)
    ∧ mjoin (JsObject.values books')
      ≡ₚ mjoin (JsObject.values books)
         ++ (completed (CardUtils.groupCardsByRank h (Player.hand p1 ++ taken))).*1.
Proof.
  intros Htarget Htp Hpl Hsome Hbooks given taken kept ps1.
  assert (Hlen : match length given with 0 => false | S _ => true end = true).
  { by destruct given eqn:E. }
  assert (Hp1 : is_Some (ps1 !! player)).
  { apply lookup_lt_is_Some. unfold ps1. rewrite length_insert. by eapply lookup_lt_Some. }
  destruct Hp1 as [p1 Hp1].
  set (p2 := Player.mk (Player.id p1) (Player.name p1) (Player.hand p1 ++ taken)
               (Player.score p1)).
  destruct (checkForBooks_run dk dp (<[player := p2]> ps1) cur rd cu h p2 books)
    as (sc & books' & Hcb & Hranks).
  { apply list_lookup_insert_eq. by eapply lookup_lt_Some. }
  { done. }
  rewrite list_insert_insert_eq in Hcb.
  exists p1, sc, books'.
  unfold GoFishRules.applyMove.
  gofish_run. fold given. rewrite Hlen. unfold GoFishRules.takeCards.
  gofish_run. gofish_norm. fold given. fold taken.
  rewrite (alter_lookup _ target ps tp Htp).
  cbn [Player.id Player.name Player.hand Player.score]. fold kept. fold ps1.
  rewrite (alter_lookup _ _ _ _ Hp1). fold p2. rewrite Hcb.
  gofish_run. gofish_norm. gofish_over;
    [eexists _, true|eexists _, false]; (split_and!; [done|reflexivity|exact Hranks]).
Qed.
End Books.

Lemma elem_of_completedIds h entries x :
  x ∈ completedIds h entries
  ↔ ∃ r g c, (r, g) ∈ entries ∧ length g = 4 ∧ c ∈ g ∧ x = Heap.id h c.
Proof.
  unfold completedIds, completed. rewrite list_elem_of_bind. split.
  - intros ([r g] & Hx & [Hlen Hin]%list_elem_of_filter).
    apply list_elem_of_fmap in Hx as (c & -> & Hc). by exists r, g, c.
  - intros (r & g & c & Hin & Hlen & Hc & ->). exists (r, g). split.
    + by apply list_elem_of_fmap_2.
    + by apply list_elem_of_filter.
Qed.

(** C8 (amended). When the requester, whose turn it is, asks a target for
    a rank the target does not hold and the front card of the deck has that
    rank, [applyMove] takes the card from the deck, sets [anotherTurn] to
    true, and [getNextPlayerId] then returns the requester's id.  The card
    ends in the requester's hand unless the requester now holds exactly four
    cards of the rank: in that case the book is set aside, the card is not
    in the hand, and the rank is recorded in [books].  Ranks and player ids
    are plain, so that grouping the hand and reading [books[player.id]] see
    own properties only. *)
Theorem go_fish_draw_match_keeps_turn (w : World) player pl targetPlayerId target tp
    rank top rest :
  GameState.players (state w) !! player = Some pl →
  GameState.getPlayerById targetPlayerId (state w) = Some target →
  GameState.players (state w) !! target = Some tp →
  Forall (λ c, GoFishRules.getCardRank (cards w) c ≠ rank) (Player.hand tp) →
  GameState.deck (state w) = top :: rest →
  GoFishRules.getCardRank (cards w) top = rank →
  GameState.currentPlayerId (state w) = Player.id pl →
  is_Some (GoFishRules.booksObject (state w)) →
  plainRanks (cards w) →
  plainIds (GameState.players (state w)) →
  ∃ w' pl',
    GoFishRules.applyMove player (MoveAsk targetPlayerId rank) w = (Returned tt, w')
    ∧ GameState.deck (state w') = rest
    ∧ GameState.customValue "anotherTurn" (state w') = Some (VBool true)
    ∧ GoFishRules.getNextPlayerId w' = Returned (Player.id pl)
    ∧ GameState.players (state w') !! player = Some pl'
    ∧ let held := filter (λ c, GoFishRules.getCardRank (cards w) c = rank)
                    (Player.hand pl ++ [top]) in
      (length held ≠ 4 → top ∈ Player.hand pl')
      ∧ (length held = 4 → (top ∉ Player.hand pl') ∧ rank ∈ bookRanks (state w')).
Proof.
  destruct w as [[dk dp ps cur rd cu] h]. cbn [state cards GameState.players GameState.deck
    GameState.currentPlayerId].
  intros Hpl Htarget Htp Hnone -> Hrank -> [books Hbooks] _ _.
  destruct (applyMove_draw player targetPlayerId rank target top rest dp ps (Player.id pl)
              rd cu h pl tp books Htarget Htp Hpl) as (sc & books' & action & over & Hrun & Hranks);
    [by apply filter_none|done|].
  rewrite Hrank, String.eqb_refl in Hrun.
  set (hand := Player.hand pl ++ [top]) in *.
  set (groups := CardUtils.groupCardsByRank h hand) in *.
  assert (Htop : top ∈ hand) by (apply elem_of_app; right; apply list_elem_of_singleton; done).
  eexists _, _. split; [exact Hrun|]. cbn [state cards GameState.deck GameState.players].
  assert (Hbk : GameState.customValue "books"
                  (GameState.mk rest dp
                     (<[player := Player.mk (Player.id pl) (Player.name pl)
                          (filter (λ c, Heap.id h c ∉ completedIds h groups) hand) sc]> ps)
                     (Player.id pl) rd
                     ((if over then JsObject.set "gameOver" (VBool true) else id)
                        (JsObject.set "lastAction" (VStr action)
                           (JsObject.set "books" (VBooks books')
                              (JsObject.set "anotherTurn" (VBool true) cu)))))
                = Some (VBooks books')).
  { unfold GameState.customValue. destruct over; cbn;
      repeat (rewrite get_set_eq || rewrite get_set_ne by discriminate); done. }
  assert (Hat : GameState.customValue "anotherTurn"
                  (GameState.mk rest dp
                     (<[player := Player.mk (Player.id pl) (Player.name pl)
                          (filter (λ c, Heap.id h c ∉ completedIds h groups) hand) sc]> ps)
                     (Player.id pl) rd
                     ((if over then JsObject.set "gameOver" (VBool true) else id)
                        (JsObject.set "lastAction" (VStr action)
                           (JsObject.set "books" (VBooks books')
                              (JsObject.set "anotherTurn" (VBool true) cu)))))
                = Some (VBool true)).
  { unfold GameState.customValue. destruct over; cbn;
      repeat (rewrite get_set_eq || rewrite get_set_ne by discriminate); done. }
  split_and!; [done|exact Hat| |apply list_lookup_insert_eq; by eapply lookup_lt_Some|..].
  - unfold GoFishRules.getNextPlayerId, GameState.getCustomState.
    cbn [state]. by rewrite Hat.
  - intros Hlen. cbn [Player.hand].
    apply list_elem_of_filter. split; [|done].
    intros (r & g & c & Hg & Hg4 & Hc & Hid)%elem_of_completedIds.
    apply group_sound in Hg as [-> _].
    apply list_elem_of_filter in Hc as [Hr Hc].
    apply Hlen. rewrite <-Hg4. f_equal. apply list_filter_iff. intros c'.
    unfold GoFishRules.getCardRank in *. by rewrite <-Hr, <-Hid, Hrank.
  - intros Hlen. cbn [Player.hand]. split.
    + intros [Hno _]%list_elem_of_filter. apply Hno.
      apply elem_of_completedIds. eexists _, _, top. split_and!; [|exact Hlen| |done].
      * rewrite <-Hrank. by apply group_complete.
      * rewrite <-Hrank. by apply list_elem_of_filter.
    + unfold bookRanks. rewrite Hbk, Hranks. apply elem_of_app. right.
      apply list_elem_of_fmap. exists (rank, filter (λ c, GoFishRules.getCardRank h c = rank) hand).
      split; [done|]. apply list_elem_of_filter. split; [done|].
      rewrite <-Hrank. by apply group_complete.
Qed.

(** C8, as stated, fails when the drawn card completes a book.  In the
    example game the first player holds three 2s, the second player none,
    and the 2 of Spades (card 39) is the front card of the deck.  The first
    player asks for 2s, draws the card and keeps the turn, but the four 2s
    are set aside as a book and the drawn card is not in the hand. *)
Lemma go_fish_drawn_card_leaves_with_the_book :
  let w := BaseGame.world goFishStarted in
  let w' := (GoFishRules.applyMove 0 (MoveAsk "p2" "2") w).2 in
  let ranks (s : GameState.t) i :=
    (λ p, GoFishRules.getCardRank (cards w) <$> Player.hand p) <$> GameState.players s !! i in
  GameState.currentPlayerId (state w) = "p1"
  ∧ GameState.getPlayerById "p1" (state w) = Some 0
  ∧ GameState.getPlayerById "p2" (state w) = Some 1
  ∧ ranks (state w) 0 = Some ["2"; "2"; "2"; "8"; "10"; "Q"; "A"]
  ∧ ranks (state w) 1 = Some ["3"; "5"; "7"; "9"; "J"; "K"; "4"]
  ∧ GameState.deck (state w) !! 0 = Some 39
  ∧ GoFishRules.getCardRank (cards w) 39 = "2"
  ∧ (GoFishRules.applyMove 0 (MoveAsk "p2" "2") w).1 = Returned tt
  ∧ GameState.customValue "anotherTurn" (state w') = Some (VBool true)
  ∧ GoFishRules.getNextPlayerId w' = Returned "p1"
  ∧ GameState.deck (state w') !! 0 = Some 15
  ∧ Player.hand <$> GameState.players (state w') !! 0 = Some [6; 8; 10; 12]
  ∧ GameState.customValue "books" (state w') = Some (VBooks [("p1", ["2"])]).
Proof. vm_compute. done. Qed.

(** ** Card conservation *)

(** *** War *)

Section WarCards.

#[local] Arguments WarRules.getCardRank : simpl never.
#[local] Arguments Nat.ltb : simpl never.
#[local] Arguments Heap.id : simpl never.
#[local] Arguments Heap.setFaceUp : simpl never.
#[local] Arguments String.eqb : simpl nomatch.

Ltac pile_step :=
  cbv beta delta [bind]; cbn;
  rewrite ?String.eqb_refl, ?heap_id_setFaceUp, ?getCardRank_setFaceUp,
    ?Nat.ltb_irrefl;
  repeat match goal with
    | H : String.eqb _ _ = _ |- _ => rewrite H
    | H : WarRules.getCardRank _ _ = _ |- _ => rewrite H
    | H : Nat.ltb _ _ = _ |- _ => rewrite H
    | H : orb _ _ = _ |- _ => rewrite H
    end.

Ltac pile_run := repeat (progress pile_step).

Ltac pile_done :=
  eexists _, _, _, _, _; (split; [reflexivity|]);
  cbn; split_and!; try done;
  first [ by intros; rewrite !heap_id_setFaceUp
        | repeat (progress (cbn; rewrite ?heap_id_setFaceUp, ?String.eqb_refl));
          rewrite ?app_nil_r; solve_Permutation ].

Lemma war_applyMove_conserves dk dp a b cur rd cs mode winner h player move w' :
  valueRefs winner = [] →
  WarRules.validateMove player move
    (mkWorld (GameState.mk dk dp [a; b] cur rd (warCustom cs mode winner)) h)
  = Returned true →
  WarRules.applyMove player move
    (mkWorld (GameState.mk dk dp [a; b] cur rd (warCustom cs mode winner)) h)
  = (Returned tt, w') →
  ∃ a' b' cs' mode' winner',
    state w' = GameState.mk dk dp [a'; b'] cur rd (warCustom cs' mode' winner')
    ∧ valueRefs winner' = []
    ∧ Player.hand a' ++ Player.hand b' ++ cs' ≡ₚ Player.hand a ++ Player.hand b ++ cs
    ∧ ∀ r, Heap.id (cards w') r = Heap.id h r.
Proof.
  intros Hwin Hvalid Hrun.
  destruct (String.eqb (Player.id a) (Player.id b)) eqn:Hid.
  { (* two players with one id: no opponent is found *)
    apply String.eqb_eq in Hid.
    destruct a as [ia na ha sa], b as [ib nb hb sb]. cbn [Player.id] in *. subst ib.
    unfold WarRules.validateMove in Hvalid. cbn in Hvalid.
    destruct player as [|[|player]]; cbn in Hvalid; [| |done];
      injection Hvalid as Hvalid; apply andb_prop in Hvalid as [Hplay _];
      unfold WarRules.applyMove in Hrun; rewrite Hplay in Hrun; cbn [negb] in Hrun;
      revert Hrun; pile_run; intros Hrun; discriminate Hrun. }
  assert (Hid' : String.eqb (Player.id b) (Player.id a) = false)
    by (by rewrite String.eqb_sym).
  destruct a as [ia na ha sa], b as [ib nb hb sb]. cbn [Player.id] in *.
  unfold WarRules.validateMove in Hvalid. cbn in Hvalid.
  destruct player as [|[|player]]; cbn in Hvalid; [| |done];
    injection Hvalid as Hvalid; apply andb_prop in Hvalid as [Hplay Hsize];
    unfold WarRules.applyMove in Hrun; rewrite Hplay in Hrun; cbn [negb] in Hrun;
    destruct ha as [|ca ha]; try done; destruct hb as [|cb hb]; try done;
    try (revert Hrun; pile_run; intros Hrun; discriminate Hrun); clear Hsize;
    revert Hrun.
  - destruct (WarRules.getCardRank h cb <? WarRules.getCardRank h ca) eqn:Hgt;
      [|destruct (WarRules.getCardRank h ca <? WarRules.getCardRank h cb) eqn:Hlt;
        [|destruct ((length ha <? 4) || (length hb <? 4)) eqn:Hshort;
          [destruct (length hb <? length ha) eqn:Hmore|]]].
    1-4: pile_run; intros [= <-]; pile_done.
    apply orb_false_elim in Hshort as [Ha Hb]. apply Nat.ltb_ge in Ha, Hb.
    destruct ha as [|a1 [|a2 [|a3 [|a4 ha]]]]; try (simpl in Ha; lia).
    destruct hb as [|b1 [|b2 [|b3 [|b4 hb]]]]; try (simpl in Hb; lia).
    assert (Hlt1 : (S (S (S (S (length ha)))) <? 4) = false) by (apply Nat.ltb_ge; lia).
    assert (Hlt2 : (S (S (S (S (length hb)))) <? 4) = false) by (apply Nat.ltb_ge; lia).
    pile_run; intros [= <-]; pile_done.
  - destruct (WarRules.getCardRank h ca <? WarRules.getCardRank h cb) eqn:Hgt;
      [|destruct (WarRules.getCardRank h cb <? WarRules.getCardRank h ca) eqn:Hlt;
        [|destruct ((length hb <? 4) || (length ha <? 4)) eqn:Hshort;
          [destruct (length ha <? length hb) eqn:Hmore|]]].
    1-4: pile_run; intros [= <-]; pile_done.
    apply orb_false_elim in Hshort as [Hb Ha]. apply Nat.ltb_ge in Ha, Hb.
    destruct ha as [|a1 [|a2 [|a3 [|a4 ha]]]]; try (simpl in Ha; lia).
    destruct hb as [|b1 [|b2 [|b3 [|b4 hb]]]]; try (simpl in Hb; lia).
    assert (Hlt1 : (S (S (S (S (length ha)))) <? 4) = false) by (apply Nat.ltb_ge; lia).
    assert (Hlt2 : (S (S (S (S (length hb)))) <? 4) = false) by (apply Nat.ltb_ge; lia).
    pile_run; intros [= <-]; pile_done.
Qed.

Lemma swap_perm i j (l : list nat) : Deck.swap i j l ≡ₚ l.
Proof.
  unfold Deck.swap. destruct (l !! i) as [a|] eqn:Hi; [|done].
  destruct (l !! j) as [b|] eqn:Hj; [|done]. by apply Permutation_insert_swap.
Qed.

Lemma shuffle_perm rnd (l : list nat) : Deck.shuffle rnd l ≡ₚ l.
Proof.
  unfold Deck.shuffle. generalize (length l - 1). intros n. revert rnd l.
  induction n as [|n IH]; intros rnd l; simpl; [done|]. by rewrite IH, swap_perm.
Qed.

Lemma deal_halves_perm m1 m2 (l : list nat) :
  drop m2 (drop m1 l) ++ take m1 l ++ take m2 (drop m1 l) ≡ₚ l.
Proof.
  rewrite <-(take_drop m1 l) at 4. rewrite <-(take_drop m2 (drop m1 l)) at 3.
  solve_Permutation.
Qed.

Lemma warInv_allIds ids w : warInv ids w → allIds w ≡ₚ ids.
Proof.
  intros (dk & a & b & cur & rd & cs & mode & winner & Hs & Hw & <-).
  unfold allIds, allRefs, handRefs, customRefs. rewrite Hs. cbn. rewrite Hw, !app_nil_r.
  apply fmap_Permutation. solve_Permutation.
Qed.

Lemma war_initializeGame_inv rnd dk a b cur rd h w :
  Player.hand a = [] → Player.hand b = [] →
  WarRules.initializeGame rnd (mkWorld (GameState.mk dk [] [a; b] cur rd []) h)
  = (Returned tt, w) →
  warInv (Heap.id h <$> dk) w.
Proof.
  intros Ha Hb. destruct a as [ia na ha sa], b as [ib nb hb sb]. simpl in *. subst.
  unfold WarRules.initializeGame. pile_run. intros [= <-].
  eexists _, _, _, _, _, _, _, _. split; [reflexivity|]. cbn.
  split_and!; [done|]. rewrite app_nil_r.
  apply fmap_Permutation. etrans; [apply deal_halves_perm|]. apply (shuffle_perm rnd dk).
Qed.

Lemma war_nextTurn_inv ids w w' :
  warInv ids w → WarRules.nextTurn w = (Returned tt, w') → warInv ids w'.
Proof.
  intros (dk & a & b & cur & rd & cs & mode & winner & Hs & Hw & Hp).
  destruct w as [s h]. simpl in *. subst s.
  unfold WarRules.nextTurn, liftO, WarRules.getNextPlayerId, bind. cbn.
  destruct (negb _); [|destruct (negb _); [|done]]; cbn; intros [= <-];
    by eexists _, _, _, _, _, _, _, _.
Qed.

Lemma war_applyMove_inv ids w player move w' :
  warInv ids w →
  WarRules.validateMove player move w = Returned true →
  WarRules.applyMove player move w = (Returned tt, w') →
  warInv ids w'.
Proof.
  intros (dk & a & b & cur & rd & cs & mode & winner & Hs & Hw & Hp) Hvalid Hrun.
  destruct w as [s h]. simpl in *. subst s.
  destruct (war_applyMove_conserves _ _ _ _ _ _ _ _ _ _ _ _ _ Hw Hvalid Hrun)
    as (a' & b' & cs' & mode' & winner' & Hs' & Hw' & Hperm & Hids).
  exists dk, a', b', cur, rd, cs', mode', winner'.
  split_and!; [done|done|].
  rewrite <-Hp. rewrite (list_fmap_ext (Heap.id (cards w')) (Heap.id h)) by (intros; apply Hids).
  apply fmap_Permutation. rewrite Hperm. done.
Qed.
End WarCards.

(** *** Go Fish *)

Lemma findIndex_Some f ps i :
  GameState.findIndex f ps = Some i → is_Some (ps !! i).
Proof.
  revert i. induction ps as [|p ps IH]; intros i; simpl; [done|].
  destruct (f p); [intros [= <-]; by eexists|].
  destruct (GameState.findIndex f ps) as [j|]; [|done]. intros [= <-]. by apply IH.
Qed.

Lemma booksObject_ranks s books :
  GoFishRules.booksObject s = Some books → bookRanks s = mjoin (JsObject.values books).
Proof.
  unfold GoFishRules.booksObject, bookRanks, GameState.getCustomState.
  destruct (GameState.customValue "books" s) as [[|[]|str| |]|]; simpl;
    try (by intros [= <-]); try done.
  destruct (String.eqb str ""); simpl; [by intros [= <-]|done].
Qed.

Lemma customRefs_cons k v o : customRefs ((k, v) :: o) = valueRefs v ++ customRefs o.
Proof. done. Qed.

Lemma customRefs_set k v o :
  valueRefs v = [] → customRefs o = [] → customRefs (JsObject.set k v o) = [].
Proof.
  intros Hv. unfold JsObject.set.
  destruct (JsObject.get k o) as [old|] eqn:E; clear E.
  - induction o as [|[k' v'] o IH]; [done|]. rewrite customRefs_cons.
    intros [Hv' Ho]%app_eq_nil. cbn [JsObject.replace].
    destruct (String.eqb k k'); rewrite customRefs_cons.
    + by rewrite Hv, Ho.
    + by rewrite Hv', IH.
  - induction o as [|[k' v'] o IH]; [intros _; cbn; by rewrite Hv|].
    rewrite customRefs_cons.
    intros [Hv' Ho]%app_eq_nil. cbn [JsObject.add].
    destruct (JsObject.before k k'); rewrite !customRefs_cons.
    + by rewrite Hv, Hv', Ho.
    + by rewrite Hv', IH.
Qed.

Lemma booksObject_custom dk dp ps cur rd cu dk' dp' ps' cur' rd' cu' :
  JsObject.get "books" cu' = JsObject.get "books" cu →
  GoFishRules.booksObject (GameState.mk dk' dp' ps' cur' rd' cu')
  = GoFishRules.booksObject (GameState.mk dk dp ps cur rd cu).
Proof.
  intros H. unfold GoFishRules.booksObject, GameState.getCustomState, GameState.customValue.
  simpl. by rewrite H.
Qed.

Lemma filter_ext_in {A} (P Q : A → Prop) `{!∀ x, Decision (P x), !∀ x, Decision (Q x)}
    (l : list A) :
  (∀ x, x ∈ l → P x ↔ Q x) → filter P l = filter Q l.
Proof.
  induction l as [|a l IH]; intros HPQ; [done|].
  rewrite !filter_cons, IH by (intros x Hx; apply HPQ; by right).
  destruct (decide (P a)) as [HP|HP], (decide (Q a)) as [HQ|HQ]; try done.
  - destruct HQ. apply HPQ; [by left|done].
  - destruct HP. apply HPQ; [by left|done].
Qed.

Section Ranks.
Variable h : list Card.t.
Abbreviation rankOf := (GoFishRules.getCardRank h) (only parsing).

Lemma ranks_of_one_rank r (hand : list nat) :
  rankOf <$> filter (λ c, rankOf c = r) hand
  = replicate (length (filter (λ c, rankOf c = r) hand)) r.
Proof.
  symmetry. apply replicate_as_Forall. split; [by rewrite length_fmap|].
  apply Forall_fmap, Forall_forall. intros c [Hc _]%list_elem_of_filter. simpl. done.
Qed.

(** The cards whose rank is one of the distinct ranks [K], when the hand
    holds [n] cards of each of them. *)
Lemma ranks_of_listed_ranks n K (hand : list nat) :
  NoDup K →
  (∀ r, r ∈ K → length (filter (λ c, rankOf c = r) hand) = n) →
  rankOf <$> filter (λ c, rankOf c ∈ K) hand ≡ₚ K ≫= replicate n.
Proof.
  induction K as [|r K IH]; intros Hnd Hlen.
  - rewrite filter_none; [done|]. apply Forall_forall. intros c _. apply not_elem_of_nil.
  - apply NoDup_cons in Hnd as [Hr Hnd]. rewrite bind_cons.
    rewrite <-(IH Hnd) by (intros r' Hr'; apply Hlen; by right).
    rewrite <-(Hlen r) by (by left). rewrite <-ranks_of_one_rank, <-fmap_app.
    apply fmap_Permutation.
    rewrite <-(filter_app_complement (λ c, rankOf c = r)
                 (filter (λ c, rankOf c ∈ r :: K) hand)).
    rewrite !list_filter_filter. f_equiv.
    + apply reflexive_eq, list_filter_iff. intros c. rewrite elem_of_cons. tauto.
    + apply reflexive_eq, list_filter_iff. intros c. rewrite elem_of_cons.
      split; [tauto|]. intros Hc. split; [congruence|by right].
Qed.

(** The cards that leave a hand as books: four of each completed rank. *)
Lemma book_cards (hand : list nat) :
  let groups := CardUtils.groupCardsByRank h hand in
  rankOf <$> filter (λ c, ¬ (Heap.id h c ∉ completedIds h groups)) hand
  ≡ₚ (completed groups).*1 ≫= replicate 4.
Proof.
  intros groups.
  destruct (groupCardsByRank_grouped h hand) as [Hnd _]. fold groups in Hnd.
  rewrite (filter_ext_in _ (λ c, rankOf c ∈ (completed groups).*1)).
  - apply ranks_of_listed_ranks.
    + eapply sublist_NoDup; [exact Hnd|]. apply fmap_sublist, sublist_filter.
    + intros r ([r' g] & -> & [Hg4 Hg]%list_elem_of_filter)%list_elem_of_fmap.
      simpl in *. by apply group_sound in Hg as [<- _].
  - intros c Hc. split.
    + intros Hin. apply dec_stable in Hin.
      apply elem_of_completedIds in Hin as (r & g & c' & Hg & Hlen & Hc' & Hid).
      pose proof (group_sound h hand r g Hg) as [-> _].
      apply list_elem_of_filter in Hc' as [Hr _].
      apply list_elem_of_fmap. exists (r, filter (λ c, rankOf c = r) hand).
      split; [|by apply list_elem_of_filter].
      simpl. unfold GoFishRules.getCardRank in *. by rewrite Hid.
    + intros ([r g] & Hr & [Hg4 Hg]%list_elem_of_filter)%list_elem_of_fmap Hno.
      simpl in *. apply Hno. apply elem_of_completedIds. exists r, g, c.
      split_and!; [done|done| |done].
      apply group_sound in Hg as [-> _]. by apply list_elem_of_filter.
Qed.

(** Removing the cards that carry the id of a card of some rank removes
    the cards of that rank. *)
Lemma kept_cards rank (hand : list nat) :
  filter (λ c, Heap.id h c ∉ Heap.id h <$> filter (λ c, rankOf c = rank) hand) hand
  = filter (λ c, rankOf c ≠ rank) hand.
Proof.
  apply filter_ext_in. intros c Hc. split.
  - intros Hno Hr. apply Hno. apply list_elem_of_fmap_2. by apply list_elem_of_filter.
  - intros Hr (c' & Hid & [Hr' _]%list_elem_of_filter)%list_elem_of_fmap.
    apply Hr. unfold GoFishRules.getCardRank in *. by rewrite Hid.
Qed.
End Ranks.

(** A recorded book accounts for at least four of the cards set aside. *)
Lemma booked_at_least_four (r : string) K :
  r ∈ K → 4 ≤ length (filter (λ x, x = r) (K ≫= replicate 4)).
Proof.
  induction K as [|k K IH]; [by intros ?%elem_of_nil|].
  rewrite bind_cons, filter_app, length_app. intros [->|Hin]%elem_of_cons.
  - simpl. rewrite !filter_cons_True by done. simpl. lia.
  - specialize (IH Hin). lia.
Qed.

(** Bookkeeping of a card drawn into a hand from which books then leave. *)
Lemma moved_cards (rest hands hands' old kept removed gone : list nat) top :
  hands' ++ old ≡ₚ hands ++ kept →
  kept ++ removed ≡ₚ old ++ [top] →
  (rest ++ hands' ++ gone ++ removed) ++ old ≡ₚ ((top :: rest) ++ hands ++ gone) ++ old.
Proof.
  intros H1 H2.
  assert (E1 : (rest ++ hands' ++ gone ++ removed) ++ old
               ≡ₚ rest ++ (hands' ++ old) ++ gone ++ removed) by solve_Permutation.
  rewrite E1, H1.
  assert (E2 : rest ++ (hands ++ kept) ++ gone ++ removed
               ≡ₚ rest ++ hands ++ gone ++ (kept ++ removed)) by solve_Permutation.
  rewrite E2, H2. solve_Permutation.
Qed.

(** Bookkeeping of cards passed from one hand to another, from which books
    then leave. *)
Lemma passed_cards (dk hands hands1 hands2 from kept taken to kept2 removed gone : list nat) :
  hands1 ++ from ≡ₚ hands ++ kept →
  kept ++ taken ≡ₚ from →
  hands2 ++ to ≡ₚ hands1 ++ kept2 →
  kept2 ++ removed ≡ₚ to ++ taken →
  (dk ++ hands2 ++ gone ++ removed) ++ to ++ from ≡ₚ (dk ++ hands ++ gone) ++ to ++ from.
Proof.
  intros H0 H0' H1 H2.
  assert (E1 : (dk ++ hands2 ++ gone ++ removed) ++ to ++ from
               ≡ₚ dk ++ (hands2 ++ to) ++ gone ++ removed ++ from) by solve_Permutation.
  rewrite E1, H1.
  assert (E2 : dk ++ (hands1 ++ kept2) ++ gone ++ removed ++ from
               ≡ₚ dk ++ (hands1 ++ from) ++ gone ++ (kept2 ++ removed)) by solve_Permutation.
  rewrite E2, H0, H2.
  assert (E3 : dk ++ (hands ++ kept) ++ gone ++ to ++ taken
               ≡ₚ dk ++ hands ++ gone ++ to ++ (kept ++ taken)) by solve_Permutation.
  rewrite E3, H0'. solve_Permutation.
Qed.

(** A move that [validateMove] accepts names the requester and a target
    among the players. *)
Lemma gofish_validMove player move w :
  GoFishRules.validateMove player move w = Returned true →
  ∃ targetPlayerId rank pl target tp,
    move = MoveAsk targetPlayerId rank
    ∧ GameState.players (state w) !! player = Some pl
    ∧ GameState.getPlayerById targetPlayerId (state w) = Some target
    ∧ GameState.players (state w) !! target = Some tp.
Proof.
  unfold GoFishRules.validateMove. destruct move as [|t r| |]; try done.
  destruct (GameState.players (state w) !! player) as [pl|] eqn:Hpl; [|done].
  destruct (String.eqb t (Player.id pl)); [done|].
  destruct (GameState.getPlayerById t (state w)) as [target|] eqn:Ht; [|done].
  intros _. destruct (findIndex_Some _ _ _ Ht) as [tp Htp].
  by exists t, r, pl, target, tp.
Qed.

(** An accepted move keeps the invariant of Go Fish. *)
Lemma gofish_applyMove_inv h0 cards0 w player move w' :
  goFishInv h0 cards0 w →
  GoFishRules.validateMove player move w = Returned true →
  GoFishRules.applyMove player move w = (Returned tt, w') →
  goFishInv h0 cards0 w'.
Proof.
  intros (Hh & Hdp & Hcu & [books Hbooks] & gone & Hperm & Hgone) Hvalid Hrun.
  destruct (gofish_validMove _ _ _ Hvalid) as (t & rank & pl & target & tp & -> & Hpl & Ht & Htp).
  destruct w as [[dk dp ps cur rd cu] h].
  cbn [state cards GameState.discardPile GameState.customState GameState.deck
       GameState.players] in Hh, Hdp, Hcu, Hperm, Hpl, Htp, Ht, Hbooks, Hgone.
  subst dp h.
  pose proof (booksObject_ranks _ _ Hbooks) as Hranks0.
  destruct (filter (λ c, GoFishRules.getCardRank h0 c = rank) (Player.hand tp)) as [|g0 gs] eqn:Hg.
  - destruct dk as [|top rest].
    + destruct (applyMove_no_card player t rank target [] ps cur rd cu h0 pl tp Ht Htp Hpl Hg)
        as (action & over & Hrun').
      rewrite Hrun' in Hrun. injection Hrun as <-. 
      split_and!; [done|done| | |].
      * simpl. destruct over; simpl; repeat apply customRefs_set; done.
      * exists books. rewrite <-Hbooks. apply booksObject_custom.
        destruct over; simpl; by rewrite !get_set_ne by done.
      * exists gone. split; [done|].
        replace (bookRanks _) with (bookRanks (GameState.mk [] [] ps cur rd cu)); [done|].
        unfold bookRanks, GameState.customValue. simpl.
        destruct over; simpl; by rewrite !get_set_ne by done.
    + destruct (applyMove_draw player t rank target top rest [] ps cur rd cu h0 pl tp books
                  Ht Htp Hpl Hg Hbooks) as (sc & books' & action & over & Hrun' & Hranks).
      rewrite Hrun' in Hrun. injection Hrun as <-.
      set (hand := Player.hand pl ++ [top]) in *.
      set (groups := CardUtils.groupCardsByRank h0 hand) in *.
      assert (Hbk : JsObject.get "books"
                ((if over then JsObject.set "gameOver" (VBool true) else id)
                   (JsObject.set "lastAction" (VStr action)
                      (JsObject.set "books" (VBooks books')
                         (JsObject.set "anotherTurn"
                            (VBool (String.eqb (GoFishRules.getCardRank h0 top) rank)) cu))))
                = Some (VBooks books')).
      { destruct over; simpl;
          repeat (rewrite get_set_eq || rewrite get_set_ne by discriminate); done. }
      split_and!; [done|done| | |].
      * simpl. destruct over; simpl; repeat apply customRefs_set; done.
      * exists books'. unfold GoFishRules.booksObject, GameState.getCustomState,
          GameState.customValue. simpl. by rewrite Hbk.
      * exists (gone ++ filter (λ c, ¬ (Heap.id h0 c ∉ completedIds h0 groups)) hand).
        simpl. split.
        -- rewrite <-Hperm.
           pose proof (handRefs_insert ps player pl
                         (Player.mk (Player.id pl) (Player.name pl)
                            (filter (λ c, Heap.id h0 c ∉ completedIds h0 groups) hand) sc) Hpl)
             as H1. cbn [Player.hand] in H1.
           pose proof (filter_app_complement
                         (λ c, Heap.id h0 c ∉ completedIds h0 groups) hand) as H2.
           apply (Permutation_app_inv_r (Player.hand pl)).
           apply (moved_cards rest (handRefs ps) _ (Player.hand pl) _ _ gone top H1 H2).
        -- pose proof (book_cards h0 hand) as Hbc. cbv zeta in Hbc. fold groups in Hbc.
           rewrite fmap_app, Hgone, Hranks0, Hbc.
           unfold bookRanks, GameState.customValue. cbn [GameState.customState].
           by rewrite Hbk, Hranks, bind_app.
  - assert (Hne : filter (λ c, GoFishRules.getCardRank h0 c = rank) (Player.hand tp) ≠ [])
      by (by rewrite Hg).
    destruct (applyMove_take player t rank target dk [] ps cur rd cu h0 pl tp books
                Ht Htp Hpl Hne Hbooks) as (p1 & sc & books' & action & over & Hp1 & Hrun' & Hranks).
    rewrite Hrun' in Hrun. injection Hrun as <-. clear Hrun' Hne.
    rewrite Hg in Hp1, Hranks |- *.
    set (given := g0 :: gs) in *.
    set (kept := filter (λ c, Heap.id h0 c ∉ Heap.id h0 <$> given) (Player.hand tp)) in *.
    set (taken := filter (λ c, Heap.id h0 c ∈ Heap.id h0 <$> given) (Player.hand tp)) in *.
    set (ps1 := <[target := Player.mk (Player.id tp) (Player.name tp) kept (Player.score tp)]> ps) in *.
    set (hand := Player.hand p1 ++ taken) in *.
    set (groups := CardUtils.groupCardsByRank h0 hand) in *.
    assert (Hbk : JsObject.get "books"
              ((if over then JsObject.set "gameOver" (VBool true) else id)
                 (JsObject.set "lastAction" (VStr action)
                    (JsObject.set "books" (VBooks books') cu)))
              = Some (VBooks books')).
    { destruct over; simpl;
        repeat (rewrite get_set_eq || rewrite get_set_ne by discriminate); done. }
    split_and!; [done|done| | |].
    + simpl. destruct over; simpl; repeat apply customRefs_set; done.
    + exists books'. unfold GoFishRules.booksObject, GameState.getCustomState,
        GameState.customValue. simpl. by rewrite Hbk.
    + exists (gone ++ filter (λ c, ¬ (Heap.id h0 c ∉ completedIds h0 groups)) hand).
      cbn [state GameState.deck GameState.players]. split.
      * rewrite <-Hperm.
        pose proof (handRefs_insert ps target tp
                      (Player.mk (Player.id tp) (Player.name tp) kept (Player.score tp)) Htp)
          as H0. cbn [Player.hand] in H0. fold ps1 in H0.
        assert (H0' : kept ++ taken ≡ₚ Player.hand tp).
        { unfold kept, taken. rewrite (comm (++)).
          rewrite <-(filter_app_complement
                       (λ c, Heap.id h0 c ∈ Heap.id h0 <$> given) (Player.hand tp)) at 3.
          done. }
        pose proof (handRefs_insert ps1 player p1
                      (Player.mk (Player.id p1) (Player.name p1)
                         (filter (λ c, Heap.id h0 c ∉ completedIds h0 groups) hand) sc) Hp1)
          as H1. cbn [Player.hand] in H1.
        pose proof (filter_app_complement
                      (λ c, Heap.id h0 c ∉ completedIds h0 groups) hand) as H2.
        apply (Permutation_app_inv_r (Player.hand p1 ++ Player.hand tp)).
        apply (passed_cards dk (handRefs ps) _ _ (Player.hand tp) kept taken (Player.hand p1) _ _ gone H0 H0' H1 H2).
      * pose proof (book_cards h0 hand) as Hbc. cbv zeta in Hbc. fold groups in Hbc.
        rewrite fmap_app, Hgone, Hranks0, Hbc.
        unfold bookRanks, GameState.customValue. cbn [state GameState.customState].
        by rewrite Hbk, Hranks, bind_app.
Qed.

(** *** Reachable states *)

Lemma war_initializeGame_fresh rnd w0 w :
  freshGame w0 →
  WarRules.initializeGame rnd w0 = (Returned tt, w) →
  warInv (startIds w0) w.
Proof.
  destruct w0 as [[dk dp ps cur rd cu] h]. intros (Hdp & Hcu & Hhands). simpl in *. subst.
  destruct ps as [|a [|b [|c ps]]]; try (intros H; cbv in H; discriminate).
  unfold handRefs in Hhands. simpl in Hhands.
  apply app_eq_nil in Hhands as [Ha [Hb _]%app_eq_nil].
  by apply war_initializeGame_inv.
Qed.

Lemma war_reachable w0 w :
  freshGame w0 → Reachable WarRules.rules w0 w → warInv (startIds w0) w.
Proof.
  intros Hfresh. induction 1 as [rnd w Hinit|w player move w' _ IH Hvalid Hrun|w w' _ IH Hrun].
  - by eapply war_initializeGame_fresh.
  - by eapply war_applyMove_inv.
  - by eapply war_nextTurn_inv.
Qed.

Lemma handRefs_alter f ps i p :
  ps !! i = Some p →
  handRefs (alter f i ps) ++ Player.hand p ≡ₚ handRefs ps ++ Player.hand (f p).
Proof. intros Hi. rewrite (alter_lookup f i ps p Hi). by apply handRefs_insert. Qed.

Lemma dealRound_run idxs : ∀ dk dp ps cur rd cu h,
  Forall (λ i, i < length ps) idxs →
  ∃ dk' ps',
    CardUtils.dealRound idxs (mkWorld (GameState.mk dk dp ps cur rd cu) h)
    = (Returned tt, mkWorld (GameState.mk dk' dp ps' cur rd cu) h)
    ∧ length ps' = length ps
    ∧ dk' ++ handRefs ps' ≡ₚ dk ++ handRefs ps.
Proof.
  induction idxs as [|i idxs IH]; intros dk dp ps cur rd cu h Hok.
  - by exists dk, ps.
  - apply Forall_cons in Hok as [Hi Hok].
    destruct (lookup_lt_is_Some_2 ps i Hi) as [p Hp].
    destruct dk as [|c dk].
    + destruct (IH [] dp ps cur rd cu h Hok) as (dk' & ps' & Hrun & Hlen & Hperm).
      exists dk', ps'. split; [|done].
      cbn [CardUtils.dealRound]. unfold bind at 1. cbn. exact Hrun.
    + destruct (IH dk dp (alter (Player.setHand (Hand.addCards [c])) i ps) cur rd cu h)
        as (dk' & ps' & Hrun & Hlen & Hperm).
      { by rewrite length_alter. }
      exists dk', ps'. split_and!.
      * cbn [CardUtils.dealRound]. unfold bind at 1. cbn. exact Hrun.
      * by rewrite Hlen, length_alter.
      * rewrite Hperm.
        apply (Permutation_app_inv_r (Player.hand p)).
        rewrite <-(assoc_L (++)), (handRefs_alter _ ps i p Hp).
        unfold Player.setHand, Hand.addCards. simpl. solve_Permutation.
Qed.

Lemma dealCards_run idxs n : ∀ dk dp ps cur rd cu h,
  Forall (λ i, i < length ps) idxs →
  ∃ dk' ps',
    CardUtils.dealCards idxs n (mkWorld (GameState.mk dk dp ps cur rd cu) h)
    = (Returned tt, mkWorld (GameState.mk dk' dp ps' cur rd cu) h)
    ∧ length ps' = length ps
    ∧ dk' ++ handRefs ps' ≡ₚ dk ++ handRefs ps.
Proof.
  induction n as [|n IH]; intros dk dp ps cur rd cu h Hok.
  - by exists dk, ps.
  - destruct (dealRound_run idxs dk dp ps cur rd cu h Hok) as (dk1 & ps1 & Hrun1 & Hlen1 & Hperm1).
    destruct (IH dk1 dp ps1 cur rd cu h) as (dk' & ps' & Hrun & Hlen & Hperm).
    { by rewrite Hlen1. }
    exists dk', ps'. split_and!.
    + cbn [CardUtils.dealCards]. unfold bind. rewrite Hrun1. exact Hrun.
    + by rewrite Hlen.
    + by rewrite Hperm.
Qed.

Section Dealing.
#[local] Arguments Nat.ltb : simpl never.
#[local] Arguments CardUtils.dealCards : simpl never.
#[local] Arguments Deck.shuffle : simpl never.

Lemma gofish_initializeGame_fresh rnd w0 w :
  freshGame w0 →
  GoFishRules.initializeGame rnd w0 = (Returned tt, w) →
  goFishInv (cards w0) (GameState.deck (state w0)) w.
Proof.
  destruct w0 as [[dk dp ps cur rd cu] h]. intros (Hdp & Hcu & Hhands). simpl in *. subst.
  unfold GoFishRules.initializeGame. unfold bind at 1. cbn.
  destruct (length ps <? 2) eqn:Hn; [done|].
  unfold bind at 1. cbn. unfold bind at 1, GameState.setDeck. cbn.
  destruct (dealCards_run (seq 0 (length ps)) (if 3 <? length ps then 5 else 7)
              (Deck.shuffle rnd dk) [] ps cur rd [] h)
    as (dk' & ps' & Hrun & Hlen & Hperm).
  { apply Forall_forall. intros i Hi%elem_of_seq. lia. }
  rewrite Hrun.
  destruct ps' as [|first ps']; [apply Nat.ltb_ge in Hn; simpl in *; lia|].
  cbn. intros [= <-]. unfold goFishInv. cbn.
  split_and!; [done|done|done|by eexists|].
  exists []. split; [|done].
  rewrite app_nil_r. rewrite Hperm, Hhands, app_nil_r. apply shuffle_perm.
Qed.
End Dealing.

Lemma gofish_nextTurn_inv h0 cards0 w w' :
  goFishInv h0 cards0 w → GoFishRules.nextTurn w = (Returned tt, w') → goFishInv h0 cards0 w'.
Proof.
  intros (Hh & Hdp & Hcu & Hbooks & gone & Hperm & Hgone).
  unfold GoFishRules.nextTurn, liftO. unfold bind at 1.
  destruct (GoFishRules.getNextPlayerId w) as [next|]; [|done].
  destruct w as [[dk dp ps cur rd cu] h]. cbn. intros [= <-].
  cbn [state cards GameState.discardPile GameState.customState GameState.deck
       GameState.players] in *.
  assert (Hget : JsObject.get "books" (JsObject.set "anotherTurn" (VBool false) cu)
                 = JsObject.get "books" cu) by (by rewrite get_set_ne).
  unfold goFishInv.
  cbn [state cards GameState.discardPile GameState.customState GameState.deck
       GameState.players].
  split_and!; [done|done|by apply customRefs_set| |].
  - unfold GameState.setCustomState, GameState.setCurrentPlayerId.
    cbn [GameState.deck GameState.discardPile GameState.players GameState.round
         GameState.customState GameState.currentPlayerId].
    by rewrite (booksObject_custom dk dp ps cur rd cu).
  - exists gone. split; [done|].
    unfold bookRanks, GameState.customValue, GameState.setCustomState,
      GameState.setCurrentPlayerId in *.
    cbn [GameState.customState] in *. by rewrite Hget.
Qed.

Lemma gofish_reachable w0 w :
  freshGame w0 → Reachable GoFishRules.rules w0 w →
  goFishInv (cards w0) (GameState.deck (state w0)) w.
Proof.
  intros Hfresh. induction 1 as [rnd w Hinit|w player move w' _ IH Hvalid Hrun|w w' _ IH Hrun].
  - by eapply gofish_initializeGame_fresh.
  - by eapply gofish_applyMove_inv.
  - by eapply gofish_nextTurn_inv.
Qed.

(** C3 (amended). From a fresh game (nothing dealt, discarded or recorded)
    of cards with plain ranks and players with plain ids, in every state that
    War reaches by [initializeGame], accepted moves and [nextTurn], the ids
    of the cards in the deck, the discard pile, the hands and the pile in
    play are, as a multiset, the ids of the start deck.  In every state that
    Go Fish reaches in the same way this holds up to the cards [gone], set
    aside as books: the ids found in the state together with the ids of
    those cards are the ids of the start deck, and those cards are four of
    its rank for each book recorded in [books].  When the start deck has
    four cards of a recorded rank, the book is the complete set: no card of
    that rank is left in the state. *)
Theorem cards_conserved_up_to_books w0 w :
  freshGame w0 →
  plainRanks (cards w0) →
  plainIds (GameState.players (state w0)) →
  (Reachable WarRules.rules w0 w → allIds w ≡ₚ startIds w0)
  ∧ (Reachable GoFishRules.rules w0 w →
     ∃ gone,
       allIds w ++ (Heap.id (cards w) <$> gone) ≡ₚ startIds w0
       ∧ GoFishRules.getCardRank (cards w) <$> gone
         ≡ₚ bookRanks (state w) ≫= replicate 4
       ∧ ∀ rank,
           rank ∈ bookRanks (state w) →
           length (filter (λ i, split_head i = rank) (startIds w0)) = 4 →
           Forall (λ i, split_head i ≠ rank) (allIds w)).
Proof.
  intros Hfresh _ _. split; intros Hreach.
  - by apply warInv_allIds, war_reachable.
  - destruct (gofish_reachable w0 w Hfresh Hreach)
      as (Hh & Hdp & Hcu & _ & gone & Hperm & Hgone).
    assert (Hids : allIds w ++ (Heap.id (cards w) <$> gone) ≡ₚ startIds w0).
    { unfold allIds, allRefs, startIds. rewrite Hh, Hdp, Hcu, app_nil_r. simpl.
      rewrite <-fmap_app. apply fmap_Permutation. by rewrite <-(assoc_L (++)). }
    exists gone. rewrite Hh. split_and!; [by rewrite <-Hh|done|].
    intros rank Hrank Hfour.
    pose proof (booked_at_least_four rank _ Hrank) as Hbooked.
    rewrite <-Hgone in Hbooked.
    assert (Hsame : filter (λ x, x = rank) (GoFishRules.getCardRank (cards w0) <$> gone)
                    = split_head <$> filter (λ i, split_head i = rank)
                                       (Heap.id (cards w0) <$> gone)).
    { clear. induction gone as [|c gone IH]; [done|].
      rewrite !fmap_cons, !filter_cons. unfold GoFishRules.getCardRank at 1.
      destruct (decide (split_head (Heap.id (cards w0) c) = rank));
        [rewrite fmap_cons|]; by rewrite IH. }
    rewrite Hsame, length_fmap, <-Hh in Hbooked.
    rewrite <-Hids, filter_app, length_app in Hfour.
    apply Forall_forall. intros i Hi Hr.
    assert (Hin : i ∈ filter (λ i, split_head i = rank) (allIds w))
      by (by apply list_elem_of_filter).
    destruct (filter (λ i, split_head i = rank) (allIds w)); [by apply elem_of_nil in Hin|].
    simpl in Hfour. lia.
Qed.

Lemma newWorld_fresh : freshGame newWorld.
Proof. by vm_compute. Qed.

Lemma goFishAfterBook_reachable : Reachable GoFishRules.rules newWorld goFishAfterBook.
Proof.
  apply (reach_move _ _ goFishDealt 0 (MoveAsk "p2" "2")).
  - apply (reach_init _ _ stackedOracle). by vm_compute.
  - by vm_compute.
  - by vm_compute.
Qed.

(** C3, as stated, fails for Go Fish.  In the example game the first player
    asks for 2s, draws the fourth 2 and completes a book: the four cards
    leave the hand and only the rank is recorded, so 48 of the 52 ids of the
    start deck are found in the state. *)
Lemma go_fish_book_cards_leave_the_game :
  freshGame newWorld
  ∧ Reachable GoFishRules.rules newWorld goFishAfterBook
  ∧ length (startIds newWorld) = 52
  ∧ length (allIds goFishAfterBook) = 48
  ∧ ¬ allIds goFishAfterBook ≡ₚ startIds newWorld.
Proof.
  split_and!.
  - apply newWorld_fresh.
  - apply goFishAfterBook_reachable.
  - by vm_compute.
  - by vm_compute.
  - intros H%Permutation_length. vm_compute in H. discriminate.
Qed.

(** ** Cloning *)

Lemma read_prefix (h h' : list Card.t) rs :
  h `prefix_of` h' → Forall (λ r, r < length h) rs → Heap.read h' rs = Heap.read h rs.
Proof.
  intros [ext ->] Hok. unfold Heap.read. apply Forall_fmap_ext.
  eapply Forall_impl; [exact Hok|]. intros r Hr. simpl in *. by rewrite lookup_app_l.
Qed.

Lemma copyCards_read cs h :
  Forall (λ r, r < length h) cs →
  h `prefix_of` (GameState.copyCards cs h).2
  ∧ Heap.read (GameState.copyCards cs h).2 (GameState.copyCards cs h).1 = Heap.read h cs
  ∧ Forall (λ r, r < length (GameState.copyCards cs h).2) (GameState.copyCards cs h).1.
Proof.
  revert h. induction cs as [|c cs IH]; intros h Hok; simpl.
  - split_and!; [done|done|constructor].
  - apply Forall_cons in Hok as [Hc Hok].
    destruct (lookup_lt_is_Some_2 h c Hc) as [v Hv]. rewrite Hv. simpl.
    destruct (IH (h ++ [v])) as (Hpre & Hread & Hok').
    { eapply Forall_impl; [exact Hok|]. intros r Hr. simpl in *. rewrite length_app. simpl. lia. }
    destruct (GameState.copyCards cs (h ++ [v])) as [r h2] eqn:E. simpl in *.
    assert (Hpre0 : h `prefix_of` h2) by (etrans; [by apply prefix_app_r|exact Hpre]).
    split_and!; [done| |].
    + unfold Heap.read in *. simpl. rewrite Hread. f_equal.
      * destruct Hpre as [ext ->]. rewrite <-(assoc_L (++)).
        by rewrite lookup_app_r, Nat.sub_diag by done.
      * apply Forall_fmap_ext. eapply Forall_impl; [exact Hok|]. intros x Hx. simpl in *.
        by rewrite lookup_app_l.
    + apply Forall_cons. split; [|done].
      destruct Hpre as [ext ->]. rewrite !length_app. simpl. lia.
Qed.

Lemma jsonValue_view v h :
  Forall (λ r, r < length h) (valueRefs v) →
  h `prefix_of` (GameState.jsonValue v h).2
  ∧ viewValue (GameState.jsonValue v h).2 (GameState.jsonValue v h).1 = viewValue h v
  ∧ Forall (λ r, r < length (GameState.jsonValue v h).2)
      (valueRefs (GameState.jsonValue v h).1).
Proof.
  destruct v as [| | |cs|]; simpl; intros Hok; try (split_and!; done).
  destruct (copyCards_read cs h Hok) as (Hpre & Hread & Hok').
  destruct (GameState.copyCards cs h) as [cs' h']. simpl in *.
  split_and!; [done|by rewrite Hread|done].
Qed.

Lemma viewValue_prefix (h h' : list Card.t) v :
  h `prefix_of` h' → Forall (λ r, r < length h) (valueRefs v) →
  viewValue h' v = viewValue h v.
Proof.
  intros Hpre Hok. destruct v; simpl in *; try done. by rewrite (read_prefix h h').
Qed.

Lemma jsonClone_view o h :
  Forall (λ r, r < length h) (customRefs o) →
  h `prefix_of` (GameState.jsonClone o h).2
  ∧ prod_map id (viewValue (GameState.jsonClone o h).2) <$> (GameState.jsonClone o h).1
    = prod_map id (viewValue h) <$> o
  ∧ Forall (λ r, r < length (GameState.jsonClone o h).2)
      (customRefs (GameState.jsonClone o h).1).
Proof.
  revert h. unfold customRefs. induction o as [|[k v] o IH]; intros h Hok; simpl.
  - split_and!; [done|done|constructor].
  - simpl in Hok. apply Forall_app in Hok as [Hv Hok].
    destruct (jsonValue_view v h Hv) as (Hpre1 & Hview1 & Hok1).
    destruct (GameState.jsonValue v h) as [v' h1]. simpl in *.
    destruct (IH h1) as (Hpre2 & Hview2 & Hok2).
    { eapply Forall_impl; [exact Hok|]. intros r Hr. simpl in *.
      apply prefix_length in Hpre1. lia. }
    destruct (GameState.jsonClone o h1) as [o' h2]. simpl in *.
    split_and!.
    + by etrans.
    + f_equal.
      * f_equal. rewrite <-Hview1. apply viewValue_prefix; done.
      * etrans; [exact Hview2|]. apply Forall_fmap_ext. apply Forall_forall.
        intros [k' v'0] Hin. unfold prod_map. simpl. f_equal.
        apply viewValue_prefix; [done|].
        change (Forall (λ r, r < length h) (o ≫= λ kv, valueRefs kv.2)) in Hok.
        rewrite Forall_bind, Forall_forall in Hok. by apply (Hok (k', v'0)).
    + apply Forall_app. split; [|done].
      eapply Forall_impl; [exact Hok1|]. intros r Hr. simpl in *.
      apply prefix_length in Hpre2. lia.
Qed.

Lemma refsOk_parts h s :
  refsOk h s ↔
  Forall (λ r, r < length h) (GameState.deck s)
  ∧ Forall (λ r, r < length h) (GameState.discardPile s)
  ∧ Forall (λ r, r < length h) (handRefs (GameState.players s))
  ∧ Forall (λ r, r < length h) (customRefs (GameState.customState s)).
Proof. unfold refsOk, allRefs. by rewrite !Forall_app. Qed.

Lemma handRefs_clone ps : handRefs (Player.clone <$> ps) = handRefs ps.
Proof. unfold handRefs. induction ps as [|p ps IH]; [done|]. cbn. by f_equal. Qed.

Lemma view_prefix (h h' : list Card.t) s :
  h `prefix_of` h' → refsOk h s → view h' s = view h s.
Proof.
  intros Hpre (Hd & Hp & Hh & Hc)%refsOk_parts. unfold view.
  rewrite !(read_prefix h h') by done. f_equal.
  - apply Forall_fmap_ext. unfold handRefs in Hh. rewrite Forall_bind in Hh.
    eapply Forall_impl; [exact Hh|]. intros p Hp'. simpl in *. unfold viewPlayer.
    by rewrite (read_prefix h h').
  - apply Forall_fmap_ext. unfold customRefs in Hc. rewrite Forall_bind in Hc.
    eapply Forall_impl; [exact Hc|]. intros [k v] Hv. simpl in *. unfold prod_map. simpl.
    f_equal. by apply viewValue_prefix.
Qed.

(** A clone has the value of the original, and cloning allocates only new
    card objects. *)
Lemma clone_view h s :
  refsOk h s →
  h `prefix_of` (GameState.clone s h).2
  ∧ view (GameState.clone s h).2 (GameState.clone s h).1 = view h s
  ∧ refsOk (GameState.clone s h).2 (GameState.clone s h).1.
Proof.
  intros Hok. pose proof Hok as (Hd & Hp & Hh & Hc)%refsOk_parts.
  unfold GameState.clone.
  destruct (jsonClone_view (GameState.customState s) h Hc) as (Hpre & Hview & Hok').
  destruct (GameState.jsonClone (GameState.customState s) h) as [o' h']. simpl in *.
  assert (Hlen : length h ≤ length h') by (by apply prefix_length).
  split_and!; [done| |].
  - unfold view. simpl. unfold Deck.getCards. rewrite !(read_prefix h h') by done.
    rewrite Hview. f_equal. rewrite <-list_fmap_compose. apply Forall_fmap_ext.
    unfold handRefs in Hh. rewrite Forall_bind in Hh.
    eapply Forall_impl; [exact Hh|]. intros p Hp'. simpl in *. unfold viewPlayer. simpl.
    unfold Hand.getCards. by rewrite (read_prefix h h').
  - apply refsOk_parts. simpl. rewrite handRefs_clone. unfold Deck.getCards.
    split_and!; [| | |done]; (eapply Forall_impl; [eassumption|]); intros r Hr; simpl in *; lia.
Qed.

(** ** Restart *)

Lemma restart_run g first rest :
  BaseGame.history g = first :: rest →
  BaseGame.restart g
  = (Returned tt,
     BaseGame.mk (GameState.clone first (BaseGame.store g)).1 [first] []
       (GameState.clone first (BaseGame.store g)).2
       (BaseGame.output g ++ [RenderGameState])).
Proof.
  intros Hh. unfold BaseGame.restart, BaseGame.restore, BaseGame.emit, bind, gets, modify.
  rewrite Hh. simpl. by destruct (GameState.clone first (BaseGame.store g)).
Qed.

Lemma restarts_run g first rest n :
  BaseGame.history g = first :: rest →
  refsOk (BaseGame.store g) first →
  ∃ g',
    restarts (S n) g = (Returned tt, g')
    ∧ BaseGame.history g' = [first]
    ∧ BaseGame.moveHistory g' = []
    ∧ BaseGame.store g `prefix_of` BaseGame.store g'
    ∧ view (BaseGame.store g') (BaseGame.gameState g') = view (BaseGame.store g) first.
Proof.
  revert g rest. induction n as [|n IH]; intros g rest Hh Hok.
  - cbn [restarts]. unfold bind, ret. rewrite (restart_run g first rest Hh).
    destruct (clone_view (BaseGame.store g) first Hok) as (Hpre & Hview & _).
    eexists. split; [reflexivity|]. done.
  - cbn [restarts]. unfold bind at 1. rewrite (restart_run g first rest Hh).
    destruct (clone_view (BaseGame.store g) first Hok) as (Hpre & Hview & _).
    edestruct (IH (BaseGame.mk (GameState.clone first (BaseGame.store g)).1 [first] []
                     (GameState.clone first (BaseGame.store g)).2
                     (BaseGame.output g ++ [RenderGameState])) [])
      as (g' & Hrun & Hh' & Hm' & Hpre' & Hview'); [done| |].
    { simpl. unfold refsOk in *. eapply Forall_impl; [exact Hok|].
      intros r Hr. simpl in *. apply prefix_length in Hpre. lia. }
    exists g'. simpl in *. split_and!; [exact Hrun|done|done|by etrans|].
    rewrite Hview'. by apply view_prefix.
Qed.

(** C5. On an engine with a non-empty history (whose first snapshot holds
    no dangling card reference), any number of calls of [restart] in a row
    leaves the same live state, by value, as a single call: the value of
    [history[0]]; the history is then exactly that one snapshot and the move
    log is empty. *)
Theorem restart_idempotent g first rest n :
  BaseGame.history g = first :: rest →
  refsOk (BaseGame.store g) first →
  let once := (BaseGame.restart g).2 in
  let many := (restarts (S n) g).2 in
  (restarts (S n) g).1 = Returned tt
  ∧ view (BaseGame.store many) (BaseGame.gameState many)
    = view (BaseGame.store once) (BaseGame.gameState once)
  ∧ view (BaseGame.store many) (BaseGame.gameState many)
    = view (BaseGame.store many) first
  ∧ BaseGame.history many = [first]
  ∧ BaseGame.moveHistory many = []
  ∧ BaseGame.history once = [first]
  ∧ BaseGame.moveHistory once = [].
Proof.
  intros Hh Hok once many.
  destruct (restarts_run g first rest n Hh Hok) as (g' & Hrun & Hh' & Hm' & Hpre & Hview).
  destruct (restarts_run g first rest 0 Hh Hok) as (g1 & Hrun1 & Hh1 & Hm1 & Hpre1 & Hview1).
  assert (Hone : g1 = once).
  { unfold once. cbn [restarts] in Hrun1. unfold bind, ret in Hrun1.
    destruct (BaseGame.restart g) as [[[]|e] g1']; by simplify_eq/=. }
  subst g1. unfold many. rewrite Hrun. cbn [fst snd].
  split_and!; [done|by rewrite Hview, Hview1| |done..].
  rewrite Hview. symmetry. by apply view_prefix.
Qed.

(** ** The history and the move log *)

Lemma restore_run s g :
  BaseGame.restore s g
  = (Returned tt,
     BaseGame.mk (GameState.clone s (BaseGame.store g)).1 (BaseGame.history g)
       (BaseGame.moveHistory g) (GameState.clone s (BaseGame.store g)).2 (BaseGame.output g)).
Proof.
  unfold BaseGame.restore, modify. by destruct (GameState.clone s (BaseGame.store g)).
Qed.

Lemma saveState_run g :
  BaseGame.saveState g
  = (Returned tt,
     BaseGame.mk (BaseGame.gameState g)
       (BaseGame.history g ++ [(GameState.clone (BaseGame.gameState g) (BaseGame.store g)).1])
       (BaseGame.moveHistory g) (GameState.clone (BaseGame.gameState g) (BaseGame.store g)).2
       (BaseGame.output g)).
Proof.
  unfold BaseGame.saveState, modify.
  by destruct (GameState.clone (BaseGame.gameState g) (BaseGame.store g)).
Qed.

Lemma onWorld_history {A} (m : Eff World A) g :
  BaseGame.history (BaseGame.onWorld m g).2 = BaseGame.history g
  ∧ BaseGame.moveHistory (BaseGame.onWorld m g).2 = BaseGame.moveHistory g.
Proof. unfold BaseGame.onWorld. by destruct (m (BaseGame.world g)). Qed.

Section Calls.
Variable rules : IGameRules.

(** [start()] pushes the snapshot of the state it finds, whether or not
    [initializeGame] then raises. *)
Lemma start_history rnd g :
  BaseGame.history (BaseGame.start rules rnd g).2
  = BaseGame.history g ++ [(GameState.clone (BaseGame.gameState g) (BaseGame.store g)).1]
  ∧ BaseGame.moveHistory (BaseGame.start rules rnd g).2 = BaseGame.moveHistory g.
Proof.
  unfold BaseGame.start, bind. rewrite saveState_run.
  match goal with |- context [BaseGame.onWorld ?m ?g'] =>
    pose proof (onWorld_history m g') as [H1 H2];
    destruct (BaseGame.onWorld m g') as [[[]|e] g2] end; simpl in *; by rewrite ?H1, ?H2.
Qed.

(** A call of [playMove] that returns either rejects the move and leaves
    history and log alone, or pushes one snapshot and logs the move. *)
Lemma playMove_returns playerId move g b g' :
  BaseGame.playMove rules playerId move g = (Returned b, g') →
  (b = false ∧ BaseGame.history g' = BaseGame.history g
   ∧ BaseGame.moveHistory g' = BaseGame.moveHistory g)
  ∨ (b = true
     ∧ BaseGame.history g'
       = BaseGame.history g ++ [(GameState.clone (BaseGame.gameState g) (BaseGame.store g)).1]
     ∧ BaseGame.moveHistory g' = BaseGame.moveHistory g ++ [(playerId, move)]).
Proof.
  unfold BaseGame.playMove. unfold bind at 1. unfold gets at 1.
  destruct (GameState.getPlayerById playerId (BaseGame.gameState g)) as [player|].
  2:{ unfold bind, BaseGame.emit, modify, ret. intros [= <- <-]. by left. }
  destruct (negb _).
  { unfold bind, BaseGame.emit, modify, ret. intros [= <- <-]. by left. }
  unfold bind at 1, liftO.
  destruct (validateMove rules player move (BaseGame.world g)) as [valid|e]; [|done].
  destruct valid; simpl.
  2:{ unfold bind, BaseGame.emit, modify, ret. intros [= <- <-]. by left. }
  unfold bind at 1. rewrite saveState_run.
  unfold bind at 1.
  match goal with |- context [BaseGame.onWorld ?m ?g1] =>
    pose proof (onWorld_history m g1) as [H1 H2];
    destruct (BaseGame.onWorld m g1) as [[[]|e] g2] end; [|done].
  simpl in H1, H2.
  unfold bind at 1, modify at 1. unfold bind at 1, gets at 1.
  cbn [BaseGame.gameState BaseGame.history BaseGame.moveHistory BaseGame.store
       BaseGame.output BaseGame.world].
  destruct (isGameOver rules _).
  - unfold bind, BaseGame.emit, modify, ret. intros [= <- <-]. right. simpl.
    by rewrite H1, H2.
  - unfold bind at 1. unfold bind at 1.
    match goal with |- context [BaseGame.onWorld ?m ?g1] =>
      pose proof (onWorld_history m g1) as [H3 H4];
      destruct (BaseGame.onWorld m g1) as [[[]|e] g3] end; [|done].
    simpl in H3, H4.
    unfold bind, BaseGame.emit, modify, ret. intros [= <- <-]. right. simpl.
    by rewrite H3, H4, H1, H2.
Qed.
End Calls.

Lemma undo_returns g b g' :
  BaseGame.undo g = (Returned b, g') →
  (b = false ∧ length (BaseGame.history g) ≤ 1
   ∧ BaseGame.history g' = BaseGame.history g
   ∧ BaseGame.moveHistory g' = BaseGame.moveHistory g)
  ∨ (b = true ∧ 1 < length (BaseGame.history g)
     ∧ BaseGame.history g' = removelast (BaseGame.history g)
     ∧ BaseGame.moveHistory g' = removelast (BaseGame.moveHistory g)).
Proof.
  unfold BaseGame.undo. unfold bind at 1, gets at 1.
  destruct (length (BaseGame.history g) <=? 1) eqn:E.
  - apply Nat.leb_le in E. unfold bind, BaseGame.emit, modify, ret.
    intros [= <- <-]. by left.
  - apply Nat.leb_gt in E. unfold bind at 1, modify at 1. unfold bind at 1, gets at 1.
    cbn [BaseGame.history].
    destruct (removelast (BaseGame.history g) !! _) as [s|]; simpl; [|done].
    unfold bind at 1. rewrite restore_run.
    unfold bind, BaseGame.emit, modify, ret. intros [= <- <-]. by right.
Qed.

Section Sequences.
Variable rules : IGameRules.

Lemma call_lockstep snapshot c g r g' :
  inLockstep snapshot g →
  call rules c g = (Returned r, g') →
  inLockstep snapshot g'
  ∧ BaseGame.moveHistory g' = inEffect (BaseGame.moveHistory g) (c, r).
Proof.
  intros (rest & Hh & Hlen). destruct c as [playerId move| |]; simpl; unfold bind, ret.
  - destruct (BaseGame.playMove rules playerId move g) as [[b|e] g1] eqn:E; [|done].
    intros [= <- <-].
    apply playMove_returns in E as [(-> & Hh' & Hm')|(-> & Hh' & Hm')].
    + split; [|done]. exists rest. by rewrite Hh', Hm'.
    + split; [|done]. exists (rest ++ [(GameState.clone (BaseGame.gameState g) (BaseGame.store g)).1]).
      rewrite Hh', Hm', Hh, !length_app. simpl. split; [done|lia].
  - destruct (BaseGame.undo g) as [[b|e] g1] eqn:E; [|done].
    intros [= <- <-].
    apply undo_returns in E as [(-> & _ & Hh' & Hm')|(-> & Hlt & Hh' & Hm')].
    + split; [|done]. exists rest. by rewrite Hh', Hm'.
    + split; [|done]. rewrite Hh in Hlt, Hh'. simpl in Hlt.
      destruct rest as [|s rest _] using rev_ind; [simpl in Hlt; lia|].
      destruct (BaseGame.moveHistory g) as [|m ms _] using rev_ind;
        [rewrite length_app in Hlen; simpl in Hlen; lia|].
      exists rest. rewrite Hh', Hm'.
      change (snapshot :: rest ++ [s]) with ((snapshot :: rest) ++ [s]).
      rewrite !removelast_last. rewrite !length_app in Hlen. simpl in Hlen.
      split; [done|lia].
  - rewrite (restart_run g snapshot rest Hh). intros [= <- <-]. split; [|done].
    by exists [].
Qed.

Lemma calls_lockstep snapshot cs g rs g' :
  inLockstep snapshot g →
  calls rules cs g = (Returned rs, g') →
  inLockstep snapshot g'
  ∧ BaseGame.moveHistory g' = foldl inEffect (BaseGame.moveHistory g) (zip cs rs).
Proof.
  revert g rs. induction cs as [|c cs IH]; intros g rs Hinv; simpl.
  - unfold ret. by intros [= <- <-].
  - unfold bind at 1. destruct (call rules c g) as [[r|e] g1] eqn:E; [|done].
    destruct (call_lockstep snapshot c g r g1 Hinv E) as [Hinv1 Hm1].
    unfold bind at 1. destruct (calls rules cs g1) as [[rs1|e] g2] eqn:E2; [|done].
    unfold ret. intros [= <- <-].
    destruct (IH g1 rs1 Hinv1 E2) as [Hinv2 Hm2]. split; [done|].
    simpl. by rewrite Hm2, Hm1.
Qed.

Lemma start_lockstep rnd g :
  BaseGame.history g = [] → BaseGame.moveHistory g = [] →
  inLockstep (GameState.clone (BaseGame.gameState g) (BaseGame.store g)).1
    (BaseGame.start rules rnd g).2
  ∧ BaseGame.moveHistory (BaseGame.start rules rnd g).2 = [].
Proof.
  intros Hh Hm. destruct (start_history rules rnd g) as [Hh' Hm'].
  split; [|by rewrite Hm', Hm]. exists []. by rewrite Hh', Hm', Hh, Hm.
Qed.

(** C6 (amended). After [start()] has taken the first snapshot, every
    sequence of [playMove], [undo] and [restart] calls each of which
    returns, a move being accepted or rejected, leaves the move log one
    shorter than the history, and the log lists the accepted moves still in
    effect, in order.  A call that raises is left out: it ends the
    sequence. *)
Theorem history_and_log_in_lockstep rnd g0 cs rs g :
  BaseGame.history g0 = [] →
  BaseGame.moveHistory g0 = [] →
  calls rules cs (BaseGame.start rules rnd g0).2 = (Returned rs, g) →
  length (BaseGame.moveHistory g) = length (BaseGame.history g) - 1
  ∧ BaseGame.history g ≠ []
  ∧ BaseGame.moveHistory g = foldl inEffect [] (zip cs rs).
Proof.
  intros Hh Hm Hcalls.
  destruct (start_lockstep rnd g0 Hh Hm) as [Hinv Hm0].
  destruct (calls_lockstep _ cs _ rs g Hinv Hcalls) as [(rest & Hh' & Hlen) Hlog].
  rewrite Hh', <-Hlen. simpl. split_and!; [lia|done|]. by rewrite Hlog, Hm0.
Qed.

Lemma clone_without_cards s h :
  GameState.customState s = [] → GameState.clone s h = (s, h).
Proof.
  destruct s as [dk dp ps cur rd cu]. simpl. intros ->. unfold GameState.clone. simpl.
  unfold Deck.getCards. do 2 f_equal.
  induction ps as [|[] ps IH]; [done|]. rewrite fmap_cons, IH. done.
Qed.

(** C9. [history[0]] is the snapshot that [start()] took before
    [initializeGame] ran, whatever calls followed; [restart()] brings back
    that state: when the state before [start()] had an empty [customState],
    the live state after [restart()] is that very state, with the undealt
    deck and, if the hands were empty then, every hand empty.  [restart]
    takes no rule set: it does not run [initializeGame]. *)
Theorem restart_returns_to_the_state_before_start rnd g0 cs rs g :
  BaseGame.history g0 = [] →
  BaseGame.moveHistory g0 = [] →
  GameState.customState (BaseGame.gameState g0) = [] →
  Forall (λ p, Player.hand p = []) (GameState.players (BaseGame.gameState g0)) →
  calls rules cs (BaseGame.start rules rnd g0).2 = (Returned rs, g) →
  BaseGame.history g !! 0 = Some (BaseGame.gameState g0)
  ∧ (BaseGame.restart g).1 = Returned tt
  ∧ BaseGame.gameState (BaseGame.restart g).2 = BaseGame.gameState g0
  ∧ GameState.deck (BaseGame.gameState (BaseGame.restart g).2)
    = GameState.deck (BaseGame.gameState g0)
  ∧ Forall (λ p, Player.hand p = [])
      (GameState.players (BaseGame.gameState (BaseGame.restart g).2))
  ∧ GameState.customState (BaseGame.gameState (BaseGame.restart g).2) = []
  ∧ BaseGame.history (BaseGame.restart g).2 = [BaseGame.gameState g0]
  ∧ BaseGame.moveHistory (BaseGame.restart g).2 = [].
Proof.
  intros Hh Hm Hcu Hhands Hcalls.
  destruct (start_lockstep rnd g0 Hh Hm) as [Hinv _].
  rewrite (clone_without_cards _ _ Hcu) in Hinv. simpl in Hinv.
  destruct (calls_lockstep _ cs _ rs g Hinv Hcalls) as [(rest & Hh' & _) _].
  rewrite (restart_run g _ rest Hh'), Hh', (clone_without_cards _ _ Hcu). simpl.
  by rewrite Hcu.
Qed.
End Sequences.

(** C6, as stated, fails when a call raises.  The example game of War is
    over after eight accepted moves: the second player holds all 52 cards
    and, no turn being passed once the game is over, is still the current
    player.  The next move of that player passes validation and its snapshot
    is pushed; [applyMove] then raises on the empty hand of the opponent,
    before the move is logged.  The history holds ten snapshots and the log
    eight moves. *)
Lemma war_move_after_the_end_breaks_lockstep :
  let played := calls WarRules.rules warToTheEnd warStarted in
  let g := played.2 in
  let again := BaseGame.playMove WarRules.rules "p2" play g in
  played.1 = Returned (replicate 8 (Some true))
  ∧ length (BaseGame.history g) = 9
  ∧ length (BaseGame.moveHistory g) = 8
  ∧ (Hand.size ∘ Player.hand) <$> GameState.players (BaseGame.gameState g) = [0; 52]
  ∧ GameState.currentPlayerId (BaseGame.gameState g) = "p2"
  ∧ again.1 = Thrown "TypeError: Cannot read properties of undefined (reading 'id')"
  ∧ length (BaseGame.history again.2) = 10
  ∧ length (BaseGame.moveHistory again.2) = 8
  ∧ length (BaseGame.moveHistory again.2) ≠ length (BaseGame.history again.2) - 1.
Proof. vm_compute. split_and!; done. Qed.

(** ** Undo and the snapshots *)

(** C1 fails on the code.  In the example game of War, after [start()] and
    one accepted move, [undo()] returns [true] and leaves one history entry
    and an empty log, but the live state is the state before [start()]
    (nothing dealt, 52 cards in the deck), not the dealt state that held
    before the move. *)
Lemma undo_after_one_move_returns_to_before_start :
  let before := warStarted in
  let after := (BaseGame.undo warAfterOneMove).2 in
  let sizes g := (Hand.size ∘ Player.hand) <$> GameState.players (BaseGame.gameState g) in
  (BaseGame.playMove WarRules.rules "p1" play warStarted).1 = Returned true
  ∧ length (BaseGame.history warAfterOneMove) = 2
  ∧ length (BaseGame.moveHistory warAfterOneMove) = 1
  ∧ (BaseGame.undo warAfterOneMove).1 = Returned true
  ∧ length (BaseGame.history after) = 1
  ∧ length (BaseGame.moveHistory after) = 0
  ∧ sizes before = [26; 26]
  ∧ sizes after = [0; 0]
  ∧ length (GameState.deck (BaseGame.gameState after)) = 52
  ∧ view (BaseGame.store after) (BaseGame.gameState after)
    ≠ view (BaseGame.store before) (BaseGame.gameState before).
Proof.
  split_and!; try (vm_compute; reflexivity).
  intros H. apply (f_equal (length ∘ sv_deck)) in H. vm_compute in H. discriminate.
Qed.

(** C2 fails on the code.  The clone of a state holds new arrays but the
    same card objects: turning a card of the clone's deck face up changes
    the value of the original state. *)
Lemma clone_shares_card_objects :
  let h := [Card.mk "A-Hearts" "A of Hearts" false] in
  let original := GameState.new [0] in
  let copy := (GameState.clone original h).1 in
  let h' := (GameState.clone original h).2 in
  let h'' := from_option (λ card, Heap.setFaceUp card true h') h'
               (Deck.getCards (GameState.deck copy) !! 0) in
  view h' original = view h original
  ∧ sv_deck (view h' original) = [Some (Card.mk "A-Hearts" "A of Hearts" false)]
  ∧ sv_deck (view h'' original) = [Some (Card.mk "A-Hearts" "A of Hearts" true)]
  ∧ view h'' original ≠ view h' original.
Proof. split_and!; try (vm_compute; reflexivity). vm_compute. discriminate. Qed.

(** ** Decks and hands *)

(** X1. Whatever the random draws, [shuffle] returns a permutation of
    the deck: the same cards, and as many. *)
Theorem shuffle_keeps_every_card rnd (cards : list nat) :
  Deck.shuffle rnd cards ≡ₚ cards
  ∧ Deck.size (Deck.shuffle rnd cards) = Deck.size cards.
Proof.
  pose proof (shuffle_perm rnd cards) as Hperm. split; [done|].
  unfold Deck.size. by rewrite Hperm.
Qed.

(** X2. [cut(position)] changes nothing when [position] is not strictly
    between 0 and the size of the deck; otherwise it moves the first
    [position] cards to the bottom, and cutting again at the complementary
    position restores the deck.  In every case the cards are the same. *)
Theorem cut_rotates_the_deck position (cards : list nat) :
  Deck.cut position cards ≡ₚ cards
  ∧ ((position ≤ 0 ∨ Z.of_nat (length cards) ≤ position)%Z →
     Deck.cut position cards = cards)
  ∧ ((0 < position < Z.of_nat (length cards))%Z →
     Deck.cut position cards
     = drop (Z.to_nat position) cards ++ take (Z.to_nat position) cards
     ∧ Deck.cut (Z.of_nat (length cards) - position) (Deck.cut position cards) = cards).
Proof.
  assert (Hin : ∀ p (l : list nat), (0 < p < Z.of_nat (length l))%Z →
            Deck.cut p l = drop (Z.to_nat p) l ++ take (Z.to_nat p) l).
  { intros p l Hp. unfold Deck.cut.
    destruct (Z.leb_spec p 0); [lia|]. destruct (Z.leb_spec (Z.of_nat (length l)) p); [lia|].
    done. }
  assert (Hout : ∀ p (l : list nat), (p ≤ 0 ∨ Z.of_nat (length l) ≤ p)%Z → Deck.cut p l = l).
  { intros p l Hp. unfold Deck.cut.
    destruct (Z.leb_spec p 0); [done|].
    destruct (Z.leb_spec (Z.of_nat (length l)) p); [done|lia]. }
  split_and!.
  - destruct (decide (0 < position < Z.of_nat (length cards))%Z) as [Hp|Hp].
    + rewrite (Hin _ _ Hp). rewrite <-(take_drop (Z.to_nat position) cards) at 3.
      apply Permutation_app_comm.
    + rewrite Hout by lia. done.
  - apply Hout.
  - intros Hp. split; [by apply Hin|].
    rewrite (Hin position cards Hp).
    set (p := Z.to_nat position).
    assert (Hlen : length (drop p cards ++ take p cards) = length cards).
    { rewrite length_app, length_drop, length_take. lia. }
    rewrite Hin by (rewrite Hlen; lia).
    assert (Z.to_nat (Z.of_nat (length cards) - position) = length (drop p cards)) as ->.
    { rewrite length_drop. lia. }
    rewrite drop_app_length, take_app_length. apply take_drop.
Qed.

Lemma drawSpecific_takes_the_first_match h cardId (cards : list nat) :
  match Deck.drawSpecific h cardId cards with
  | (Some c, rest) =>
      ∃ before after,
        cards = before ++ c :: after ∧ rest = before ++ after
        ∧ Heap.id h c = cardId
        ∧ Forall (λ x, Heap.id h x ≠ cardId) before
  | (None, rest) => rest = cards ∧ Forall (λ x, Heap.id h x ≠ cardId) cards
  end.
Proof.
  induction cards as [|c cards IH]; simpl; [done|].
  destruct (String.eqb (Heap.id h c) cardId) eqn:E.
  - apply String.eqb_eq in E. by exists [], cards.
  - apply String.eqb_neq in E.
    destruct (Deck.drawSpecific h cardId cards) as [[found|] rest].
    + destruct IH as (before & after & -> & -> & Hid & Hbefore).
      exists (c :: before), after. split_and!; try done. by constructor.
    + destruct IH as [-> Hall]. split; [done|]. by constructor.
Qed.

Lemma cards_put_on_top_are_drawn_first cs (cards : list nat) c :
  Deck.draw (length cs) (Deck.addMultipleToTop cs cards) = (cs, cards)
  ∧ Deck.removeFromTop (Deck.addToTop c cards) = (Some c, cards)
  ∧ Deck.draw (length cards) (Deck.addMultipleToBottom cs cards) = (cards, cs)
  ∧ Deck.draw (length cards) (Deck.addToBottom c cards) = (cards, [c]).
Proof.
  unfold Deck.draw, Deck.addMultipleToTop, Deck.addMultipleToBottom, Deck.addToBottom.
  rewrite !length_app. split_and!; [|done| |].
  - replace (length cs `min` (length cs + length cards)) with (length cs) by lia.
    by rewrite take_app_length, drop_app_length.
  - replace (length cards `min` (length cards + length cs)) with (length cards) by lia.
    by rewrite take_app_length, drop_app_length.
  - replace (length cards `min` (length cards + length [c])) with (length cards) by lia.
    by rewrite take_app_length, drop_app_length.
Qed.

Lemma draw_in_two_steps n m (cards : list nat) :
  let '(first, rest) := Deck.draw n cards in
  let '(second, rest') := Deck.draw m rest in
  Deck.draw (n + m) cards = (first ++ second, rest')
  ∧ first ++ rest = cards
  ∧ length first = n `min` length cards
  ∧ (length cards ≤ n → first = cards ∧ rest = []).
Proof.
  unfold Deck.draw. rewrite length_drop.
  destruct (decide (n ≤ length cards)) as [Hn|Hn].
  - replace (n `min` length cards) with n by lia.
    split_and!.
    + f_equal.
      * destruct (decide (m ≤ length cards - n)).
        -- replace (m `min` (length cards - n)) with m by lia.
           replace ((n + m) `min` length cards) with (n + m) by lia.
           by rewrite take_take_drop.
        -- replace (m `min` (length cards - n)) with (length cards - n) by lia.
           replace ((n + m) `min` length cards) with (n + (length cards - n)) by lia.
           by rewrite take_take_drop.
      * rewrite drop_drop. f_equal. lia.
    + apply take_drop.
    + rewrite length_take. lia.
    + intros ?. assert (n = length cards) as -> by lia.
      by rewrite firstn_all, drop_all.
  - replace (n `min` length cards) with (length cards) by lia.
    replace (m `min` (length cards - length cards)) with 0 by lia.
    replace ((n + m) `min` length cards) with (length cards) by lia.
    rewrite firstn_all, drop_all. simpl. rewrite app_nil_r. split_and!; try done.
Qed.

(** X3. [draw] takes cards from the front of the deck and never more than
    there are: drawing [n] and then [m] cards is drawing [n + m]; cards put on
    top are the first drawn, in the order given, and cards put at the bottom
    come after the ones that were there. *)
Theorem draw_takes_from_the_top n m cs c (cards : list nat) :
  (let '(first, rest) := Deck.draw n cards in
   let '(second, rest') := Deck.draw m rest in
   Deck.draw (n + m) cards = (first ++ second, rest')
   ∧ first ++ rest = cards
   ∧ length first = n `min` length cards
   ∧ (length cards ≤ n → first = cards ∧ rest = []))
  ∧ Deck.draw (length cs) (Deck.addMultipleToTop cs cards) = (cs, cards)
  ∧ Deck.removeFromTop (Deck.addToTop c cards) = (Some c, cards)
  ∧ Deck.draw (length cards) (Deck.addMultipleToBottom cs cards) = (cards, cs)
  ∧ Deck.draw (length cards) (Deck.addToBottom c cards) = (cards, [c]).
Proof.
  split; [apply draw_in_two_steps|apply cards_put_on_top_are_drawn_first].
Qed.

Lemma removeCard_takes_the_first_match h cardId (hand : list nat) :
  match Hand.removeCard h cardId hand with
  | (Some c, rest) =>
      ∃ before after,
        hand = before ++ c :: after ∧ rest = before ++ after
        ∧ Heap.id h c = cardId
        ∧ Forall (λ x, Heap.id h x ≠ cardId) before
  | (None, rest) => rest = hand ∧ Forall (λ x, Heap.id h x ≠ cardId) hand
  end.
Proof.
  induction hand as [|c hand IH]; simpl; [done|].
  destruct (String.eqb (Heap.id h c) cardId) eqn:E.
  - apply String.eqb_eq in E. by exists [], hand.
  - apply String.eqb_neq in E.
    destruct (Hand.removeCard h cardId hand) as [[found|] rest].
    + destruct IH as (before & after & -> & -> & Hid & Hbefore).
      exists (c :: before), after. split_and!; try done. by constructor.
    + destruct IH as [-> Hall]. split; [done|]. by constructor.
Qed.

(** X4. [Deck.drawSpecific] and [Hand.removeCard] do the same: they take the
    first card with the given id out, leaving the other cards in order; when
    no card has the id they return nothing and leave the cards alone. *)
Theorem the_first_card_with_the_id_is_taken h cardId (cards : list nat) :
  Deck.drawSpecific h cardId cards = Hand.removeCard h cardId cards
  ∧ match Hand.removeCard h cardId cards with
    | (Some c, rest) =>
        ∃ before after,
          cards = before ++ c :: after ∧ rest = before ++ after
          ∧ Heap.id h c = cardId
          ∧ Forall (λ x, Heap.id h x ≠ cardId) before
    | (None, rest) => rest = cards ∧ Forall (λ x, Heap.id h x ≠ cardId) cards
    end.
Proof.
  split; [|apply removeCard_takes_the_first_match].
  induction cards as [|c cards IH]; simpl; [done|]. by rewrite IH.
Qed.

(** X5. [removeCards(ids)] splits the hand, keeping the order, into the cards
    whose id is listed, which it returns, and those whose id is not, which
    stay; removing the same ids again takes nothing. *)
Theorem removeCards_splits_the_hand h cardIds (hand : list nat) :
  let '(removed, remaining) := Hand.removeCards h cardIds hand in
  removed ++ remaining ≡ₚ hand
  ∧ Forall (λ c, Heap.id h c ∈ cardIds) removed
  ∧ Forall (λ c, Heap.id h c ∉ cardIds) remaining
  ∧ removed `sublist_of` hand
  ∧ remaining `sublist_of` hand
  ∧ Hand.removeCards h cardIds remaining = ([], remaining).
Proof.
  unfold Hand.removeCards. split_and!.
  - induction hand as [|c hand IH]; [done|].
    rewrite !filter_cons. destruct (decide (Heap.id h c ∈ cardIds)).
    + rewrite decide_False by tauto. simpl. by rewrite IH.
    + rewrite decide_True by done. rewrite <-Permutation_middle. by rewrite IH.
  - apply Forall_forall. by intros c [? _]%list_elem_of_filter.
  - apply Forall_forall. by intros c [? _]%list_elem_of_filter.
  - apply sublist_filter.
  - apply sublist_filter.
  - f_equal.
    + apply filter_none. apply Forall_forall. by intros c [? _]%list_elem_of_filter.
    + apply filter_all. apply Forall_forall. by intros c [? _]%list_elem_of_filter.
Qed.

Lemma hand_lookups_agree h cardId (hand : list nat) :
  Hand.getCard h cardId hand = (Hand.removeCard h cardId hand).1
  ∧ Hand.hasCard h cardId hand = bool_decide (is_Some (Hand.getCard h cardId hand))
  ∧ match Hand.getCard h cardId hand with
    | Some c => c ∈ hand ∧ Heap.id h c = cardId
    | None =>
        Forall (λ x, Heap.id h x ≠ cardId) hand
        ∧ Hand.removeCard h cardId hand = (None, hand)
    end.
Proof.
  unfold Hand.getCard, Hand.hasCard.
  induction hand as [|c hand IH]; simpl; [done|].
  destruct (String.eqb (Heap.id h c) cardId) eqn:E.
  - apply String.eqb_eq in E. split_and!; try done. apply elem_of_cons. by left.
  - apply String.eqb_neq in E. destruct IH as (IH1 & IH2 & IH3).
    destruct (Hand.removeCard h cardId hand) as [r rest] eqn:Hr. simpl in *.
    split_and!; try done.
    destruct (find _ hand) as [c'|].
    + destruct IH3. split; [|done]. apply elem_of_cons. by right.
    + destruct IH3 as [Hall [= -> ->]]. split; [by constructor|done].
Qed.

(** ** Card objects *)

(** X6. [flip] turns one card over and changes nothing else: ids, names and
    the other cards are as before, and flipping twice restores the card. *)
Theorem flip_twice_restores_the_card r (h : list Card.t) :
  Heap.flip r (Heap.flip r h) = h
  ∧ (∀ r', Heap.id (Heap.flip r h) r' = Heap.id h r')
  ∧ (∀ r', Heap.name (Heap.flip r h) r' = Heap.name h r')
  ∧ (∀ r', r' ≠ r → Heap.flip r h !! r' = h !! r')
  ∧ Card.isFaceUp <$> Heap.flip r h !! r = negb ∘ Card.isFaceUp <$> h !! r.
Proof.
  unfold Heap.flip. destruct (h !! r) as [c|] eqn:Hr.
  - assert (Hlt : r < length h) by (by eapply lookup_lt_Some).
    split_and!.
    + rewrite list_lookup_insert_eq by done. rewrite list_insert_insert_eq.
      destruct c as [i n f]. unfold Card.flip. simpl. rewrite negb_involutive.
      by apply list_insert_id.
    + intros r'. unfold Heap.id. destruct (decide (r' = r)) as [->|Hne].
      * by rewrite list_lookup_insert_eq, Hr.
      * by rewrite list_lookup_insert_ne.
    + intros r'. unfold Heap.name. destruct (decide (r' = r)) as [->|Hne].
      * by rewrite list_lookup_insert_eq, Hr.
      * by rewrite list_lookup_insert_ne.
    + intros r' Hne. by rewrite list_lookup_insert_ne.
    + by rewrite list_lookup_insert_eq.
  - rewrite Hr. done.
Qed.

(** X7. [Card.clone()] makes a new object with the fields of the card:
    flipping the clone leaves the card unchanged, and flipping the card
    leaves the clone unchanged. *)
Theorem card_clone_is_a_separate_object r (h : list Card.t) :
  match Heap.clone r h with
  | (Some r', h') =>
      r' ≠ r
      ∧ h' !! r' = h !! r
      ∧ h' !! r = h !! r
      ∧ Heap.flip r' h' !! r = h !! r
      ∧ Heap.flip r h' !! r' = h !! r
  | (None, h') => h' = h ∧ h !! r = None
  end.
Proof.
  unfold Heap.clone, Heap.alloc. destruct (h !! r) as [c|] eqn:Hr; [|done].
  assert (Hlt : r < length h) by (by eapply lookup_lt_Some).
  assert (Hc : Card.clone c = c) by (by destruct c).
  rewrite Hc.
  assert (Hnew : (h ++ [c]) !! length h = Some c).
  { by rewrite lookup_app_r, Nat.sub_diag by lia. }
  assert (Hold : (h ++ [c]) !! r = Some c) by (by rewrite lookup_app_l).
  split_and!; try done; [lia| |].
  - unfold Heap.flip. rewrite Hnew. rewrite list_lookup_insert_ne by lia. done.
  - unfold Heap.flip. rewrite Hold. rewrite list_lookup_insert_ne by lia. done.
Qed.

(** ** Players of a state *)

Lemma addPlayer_later player s :
  GameState.players s ≠ [] →
  GameState.addPlayer player s
  = GameState.setPlayers (GameState.players s ++ [player]) s.
Proof.
  intros Hne. unfold GameState.addPlayer. simpl. rewrite length_app. simpl.
  destruct (GameState.players s) as [|p ps]; [done|]. simpl.
  replace (length ps + 1) with (S (length ps)) by lia. done.
Qed.

(** X8. On a new [GameState], [addPlayer] appends players in order, and the
    first player added becomes the current player; later additions do not
    change the current player. *)
Theorem first_player_added_becomes_current deck p ps :
  let s := foldl (λ s p, GameState.addPlayer p s) (GameState.new deck) (p :: ps) in
  GameState.players s = p :: ps
  ∧ GameState.currentPlayerId s = Player.id p
  ∧ GameState.deck s = deck
  ∧ GameState.customState s = [].
Proof.
  cbn [foldl].
  assert (Hfirst : GameState.addPlayer p (GameState.new deck)
                   = GameState.mk deck [] [p] (Player.id p) 1 []) by reflexivity.
  rewrite Hfirst. set (s1 := GameState.mk deck [] [p] (Player.id p) 1 []).
  assert (Hgen : ∀ qs s, GameState.players s ≠ [] →
            let s' := foldl (λ s p, GameState.addPlayer p s) s qs in
            GameState.players s' = GameState.players s ++ qs
            ∧ GameState.currentPlayerId s' = GameState.currentPlayerId s
            ∧ GameState.deck s' = GameState.deck s
            ∧ GameState.customState s' = GameState.customState s).
  { induction qs as [|q qs IH]; intros s Hne; simpl.
    - by rewrite app_nil_r.
    - rewrite addPlayer_later by done.
      destruct (IH (GameState.setPlayers (GameState.players s ++ [q]) s)) as (H1 & H2 & H3 & H4).
      { simpl. by destruct (GameState.players s). }
      simpl in *. rewrite H1, H2, H3, H4. by rewrite <-(assoc_L (++)). }
  destruct (Hgen ps s1) as (H1 & H2 & H3 & H4); [done|].
  by rewrite H1, H2, H3, H4.
Qed.

Lemma findIndex_split (f : Player.t → bool) ps :
  match GameState.findIndex f ps with
  | Some i =>
      ∃ before p after,
        ps = before ++ p :: after ∧ i = length before ∧ f p = true
        ∧ Forall (λ q, f q = false) before
  | None => Forall (λ q, f q = false) ps
  end.
Proof.
  induction ps as [|p ps IH]; simpl; [done|].
  destruct (f p) eqn:E.
  - by exists [], p, ps.
  - destruct (GameState.findIndex f ps) as [i|]; simpl.
    + destruct IH as (before & q & after & -> & -> & Hq & Hall).
      exists (p :: before), q, after. split_and!; try done. by constructor.
    + by constructor.
Qed.

Lemma removePlayer_takes_the_first_match playerId s :
  match GameState.removePlayer playerId s with
  | (Some p, s') =>
      ∃ before after,
        GameState.players s = before ++ p :: after
        ∧ GameState.players s' = before ++ after
        ∧ Player.id p = playerId
        ∧ Forall (λ q, Player.id q ≠ playerId) before
        ∧ GameState.currentPlayerId s' = GameState.currentPlayerId s
  | (None, s') =>
      s' = s ∧ Forall (λ q, Player.id q ≠ playerId) (GameState.players s)
  end.
Proof.
  unfold GameState.removePlayer, GameState.getPlayerById.
  pose proof (findIndex_split (λ p, String.eqb (Player.id p) playerId) (GameState.players s))
    as Hsplit.
  destruct (GameState.findIndex _ _) as [i|].
  - destruct Hsplit as (before & p & after & Hps & -> & Hp & Hall).
    rewrite Hps. rewrite list_lookup_middle by done.
    exists before, after. simpl. split_and!; try done.
    + clear. induction before; simpl; [done|]. by f_equal.
    + by apply String.eqb_eq.
    + eapply Forall_impl; [exact Hall|]. intros q Hq. by apply String.eqb_neq.
  - split; [done|]. eapply Forall_impl; [exact Hsplit|]. intros q Hq. by apply String.eqb_neq.
Qed.

(** X9. [removePlayer] does not touch [currentPlayerId]: when the players'
    ids are distinct and the current player is removed, the state is left
    with an id that names no player, and [getCurrentPlayer()] finds none. *)
Theorem removing_the_current_player_leaves_none_current s :
  NoDup (Player.id <$> GameState.players s) →
  is_Some (GameState.getCurrentPlayer s) →
  let s' := (GameState.removePlayer (GameState.currentPlayerId s) s).2 in
  GameState.currentPlayerId s' = GameState.currentPlayerId s
  ∧ GameState.getCurrentPlayer s' = None
  ∧ length (GameState.players s') + 1 = length (GameState.players s).
Proof.
  intros Hnd [i Hi].
  unfold GameState.getCurrentPlayer in Hi.
  unfold GameState.removePlayer. rewrite Hi. cbn [snd].
  unfold GameState.getPlayerById in Hi.
  pose proof (findIndex_split (λ p, String.eqb (Player.id p) (GameState.currentPlayerId s))
                (GameState.players s)) as Hsplit.
  rewrite Hi in Hsplit. destruct Hsplit as (before & p & after & Hps & -> & Hp & Hall).
  apply String.eqb_eq in Hp.
  assert (Hdel : delete (length before) (GameState.players s) = before ++ after).
  { rewrite Hps. clear. induction before; simpl; [done|]. by f_equal. }
  unfold GameState.getCurrentPlayer, GameState.getPlayerById, GameState.setPlayers.
  cbn [GameState.players GameState.currentPlayerId]. rewrite Hdel.
  split_and!; [done| |].
  - pose proof (findIndex_split (λ p, String.eqb (Player.id p) (GameState.currentPlayerId s))
                  (before ++ after)) as Hsplit.
    destruct (GameState.findIndex _ (before ++ after)) as [j|]; [|done].
    destruct Hsplit as (b' & q & a' & Hba & _ & Hq & _).
    apply String.eqb_eq in Hq.
    rewrite Hps, fmap_app, fmap_cons in Hnd. apply NoDup_app in Hnd as (_ & Hbp & Hpa).
    apply NoDup_cons in Hpa as [Hpa _].
    assert (Hin : q ∈ before ++ after).
    { rewrite Hba. apply elem_of_app. right. apply elem_of_cons. by left. }
    apply elem_of_app in Hin as [Hin|Hin].
    + destruct (Hbp (Player.id q)); [by apply list_elem_of_fmap_2|].
      rewrite Hq, <-Hp. apply elem_of_cons. by left.
    + destruct Hpa. rewrite Hp, <-Hq. by apply list_elem_of_fmap_2.
  - rewrite Hps, !length_app. simpl. lia.
Qed.

Lemma added_player_is_found_by_id player s playerId :
  GameState.getPlayerById (Player.id player) (GameState.addPlayer player s)
  = Some (default (length (GameState.players s))
            (GameState.getPlayerById (Player.id player) s))
  ∧ (playerId ≠ Player.id player →
     GameState.getPlayerById playerId (GameState.addPlayer player s)
     = GameState.getPlayerById playerId s)
  ∧ GameState.players (GameState.addPlayer player s) = GameState.players s ++ [player].
Proof.
  assert (Hps : GameState.players (GameState.addPlayer player s)
                = GameState.players s ++ [player]).
  { unfold GameState.addPlayer. by destruct (_ && _). }
  unfold GameState.getPlayerById. rewrite Hps.
  assert (Happ : ∀ f ps, GameState.findIndex f (ps ++ [player])
            = match GameState.findIndex f ps with
              | Some i => Some i
              | None => if f player then Some (length ps) else None
              end).
  { intros f ps. induction ps as [|p ps IH]; simpl.
    - by destruct (f player).
    - destruct (f p); [done|]. rewrite IH.
      destruct (GameState.findIndex f ps); [done|]. by destruct (f player). }
  rewrite !Happ. split_and!; [|intros Hne|done].
  - rewrite String.eqb_refl. by destruct (GameState.findIndex _ _).
  - destruct (GameState.findIndex _ _); [done|].
    apply not_eq_sym, String.eqb_neq in Hne. by rewrite Hne.
Qed.

(** ** Custom state *)

(** X10. [getCustomState(key, default)] after [setCustomState(key, value)]
    returns the value, except that a stored [null] reads as the default; other
    keys read as before.  (The key ["__proto__"] is not a property write in
    JavaScript and is excluded.) *)
Theorem custom_state_round_trip key value defaultValue key' s :
  key ≠ "__proto__" →
  GameState.getCustomState key defaultValue (GameState.setCustomState key value s)
  = (if value is VNull then defaultValue else value)
  ∧ (key' ≠ key →
     GameState.getCustomState key' defaultValue (GameState.setCustomState key value s)
     = GameState.getCustomState key' defaultValue s).
Proof.
  intros _. unfold GameState.getCustomState, GameState.customValue, GameState.setCustomState.
  simpl. split.
  - rewrite get_set_eq. by destruct value.
  - intros Hne. by rewrite get_set_ne.
Qed.

(** ** Cloning: shared cards, copied custom state *)

Lemma copyCards_fresh cs : ∀ h,
  Forall (λ r, r < length h) cs →
  Forall (λ r, length h ≤ r) (GameState.copyCards cs h).1.
Proof.
  induction cs as [|c cs IH]; intros h Hok; simpl; [constructor|].
  apply Forall_cons in Hok as [Hc Hok].
  destruct (lookup_lt_is_Some_2 h c Hc) as [v Hv]. rewrite Hv. simpl.
  specialize (IH (h ++ [v])).
  destruct (GameState.copyCards cs (h ++ [v])) as [r h2]. simpl in *.
  apply Forall_cons. split; [done|].
  eapply Forall_impl; [apply IH|].
  - eapply Forall_impl; [exact Hok|]. intros x Hx. simpl in *. rewrite length_app. simpl. lia.
  - intros x Hx. simpl in *. rewrite length_app in Hx. simpl in Hx. lia.
Qed.

Lemma jsonClone_fresh o : ∀ h,
  Forall (λ r, r < length h) (customRefs o) →
  Forall (λ r, length h ≤ r) (customRefs (GameState.jsonClone o h).1).
Proof.
  unfold customRefs. induction o as [|[k v] o IH]; intros h Hok; simpl; [constructor|].
  simpl in Hok. apply Forall_app in Hok as [Hv Ho].
  pose proof (jsonValue_view v h Hv) as (Hpre & _ & _).
  assert (Hfresh : Forall (λ r, length h ≤ r) (valueRefs (GameState.jsonValue v h).1)).
  { destruct v; simpl; try constructor. simpl in Hv.
    pose proof (copyCards_fresh cs h Hv). by destruct (GameState.copyCards cs h). }
  destruct (GameState.jsonValue v h) as [v' h1]. simpl in *.
  assert (Hlen : length h ≤ length h1) by (by apply prefix_length).
  specialize (IH h1).
  destruct (GameState.jsonClone o h1) as [r h2]. simpl in *.
  apply Forall_app. split; [done|].
  eapply Forall_impl; [apply IH|].
  - eapply Forall_impl; [exact Ho|]. intros x Hx. simpl in *. lia.
  - intros x Hx. simpl in *. lia.
Qed.

(** X11. When no reference of the state dangles, [clone()] yields a state
    with the value of the original and leaves the original's value alone; its
    deck and hands hold the same card objects, while every card held in its
    [customState] is a new object. *)
Theorem clone_has_the_value_of_the_original h s :
  refsOk h s →
  let '(copy, h') := GameState.clone s h in
  view h' copy = view h s
  ∧ view h' s = view h s
  ∧ h `prefix_of` h'
  ∧ GameState.deck copy = GameState.deck s
  ∧ handRefs (GameState.players copy) = handRefs (GameState.players s)
  ∧ Forall (λ r, length h ≤ r) (customRefs (GameState.customState copy)).
Proof.
  intros Hok. pose proof (clone_view h s Hok) as (Hpre & Hview & _).
  pose proof Hok as (_ & _ & _ & Hc)%refsOk_parts.
  pose proof (jsonClone_fresh _ h Hc) as Hfresh.
  unfold GameState.clone in *.
  destruct (GameState.jsonClone (GameState.customState s) h) as [o' h']. simpl in *.
  split_and!; try done.
  - by apply view_prefix.
  - apply handRefs_clone.
Qed.

(** ** Ranks and suits *)

Lemma split_dash_no_dash s : has_dash s = false → split_dash s = [s].
Proof.
  induction s as [|c s IH]; simpl; [done|].
  destruct (Ascii.eqb c "-"); [done|]. simpl. intros Hs. by rewrite IH.
Qed.

Lemma split_dash_append rank rest :
  has_dash rank = false → split_dash (rank +:+ "-" +:+ rest) = rank :: split_dash rest.
Proof.
  induction rank as [|c rank IH]; simpl; [done|].
  destruct (Ascii.eqb c "-") eqn:E; [done|]. simpl. intros Hs.
  change (String.append rank (String "-" rest)) with (rank +:+ "-" +:+ rest).
  by rewrite IH.
Qed.

Lemma split_head_split_dash s : split_head s = default EmptyString (head (split_dash s)).
Proof.
  induction s as [|c s IH]; simpl; [done|].
  destruct (Ascii.eqb c "-"); [done|]. rewrite IH.
  by destruct (split_dash s).
Qed.

(** X12. For a card whose id is [rank-suit], with no dash inside the rank or
    the suit, splitting the id at the dashes gives back the two parts: the
    rank that the rules read and the suit of [getCardSuit]. *)
Theorem id_encodes_rank_and_suit h card rank suit :
  Heap.id h card = rank +:+ "-" +:+ suit →
  has_dash rank = false →
  has_dash suit = false →
  split_dash (Heap.id h card) = [rank; suit]
  ∧ GoFishRules.getCardRank h card = rank
  ∧ CardUtils.getCardSuit h card = suit.
Proof.
  intros Hid Hrank Hsuit.
  assert (Hsplit : split_dash (Heap.id h card) = [rank; suit]).
  { by rewrite Hid, split_dash_append, split_dash_no_dash. }
  split_and!; [done| |].
  - unfold GoFishRules.getCardRank. by rewrite split_head_split_dash, Hsplit.
  - unfold CardUtils.getCardSuit. by rewrite Hsplit.
Qed.

(** X13. For cards whose ids begin with ranks of the standard deck,
    [CardUtils.getCardRank] is the position of the rank in 2, 3, ..., K, A,
    counted from 2, and [compareCardsByRank] is the difference of the two
    positions; the rank that War reads is the same number. *)
Theorem compareCardsByRank_follows_the_rank_order h card1 card2 i j rank1 rank2 suit1 suit2 :
  CardUtils.ranks !! i = Some rank1 →
  CardUtils.ranks !! j = Some rank2 →
  Heap.id h card1 = rank1 +:+ "-" +:+ suit1 →
  Heap.id h card2 = rank2 +:+ "-" +:+ suit2 →
  CardUtils.getCardRank h card1 = Some (i + 2)
  ∧ CardUtils.getCardRank h card2 = Some (j + 2)
  ∧ CardUtils.compareCardsByRank h card1 card2 = Some (Z.of_nat i - Z.of_nat j)%Z
  ∧ WarRules.getCardRank h card1 = i + 2.
Proof.
  assert (Hrank : ∀ c k r s, CardUtils.ranks !! k = Some r → Heap.id h c = r +:+ "-" +:+ s →
            CardUtils.getCardRank h c = Some (k + 2) ∧ WarRules.getCardRank h c = k + 2).
  { intros c k r s Hk Hid. unfold CardUtils.getCardRank, WarRules.getCardRank. rewrite Hid.
    do 13 (destruct k as [|k]; [injection Hk as <-; done|]). done. }
  intros Hi Hj H1 H2.
  destruct (Hrank _ _ _ _ Hi H1) as [R1 W1], (Hrank _ _ _ _ Hj H2) as [R2 _].
  split_and!; try done.
  unfold CardUtils.compareCardsByRank. rewrite R1, R2. simpl. f_equal. lia.
Qed.

Lemma unknown_rank_counts_as_zero h card :
  let rank := split_head (Heap.id h card) in
  rank ∉ CardUtils.ranks →
  CardUtils.getCardRank h card = (if inherited rank then None else Some 0)
  ∧ CardUtils.compareCardsByRank h card card
    = (if inherited rank then None else Some 0%Z).
Proof.
  intros rank Hrank. unfold CardUtils.compareCardsByRank, CardUtils.getCardRank. fold rank.
  assert (Hget : JsObject.get rank CardUtils.rankMap = None).
  { destruct (JsObject.get rank CardUtils.rankMap) as [n|] eqn:E; [|done].
    destruct Hrank. unfold CardUtils.rankMap in E. simpl in E.
    repeat match type of E with
      | (if String.eqb rank ?r then _ else _) = _ =>
          destruct (String.eqb_spec rank r) as [->|_]; [set_solver|]
      end. done. }
  rewrite Hget. by destruct (inherited rank).
Qed.

(** ** Grouping cards *)

(** Pushing a card onto the group of a key adds exactly that card to the
    cards of the groups. *)
Lemma push_perm k (c : nat) (o : list (string * list nat)) :
  NoDup (JsObject.keys o) →
  mjoin (JsObject.values (JsObject.set k (default [] (JsObject.get k o) ++ [c]) o))
  ≡ₚ mjoin (JsObject.values o) ++ [c].
Proof.
  intros Hnd. unfold JsObject.values.
  rewrite (set_perm k _ o Hnd), fmap_cons. cbn [snd mjoin list_join].
  destruct (JsObject.get k o) as [old|] eqn:E; simpl.
  - destruct (replace_split k old old o E) as (l1 & l2 & Ho & Hk & _).
    rewrite Ho at 2. rewrite Ho in Hnd.
    unfold JsObject.keys in Hnd. rewrite fmap_app, fmap_cons in Hnd.
    apply NoDup_app in Hnd as (_ & Hdis & Hnd2). apply NoDup_cons in Hnd2 as [Hk2 _].
    assert (Hf : filter (λ kv : string * list nat, kv.1 ≠ k) o = l1 ++ l2).
    { rewrite Ho, filter_app, filter_cons. simpl. rewrite decide_False by tauto.
      rewrite !filter_all; [done| |]; by apply other_keys. }
    rewrite Hf, !fmap_app, fmap_cons, !join_app. simpl. solve_Permutation.
  - apply get_None_keys in E. rewrite filter_all by (by apply other_keys).
    solve_Permutation.
Qed.

Lemma groupInto_perm h cards : ∀ o,
  NoDup (JsObject.keys o) →
  NoDup (JsObject.keys (CardUtils.groupInto h cards o))
  ∧ mjoin (JsObject.values (CardUtils.groupInto h cards o))
    ≡ₚ mjoin (JsObject.values o) ++ cards.
Proof.
  induction cards as [|c cards IH]; intros o Hnd; simpl.
  - by rewrite app_nil_r.
  - destruct (IH (JsObject.set (split_head (Heap.id h c))
                    (default [] (JsObject.get (split_head (Heap.id h c)) o) ++ [c]) o))
      as [Hnd' Hperm]; [by apply set_keys_NoDup|].
    split; [done|]. rewrite Hperm, push_perm by done. by rewrite <-(assoc_L (++)).
Qed.

(** X14. [groupCardsByRank] loses and invents no card (for ranks that are not
    names inherited from [Object.prototype]): the keys are distinct, the
    groups together are a permutation of the cards, each group holds exactly
    the cards of its rank, in order, and no group is empty. *)
Theorem groupCardsByRank_partitions_the_cards h cards :
  Forall (λ c, inherited (GoFishRules.getCardRank h c) = false) cards →
  let groups := CardUtils.groupCardsByRank h cards in
  NoDup (JsObject.keys groups)
  ∧ mjoin (JsObject.values groups) ≡ₚ cards
  ∧ (∀ rank group,
       (rank, group) ∈ groups
       ↔ group = filter (λ c, GoFishRules.getCardRank h c = rank) cards ∧ group ≠ [])
  ∧ (cards ≠ [] → groups ≠ []).
Proof.
  intros _ groups.
  destruct (groupInto_perm h cards []) as [Hnd Hperm]; [constructor|].
  split_and!; [done|done| |].
  - intros rank group. split; [apply group_sound|].
    intros [-> Hne].
    destruct (filter _ cards) as [|c rest] eqn:E; [done|].
    assert (Hc : c ∈ filter (λ c, GoFishRules.getCardRank h c = rank) cards)
      by (rewrite E; apply elem_of_cons; by left).
    apply list_elem_of_filter in Hc as [Hr Hc]. rewrite <-E, <-Hr.
    by apply group_complete.
  - intros Hne Hnil. unfold groups in Hnil. fold (CardUtils.groupCardsByRank h cards) in Hperm.
    rewrite Hnil in Hperm. simpl in Hperm. apply Permutation_nil_l in Hperm. done.
Qed.

Lemma keys_set_other {V} k (v : V) o k' :
  k' ∈ JsObject.keys (JsObject.set k v o) → k' ≠ k → k' ∈ JsObject.keys o.
Proof.
  intros Hin Hne. apply dec_stable. intros Hk. apply get_None_keys in Hk.
  assert (Hn : JsObject.get k' (JsObject.set k v o) = None) by (by rewrite get_set_ne).
  by apply get_None_keys in Hn.
Qed.

Lemma groupBySuitInto_grouped h cards : ∀ done o,
  groupedBySuit h done o →
  match CardUtils.groupBySuitInto h cards o with
  | Returned groups =>
      Forall (λ c, inherited (CardUtils.getCardSuit h c) = false
                   ∨ CardUtils.getCardSuit h c ∈ JsObject.keys o) cards
      ∧ groupedBySuit h (done ++ cards) groups
      ∧ mjoin (JsObject.values groups) ≡ₚ mjoin (JsObject.values o) ++ cards
  | Thrown _ =>
      Exists (λ c, inherited (CardUtils.getCardSuit h c) = true) cards
  end.
Proof.
  induction cards as [|c cards IH]; intros done o [Hnd Hget]; simpl.
  - rewrite !app_nil_r. split_and!; [constructor|done|done].
  - set (suit := CardUtils.getCardSuit h c).
    assert (Hstep : groupedBySuit h (done ++ [c])
                      (JsObject.set suit (default [] (JsObject.get suit o) ++ [c]) o)).
    { split; [by apply set_keys_NoDup|].
      intros r. rewrite filter_app, filter_cons, filter_nil. fold suit.
      destruct (decide (suit = r)) as [<-|Hne].
      - rewrite get_set_eq, Hget.
        destruct (decide (filter _ done = [])) as [->|_]; simpl; [done|].
        by rewrite decide_False by (by intros [_ ?]%app_eq_nil).
      - rewrite get_set_ne, Hget, app_nil_r by done. done. }
    assert (Hpush := push_perm suit c o Hnd).
    rewrite (assoc_L (++) done [c] cards : done ++ c :: cards = (done ++ [c]) ++ cards).
    destruct (JsObject.get suit o) as [group|] eqn:E; simpl in *.
    + specialize (IH (done ++ [c]) _ Hstep).
      destruct (CardUtils.groupBySuitInto h cards _) as [groups|msg].
      * destruct IH as (Hall & Hg & Hperm). split_and!; [|done|].
        -- constructor.
           ++ right. fold suit. apply dec_stable. intros Hk. apply get_None_keys in Hk. congruence.
           ++ eapply Forall_impl; [exact Hall|]. intros x [Hx|Hx]; [by left|].
              destruct (decide (CardUtils.getCardSuit h x = suit)) as [Heq|Hne].
              ** right. rewrite Heq. apply dec_stable. intros Hk. apply get_None_keys in Hk.
                 congruence.
              ** right. by eapply keys_set_other.
        -- rewrite Hperm, Hpush. by rewrite <-(assoc_L (++)).
      * by apply Exists_cons_tl.
    + destruct (inherited suit) eqn:Hinh; [by apply Exists_cons_hd|].
      specialize (IH (done ++ [c]) _ Hstep).
      destruct (CardUtils.groupBySuitInto h cards _) as [groups|msg].
      * destruct IH as (Hall & Hg & Hperm). split_and!; [|done|].
        -- constructor; [by left|].
           eapply Forall_impl; [exact Hall|]. intros x [Hx|Hx]; [by left|].
           destruct (decide (CardUtils.getCardSuit h x = suit)) as [Heq|Hne].
           ** left. by rewrite Heq.
           ** right. by eapply keys_set_other.
        -- rewrite Hperm, Hpush. by rewrite <-(assoc_L (++)).
      * by apply Exists_cons_tl.
Qed.

(** X15. [groupCardsBySuit] either returns the groups of the cards by suit
    (distinct keys, together a permutation of the cards, each group exactly
    the cards of its suit in order), or raises, which happens only when some
    card has a suit that names a property inherited from [Object.prototype]. *)
Theorem groupCardsBySuit_partitions_or_raises h cards :
  match CardUtils.groupCardsBySuit h cards with
  | Returned groups =>
      Forall (λ c, inherited (CardUtils.getCardSuit h c) = false) cards
      ∧ NoDup (JsObject.keys groups)
      ∧ mjoin (JsObject.values groups) ≡ₚ cards
      ∧ (∀ suit, JsObject.get suit groups
                 = (if decide (filter (λ c, CardUtils.getCardSuit h c = suit) cards = [])
                    then None
                    else Some (filter (λ c, CardUtils.getCardSuit h c = suit) cards)))
  | Thrown _ => Exists (λ c, inherited (CardUtils.getCardSuit h c) = true) cards
  end.
Proof.
  pose proof (groupBySuitInto_grouped h cards [] []) as H.
  unfold CardUtils.groupCardsBySuit.
  destruct (CardUtils.groupBySuitInto h cards []) as [groups|msg].
  - destruct H as (Hall & [Hnd Hget] & Hperm).
    { split; [constructor|]. intros r. by rewrite filter_nil, decide_True. }
    split_and!; try done.
    eapply Forall_impl; [exact Hall|]. intros c [?|Hin]; [done|].
    by apply elem_of_nil in Hin.
  - apply H. split; [constructor|]. intros r. by rewrite filter_nil, decide_True.
Qed.

(** ** Dealing *)

Lemma dealt_refl ps : dealt (λ _, 0) ps ps.
Proof.
  split; [done|]. intros i p Hp. exists p.
  split_and!; first [done | by rewrite firstn_all | lia].
Qed.

Lemma dealt_ext f g ps ps' : (∀ i, f i = g i) → dealt f ps ps' → dealt g ps ps'.
Proof.
  intros Hfg [Hlen H]. split; [done|]. intros i p Hp.
  destruct (H i p Hp) as (p' & ? & ? & ? & ? & ? & ?). exists p'. rewrite <-Hfg. done.
Qed.

Lemma dealt_trans f g ps ps1 ps2 :
  dealt f ps ps1 → dealt g ps1 ps2 → dealt (λ i, f i + g i) ps ps2.
Proof.
  intros [Hl1 H1] [Hl2 H2]. split; [congruence|]. intros i p Hp.
  destruct (H1 i p Hp) as (p1 & Hp1 & ? & ? & ? & Ht1 & Hn1).
  destruct (H2 i p1 Hp1) as (p2 & Hp2 & ? & ? & ? & Ht2 & Hn2).
  exists p2. split_and!; try congruence; [|lia].
  rewrite <-Ht1 at 2. rewrite <-Ht2. rewrite take_take. f_equal. lia.
Qed.

Lemma dealt_alter ps i cs :
  dealt (λ j, if decide (j = i) then length cs else 0) ps
    (alter (Player.setHand (Hand.addCards cs)) i ps).
Proof.
  split; [by rewrite length_alter|]. intros j p Hp.
  destruct (decide (j = i)) as [->|Hne].
  - eexists. rewrite list_lookup_alter_eq, Hp. simpl. split; [done|].
    unfold Hand.addCards, Player.setHand. cbn [Player.hand Player.id Player.name Player.score].
    split_and!; first [done | by rewrite take_app_length | by rewrite length_app].
  - exists p. rewrite list_lookup_alter_ne by done.
    split_and!; first [done | by rewrite firstn_all | lia].
Qed.

Lemma dealRound_shares idxs : ∀ dk dp ps cur rd cu h,
  NoDup idxs → length idxs ≤ length dk →
  ∃ ps',
    CardUtils.dealRound idxs (mkWorld (GameState.mk dk dp ps cur rd cu) h)
    = (Returned tt, mkWorld (GameState.mk (drop (length idxs) dk) dp ps' cur rd cu) h)
    ∧ dealt (λ i, if decide (i ∈ idxs) then 1 else 0) ps ps'.
Proof.
  induction idxs as [|i idxs IH]; intros dk dp ps cur rd cu h Hnd Hlen.
  - exists ps. split; [done|]. eapply dealt_ext; [|apply dealt_refl].
    intros i. cbv beta. destruct (decide (i ∈ [])) as [[]%elem_of_nil|]; done.
  - apply NoDup_cons in Hnd as [Hi Hnd].
    destruct dk as [|c dk]; [simpl in Hlen; lia|]. simpl in Hlen.
    destruct (IH dk dp (alter (Player.setHand (Hand.addCards [c])) i ps) cur rd cu h Hnd)
      as (ps' & Hrun & Hd); [lia|].
    exists ps'. split.
    + cbn [CardUtils.dealRound]. unfold bind at 1. cbn. exact Hrun.
    + eapply dealt_ext; [|exact (dealt_trans _ _ _ _ _ (dealt_alter ps i [c]) Hd)].
      intros j. simpl. destruct (decide (j = i)) as [->|Hne].
      * rewrite decide_False by done. rewrite decide_True by (apply elem_of_cons; by left). done.
      * destruct (decide (j ∈ idxs)).
        -- rewrite decide_True by (apply elem_of_cons; by right). done.
        -- rewrite decide_False; [done|]. intros [?|?]%elem_of_cons; done.
Qed.

Lemma dealCards_shares idxs n : ∀ dk dp ps cur rd cu h,
  NoDup idxs → n * length idxs ≤ length dk →
  ∃ ps',
    CardUtils.dealCards idxs n (mkWorld (GameState.mk dk dp ps cur rd cu) h)
    = (Returned tt, mkWorld (GameState.mk (drop (n * length idxs) dk) dp ps' cur rd cu) h)
    ∧ dealt (λ i, if decide (i ∈ idxs) then n else 0) ps ps'.
Proof.
  induction n as [|n IH]; intros dk dp ps cur rd cu h Hnd Hlen.
  - exists ps. split; [done|]. eapply dealt_ext; [|apply dealt_refl].
    intros i. by destruct (decide _).
  - destruct (dealRound_shares idxs dk dp ps cur rd cu h Hnd) as (ps1 & Hrun1 & Hd1); [lia|].
    destruct (IH (drop (length idxs) dk) dp ps1 cur rd cu h Hnd) as (ps' & Hrun & Hd).
    { rewrite length_drop. lia. }
    exists ps'. split.
    + cbn [CardUtils.dealCards]. unfold bind. rewrite Hrun1, Hrun. rewrite drop_drop.
      by replace (length idxs + n * length idxs) with (S n * length idxs) by lia.
    + eapply dealt_ext; [|exact (dealt_trans _ _ _ _ _ Hd1 Hd)].
      intros j. simpl. by destruct (decide _).
Qed.

Lemma dealAtOnce_shares idxs n : ∀ dk dp ps cur rd cu h,
  NoDup idxs → n * length idxs ≤ length dk →
  ∃ ps',
    CardUtils.dealAtOnce idxs n (mkWorld (GameState.mk dk dp ps cur rd cu) h)
    = (Returned tt, mkWorld (GameState.mk (drop (n * length idxs) dk) dp ps' cur rd cu) h)
    ∧ dealt (λ i, if decide (i ∈ idxs) then n else 0) ps ps'.
Proof.
  induction idxs as [|i idxs IH]; intros dk dp ps cur rd cu h Hnd Hlen.
  - exists ps. split; [simpl; by rewrite Nat.mul_0_r|].
    eapply dealt_ext; [|apply dealt_refl].
    intros i. cbv beta. destruct (decide (i ∈ [])) as [[]%elem_of_nil|]; done.
  - apply NoDup_cons in Hnd as [Hi Hnd]. simpl in Hlen.
    destruct (IH (drop n dk) dp (alter (Player.setHand (Hand.addCards (take n dk))) i ps)
                cur rd cu h Hnd) as (ps' & Hrun & Hd).
    { rewrite length_drop. lia. }
    exists ps'. split.
    + cbn [CardUtils.dealAtOnce]. unfold bind at 1, W.drawFromDeck, Deck.draw. cbn.
      replace (n `min` length dk) with n by lia.
      unfold GameState.setPlayers, GameState.setDeck. cbn. rewrite Hrun. rewrite drop_drop.
      by replace (n + n * length idxs) with (n * S (length idxs)) by lia.
    + eapply dealt_ext; [|exact (dealt_trans _ _ _ _ _ (dealt_alter ps i (take n dk)) Hd)].
      intros j. simpl. rewrite length_take. replace (n `min` length dk) with n by lia.
      destruct (decide (j = i)) as [->|Hne].
      * rewrite decide_False by done. rewrite decide_True by (apply elem_of_cons; by left). lia.
      * destruct (decide (j ∈ idxs)).
        -- rewrite decide_True by (apply elem_of_cons; by right). done.
        -- rewrite decide_False; [done|]. intros [?|?]%elem_of_cons; done.
Qed.

(** X16. When the deck holds at least [cardsPerPlayer] cards for each of the
    distinct players listed, [dealCards] gives each of them exactly
    [cardsPerPlayer] more cards, after the ones held, and takes
    [cardsPerPlayer] times the number of players off the top of the deck, in
    either dealing mode; nothing else changes. *)
Theorem dealCards_gives_each_player_their_share dealOneAtATime players cardsPerPlayer
    dk dp ps cur rd cu h :
  NoDup players →
  cardsPerPlayer * length players ≤ length dk →
  ∃ ps',
    CardUtils.dealCardsBy dealOneAtATime players cardsPerPlayer
      (mkWorld (GameState.mk dk dp ps cur rd cu) h)
    = (Returned tt,
       mkWorld (GameState.mk (drop (cardsPerPlayer * length players) dk) dp ps' cur rd cu) h)
    ∧ dealt (λ i, if decide (i ∈ players) then cardsPerPlayer else 0) ps ps'.
Proof.
  intros Hnd Hlen. destruct dealOneAtATime; simpl.
  - by apply dealCards_shares.
  - by apply dealAtOnce_shares.
Qed.

Lemma dealAtOnce_run idxs n : ∀ dk dp ps cur rd cu h,
  Forall (λ i, i < length ps) idxs →
  ∃ dk' ps',
    CardUtils.dealAtOnce idxs n (mkWorld (GameState.mk dk dp ps cur rd cu) h)
    = (Returned tt, mkWorld (GameState.mk dk' dp ps' cur rd cu) h)
    ∧ length ps' = length ps
    ∧ dk' ++ handRefs ps' ≡ₚ dk ++ handRefs ps.
Proof.
  induction idxs as [|i idxs IH]; intros dk dp ps cur rd cu h Hok.
  - by exists dk, ps.
  - apply Forall_cons in Hok as [Hi Hok].
    destruct (lookup_lt_is_Some_2 ps i Hi) as [p Hp].
    destruct (IH (drop (n `min` length dk) dk) dp
                (alter (Player.setHand (Hand.addCards (take (n `min` length dk) dk))) i ps)
                cur rd cu h) as (dk' & ps' & Hrun & Hlen & Hperm).
    { by rewrite length_alter. }
    exists dk', ps'. split_and!.
    + cbn [CardUtils.dealAtOnce]. unfold bind at 1, W.drawFromDeck, Deck.draw. cbn.
      exact Hrun.
    + by rewrite Hlen, length_alter.
    + rewrite Hperm.
      apply (Permutation_app_inv_r (Player.hand p)).
      rewrite <-(assoc_L (++)), (handRefs_alter _ ps i p Hp).
      unfold Player.setHand, Hand.addCards. simpl.
      clear. set (t := take (n `min` length dk) dk). set (d := drop (n `min` length dk) dk).
      assert (Htd : dk = t ++ d) by (symmetry; apply take_drop).
      clearbody t d. subst dk. solve_Permutation.
Qed.

(** X17. [dealCards] never raises and never loses a card, in either dealing
    mode and also when the deck runs out: the cards of the deck and the hands
    afterwards are those of the deck and the hands before. *)
Theorem dealCards_moves_cards_from_the_deck_to_hands dealOneAtATime players cardsPerPlayer
    dk dp ps cur rd cu h :
  Forall (λ i, i < length ps) players →
  ∃ dk' ps',
    CardUtils.dealCardsBy dealOneAtATime players cardsPerPlayer
      (mkWorld (GameState.mk dk dp ps cur rd cu) h)
    = (Returned tt, mkWorld (GameState.mk dk' dp ps' cur rd cu) h)
    ∧ length ps' = length ps
    ∧ dk' ++ handRefs ps' ≡ₚ dk ++ handRefs ps.
Proof.
  intros Hok. destruct dealOneAtATime; simpl.
  - by apply dealCards_run.
  - by apply dealAtOnce_run.
Qed.

(** ** War: dealing and turns *)

Section WarDeal.
#[local] Arguments Deck.shuffle : simpl never.

(** X18. War's [initializeGame] raises unless there are exactly two players
    and then changes nothing.  With two players it shuffles, gives each
    player half of the deck, rounded down, leaves the odd card, if any, in
    the deck, makes the first player current and stores an empty pile, no
    war and no round winner. *)
Theorem war_initializeGame_deals_half_each rnd dk dp ps cur rd cu h :
  let w := mkWorld (GameState.mk dk dp ps cur rd cu) h in
  match ps with
  | [a; b] =>
      let shuffled := Deck.shuffle rnd dk in
      let half := length dk `div` 2 in
      WarRules.initializeGame rnd w
      = (Returned tt,
         mkWorld
           (GameState.mk (drop (half + half) shuffled) dp
              [Player.mk (Player.id a) (Player.name a)
                 (Player.hand a ++ take half shuffled) (Player.score a);
               Player.mk (Player.id b) (Player.name b)
                 (Player.hand b ++ take half (drop half shuffled)) (Player.score b)]
              (Player.id a) rd
              (JsObject.set "roundWinner" VNull
                 (JsObject.set "warMode" (VBool false)
                    (JsObject.set "cardsInPlay" (VCards []) cu))))
           h)
      ∧ length (take half shuffled) = half
      ∧ length (take half (drop half shuffled)) = half
      ∧ length (drop (half + half) shuffled) = length dk `mod` 2
  | _ => WarRules.initializeGame rnd w = (Thrown "War requires exactly 2 players", w)
  end.
Proof.
  intros w. destruct ps as [|a [|b [|c ps]]]; try reflexivity.
  intros shuffled half.
  assert (Hlen : length shuffled = length dk).
  { unfold shuffled. by rewrite (shuffle_perm rnd dk). }
  assert (Hhalf : half + half + length dk `mod` 2 = length dk).
  { unfold half. pose proof (Nat.div_mod_eq (length dk) 2). lia. }
  split_and!.
  - unfold WarRules.initializeGame, w. unfold bind at 1, W.getState at 1, gets at 1.
    cbn [state GameState.players length Nat.eqb negb].
    cbv -[length take drop Nat.div Nat.min Deck.shuffle JsObject.set app
          Player.id Player.name Player.hand Player.score].
    cbn [Player.id Player.name Player.hand Player.score].
    fold shuffled. rewrite !length_drop, !Hlen. fold half.
    replace (half `min` length dk) with half by lia.
    replace (half `min` (length dk - half)) with half by lia.
    rewrite drop_drop. done.
  - rewrite length_take. lia.
  - rewrite length_take, length_drop. lia.
  - rewrite length_drop. lia.
Qed.
End WarDeal.

(** X19. In War with two players of distinct ids, [nextTurn] passes the turn
    to the other player, and two calls in a row leave the world as it
    was. *)
Theorem war_turns_alternate a b dk dp cur rd cu h :
  Player.id a ≠ Player.id b →
  cur = Player.id a ∨ cur = Player.id b →
  let w := mkWorld (GameState.mk dk dp [a; b] cur rd cu) h in
  let other := if String.eqb cur (Player.id a) then Player.id b else Player.id a in
  WarRules.nextTurn w
  = (Returned tt, mkWorld (GameState.mk dk dp [a; b] other rd cu) h)
  ∧ (WarRules.nextTurn;;; WarRules.nextTurn) w = (Returned tt, w).
Proof.
  intros Hne Hcur w other.
  assert (Hab : String.eqb (Player.id a) (Player.id b) = false) by (by apply String.eqb_neq).
  assert (Hba : String.eqb (Player.id b) (Player.id a) = false)
    by (by apply String.eqb_neq, not_eq_sym).
  unfold other, w, WarRules.nextTurn, WarRules.getNextPlayerId, liftO, bind, W.modifyState,
    modify, GameState.setCurrentPlayerId.
  destruct Hcur as [->| ->]; cbn; rewrite ?String.eqb_refl, ?Hab, ?Hba; cbn;
    rewrite ?String.eqb_refl, ?Hab, ?Hba; cbn; done.
Qed.

(** ** War: the flag that the automatic player polls *)

(** X20. The flag [gameOver] of [customState], which [WarGame.autoPlay]
    polls to stop, is never written by the rules of War: in every state
    reached from a fresh game (of cards with plain ranks) it reads as
    [false]. *)
Theorem war_never_sets_the_game_over_flag w0 w :
  freshGame w0 →
  plainRanks (cards w0) →
  Reachable WarRules.rules w0 w →
  GameState.getCustomState "gameOver" (VBool false) (state w) = VBool false
  ∧ GameState.customValue "gameOver" (state w) = None.
Proof.
  intros Hfresh _ Hreach.
  destruct (war_reachable w0 w Hfresh Hreach)
    as (dk & a & b & cur & rd & cs & mode & winner & Hs & _).
  by rewrite Hs.
Qed.

(** ** War: who holds cards after a move *)

Section WarOutcome.

#[local] Arguments WarRules.getCardRank : simpl never.
#[local] Arguments Nat.ltb : simpl never.
#[local] Arguments Heap.id : simpl never.
#[local] Arguments Heap.setFaceUp : simpl never.
#[local] Arguments String.eqb : simpl nomatch.

Ltac round_step :=
  cbv beta delta [bind]; cbn;
  rewrite ?String.eqb_refl, ?heap_id_setFaceUp, ?getCardRank_setFaceUp,
    ?Nat.ltb_irrefl;
  repeat match goal with
    | H : String.eqb _ _ = _ |- _ => rewrite H
    | H : WarRules.getCardRank _ _ = _ |- _ => rewrite H
    | H : Nat.ltb _ _ = _ |- _ => rewrite H
    | H : orb _ _ = _ |- _ => rewrite H
    end.

Ltac round_run := repeat (progress round_step).

Ltac holds_cards :=
  let H := fresh in
  intro H; apply (f_equal length) in H; rewrite ?length_app in H; simpl in H; lia.

Ltac round_done :=
  eexists _, _, _, _, _; (split; [reflexivity|]);
  repeat (progress (cbn; rewrite ?heap_id_setFaceUp, ?String.eqb_refl));
  first [ left; split; [reflexivity|]; first [left; holds_cards | right; holds_cards]
        | right; split; holds_cards ].

(** After an accepted move either the round is decided, the pile is empty
    and its winner holds cards, or a war is on and both players hold
    cards. *)
Lemma war_applyMove_outcome dk dp a b cur rd cs mode winner h player move w' :
  WarRules.validateMove player move
    (mkWorld (GameState.mk dk dp [a; b] cur rd (warCustom cs mode winner)) h)
  = Returned true →
  WarRules.applyMove player move
    (mkWorld (GameState.mk dk dp [a; b] cur rd (warCustom cs mode winner)) h)
  = (Returned tt, w') →
  ∃ a' b' cs' mode' winner',
    state w' = GameState.mk dk dp [a'; b'] cur rd (warCustom cs' mode' winner')
    ∧ ((cs' = [] ∧ (Player.hand a' ≠ [] ∨ Player.hand b' ≠ []))
       ∨ (Player.hand a' ≠ [] ∧ Player.hand b' ≠ [])).
Proof.
  intros Hvalid Hrun.
  destruct (String.eqb (Player.id a) (Player.id b)) eqn:Hid.
  { apply String.eqb_eq in Hid.
    destruct a as [ia na ha sa], b as [ib nb hb sb]. cbn [Player.id] in *. subst ib.
    unfold WarRules.validateMove in Hvalid. cbn in Hvalid.
    destruct player as [|[|player]]; cbn in Hvalid; [| |done];
      injection Hvalid as Hvalid; apply andb_prop in Hvalid as [Hplay _];
      unfold WarRules.applyMove in Hrun; rewrite Hplay in Hrun; cbn [negb] in Hrun;
      revert Hrun; round_run; intros Hrun; discriminate Hrun. }
  assert (Hid' : String.eqb (Player.id b) (Player.id a) = false)
    by (by rewrite String.eqb_sym).
  destruct a as [ia na ha sa], b as [ib nb hb sb]. cbn [Player.id] in *.
  unfold WarRules.validateMove in Hvalid. cbn in Hvalid.
  destruct player as [|[|player]]; cbn in Hvalid; [| |done];
    injection Hvalid as Hvalid; apply andb_prop in Hvalid as [Hplay Hsize];
    unfold WarRules.applyMove in Hrun; rewrite Hplay in Hrun; cbn [negb] in Hrun;
    destruct ha as [|ca ha]; try done; destruct hb as [|cb hb]; try done;
    try (revert Hrun; round_run; intros Hrun; discriminate Hrun); clear Hsize;
    revert Hrun.
  - destruct (WarRules.getCardRank h cb <? WarRules.getCardRank h ca) eqn:Hgt;
      [|destruct (WarRules.getCardRank h ca <? WarRules.getCardRank h cb) eqn:Hlt;
        [|destruct ((length ha <? 4) || (length hb <? 4)) eqn:Hshort;
          [destruct (length hb <? length ha) eqn:Hmore|]]].
    1-4: round_run; intros [= <-]; round_done.
    apply orb_false_elim in Hshort as [Ha Hb]. apply Nat.ltb_ge in Ha, Hb.
    destruct ha as [|a1 [|a2 [|a3 [|a4 ha]]]]; try (simpl in Ha; lia).
    destruct hb as [|b1 [|b2 [|b3 [|b4 hb]]]]; try (simpl in Hb; lia).
    assert (Hlt1 : (S (S (S (S (length ha)))) <? 4) = false) by (apply Nat.ltb_ge; lia).
    assert (Hlt2 : (S (S (S (S (length hb)))) <? 4) = false) by (apply Nat.ltb_ge; lia).
    round_run; intros [= <-]; round_done.
  - destruct (WarRules.getCardRank h ca <? WarRules.getCardRank h cb) eqn:Hgt;
      [|destruct (WarRules.getCardRank h cb <? WarRules.getCardRank h ca) eqn:Hlt;
        [|destruct ((length hb <? 4) || (length ha <? 4)) eqn:Hshort;
          [destruct (length ha <? length hb) eqn:Hmore|]]].
    1-4: round_run; intros [= <-]; round_done.
    apply orb_false_elim in Hshort as [Hb Ha]. apply Nat.ltb_ge in Ha, Hb.
    destruct ha as [|a1 [|a2 [|a3 [|a4 ha]]]]; try (simpl in Ha; lia).
    destruct hb as [|b1 [|b2 [|b3 [|b4 hb]]]]; try (simpl in Hb; lia).
    assert (Hlt1 : (S (S (S (S (length ha)))) <? 4) = false) by (apply Nat.ltb_ge; lia).
    assert (Hlt2 : (S (S (S (S (length hb)))) <? 4) = false) by (apply Nat.ltb_ge; lia).
    round_run; intros [= <-]; round_done.
Qed.
End WarOutcome.

(** X21. After every accepted move of War (cards with plain ranks) some
    player holds cards; if the game is then over, exactly one player does,
    that player is the only winner, and no card is left in play. *)
Theorem war_game_over_has_one_winner ids w player move w' :
  warInv ids w →
  plainRanks (cards w) →
  WarRules.validateMove player move w = Returned true →
  WarRules.applyMove player move w = (Returned tt, w') →
  WarRules.getWinners w' ≠ []
  ∧ (WarRules.isGameOver w' = true →
     ∃ p, p ∈ GameState.players (state w')
          ∧ WarRules.getWinners w' = [Player.id p]
          ∧ GameState.customValue "cardsInPlay" (state w') = Some (VCards [])).
Proof.
  intros (dk & a & b & cur & rd & cs & mode & winner & Hs & Hw & Hp) _ Hvalid Hrun.
  destruct w as [s h]. simpl in *. subst s.
  destruct (war_applyMove_outcome _ _ _ _ _ _ _ _ _ _ _ _ _ Hvalid Hrun)
    as (a' & b' & cs' & mode' & winner' & Hs' & Hcases).
  unfold WarRules.getWinners, WarRules.isGameOver, GameState.customValue, Hand.size.
  rewrite Hs'. cbn [GameState.players GameState.customState existsb].
  rewrite !filter_cons, filter_nil.
  destruct (Player.hand a') as [|ca ha] eqn:Ha, (Player.hand b') as [|cb hb] eqn:Hb;
    simpl.
  - destruct Hcases as [[_ [?|?]]|[? _]]; done.
  - destruct Hcases as [[-> _]|[? _]]; [|done].
    split; [done|]. intros _. exists b'. split_and!; try done.
    apply elem_of_cons. right. apply elem_of_cons. by left.
  - destruct Hcases as [[-> _]|[_ ?]]; [|done].
    split; [done|]. intros _. exists a'. split_and!; try done.
    apply elem_of_cons. by left.
  - split; [done|]. intros [=].
Qed.

(** ** War: a move against a player without cards *)

Section WarRaise.
#[local] Arguments GameState.clone : simpl never.
#[local] Arguments Heap.id : simpl never.
#[local] Arguments String.eqb : simpl never.
#[local] Arguments WarRules.cardsInPlayArray : simpl never.

(** X22. In War, a move by the current player, who holds cards, against an
    opponent who holds none raises a [TypeError]: by then the snapshot has
    been pushed onto the history, without an entry in the move log, and the
    player's top card has left the hand. *)
Theorem war_move_against_an_empty_hand_raises g p o pc ph (actingFirst : bool) :
  GameState.players (BaseGame.gameState g) = (if actingFirst then [p; o] else [o; p]) →
  Player.id p ≠ Player.id o →
  GameState.currentPlayerId (BaseGame.gameState g) = Player.id p →
  Player.hand p = pc :: ph →
  Player.hand o = [] →
  let p' := Player.mk (Player.id p) (Player.name p) ph (Player.score p) in
  ∃ msg g',
    BaseGame.playMove WarRules.rules (Player.id p) (MoveString "play") g = (Thrown msg, g')
    ∧ BaseGame.history g'
      = BaseGame.history g
        ++ [(GameState.clone (BaseGame.gameState g) (BaseGame.store g)).1]
    ∧ BaseGame.moveHistory g' = BaseGame.moveHistory g
    ∧ GameState.players (BaseGame.gameState g') = (if actingFirst then [p'; o] else [o; p'])
    ∧ BaseGame.output g' = BaseGame.output g.
Proof.
  intros Hps Hne Hcur Hp Ho p'.
  assert (Hpo : String.eqb (Player.id p) (Player.id o) = false) by (by apply String.eqb_neq).
  assert (Hop : String.eqb (Player.id o) (Player.id p) = false)
    by (by apply String.eqb_neq, not_eq_sym).
  destruct g as [[dk dp ps cur rd cu] hist log st out]. simpl in Hps, Hcur. subst ps cur.
  unfold BaseGame.playMove. unfold bind at 1, gets at 1.
  cbn [BaseGame.gameState].
  destruct p as [ip np hp sp], o as [io no ho so]. simpl in Hp, Ho, Hpo, Hop, Hne. subst hp ho.
  unfold p'. cbn [Player.id Player.name Player.score].
  destruct actingFirst.
  - destruct (GameState.clone
                (GameState.mk dk dp [Player.mk ip np (pc :: ph) sp; Player.mk io no [] so]
                   ip rd cu) st) as [snapshot st'] eqn:Hclone.
    unfold GameState.getPlayerById. cbn. rewrite !String.eqb_refl. cbn.
    unfold bind at 1, liftO. cbn.
    rewrite String.eqb_refl. cbn [andb negb].
    unfold bind at 1. rewrite saveState_run. cbn. rewrite Hclone. cbn.
    unfold bind at 1, BaseGame.onWorld. cbn.
    unfold WarRules.applyMove. cbn.
    repeat (unfold bind at 1; cbn; rewrite ?String.eqb_refl, ?Hpo, ?Hop; cbn).
    eexists _, _. split; [reflexivity|].
    unfold Player.setHand. cbn. rewrite ?String.eqb_refl. done.
  - destruct (GameState.clone
                (GameState.mk dk dp [Player.mk io no [] so; Player.mk ip np (pc :: ph) sp]
                   ip rd cu) st) as [snapshot st'] eqn:Hclone.
    unfold GameState.getPlayerById. cbn. rewrite !String.eqb_refl, ?Hop. cbn.
    unfold bind at 1, liftO. cbn.
    rewrite String.eqb_refl. cbn [andb negb].
    unfold bind at 1. rewrite saveState_run. cbn. rewrite Hclone. cbn.
    unfold bind at 1, BaseGame.onWorld. cbn.
    unfold WarRules.applyMove. cbn.
    repeat (unfold bind at 1; cbn; rewrite ?String.eqb_refl, ?Hpo, ?Hop; cbn).
    eexists _, _. split; [reflexivity|].
    unfold Player.setHand. cbn. rewrite ?String.eqb_refl. done.
Qed.
End WarRaise.

(** ** The engine at its edges *)

(** X24. With at most one snapshot in the history [undo()] returns [false],
    and with an empty history [restart()] returns; each reports an error and
    changes nothing else. *)
Theorem nothing_to_undo_or_restart g :
  let says message :=
    BaseGame.mk (BaseGame.gameState g) (BaseGame.history g) (BaseGame.moveHistory g)
      (BaseGame.store g) (BaseGame.output g ++ [ShowError message]) in
  (length (BaseGame.history g) ≤ 1 →
   BaseGame.undo g = (Returned false, says "No moves to undo"))
  ∧ (BaseGame.history g = [] →
     BaseGame.restart g = (Returned tt, says "No game to restart")).
Proof.
  intros says. split.
  - intros Hlen. unfold BaseGame.undo. unfold bind at 1, gets at 1.
    apply Nat.leb_le in Hlen. rewrite Hlen. done.
  - intros Hnil. unfold BaseGame.restart. unfold bind at 1, gets at 1. rewrite Hnil. done.
Qed.

(** X25. [start()] raises when War does not have exactly two players or Go
    Fish has fewer than two: the live state is unchanged and nothing is
    rendered, but the snapshot has already been pushed onto the history. *)
Theorem start_raises_without_the_right_players rules rnd g :
  (rules = WarRules.rules ∧ length (GameState.players (BaseGame.gameState g)) ≠ 2)
  ∨ (rules = GoFishRules.rules ∧ length (GameState.players (BaseGame.gameState g)) < 2) →
  ∃ msg,
    BaseGame.start rules rnd g
    = (Thrown msg,
       BaseGame.mk (BaseGame.gameState g)
         (BaseGame.history g
          ++ [(GameState.clone (BaseGame.gameState g) (BaseGame.store g)).1])
         (BaseGame.moveHistory g)
         (GameState.clone (BaseGame.gameState g) (BaseGame.store g)).2
         (BaseGame.output g)).
Proof.
  intros [[-> Hlen]|[-> Hlen]]; unfold BaseGame.start; unfold bind at 1;
    rewrite saveState_run; unfold bind at 1, BaseGame.onWorld;
    cbn [initializeGame WarRules.rules GoFishRules.rules].
  - unfold WarRules.initializeGame. unfold bind at 1, W.getState, gets.
    cbn [state BaseGame.world BaseGame.gameState BaseGame.store].
    apply Nat.eqb_neq in Hlen. rewrite Hlen. cbn. by eexists.
  - unfold GoFishRules.initializeGame. unfold bind at 1, W.getState, gets.
    cbn [state BaseGame.world BaseGame.gameState BaseGame.store].
    apply Nat.ltb_lt in Hlen. rewrite Hlen. cbn. by eexists.
Qed.

(** X26. In Go Fish, [playMove] with the move [null] by the current player
    raises a [TypeError] instead of rejecting the move; the engine is left
    exactly as it was. *)
Theorem go_fish_null_move_raises g playerId :
  is_Some (GameState.getPlayerById playerId (BaseGame.gameState g)) →
  playerId = GameState.currentPlayerId (BaseGame.gameState g) →
  BaseGame.playMove GoFishRules.rules playerId MoveNull g
  = (Thrown "TypeError: Cannot read properties of null (reading 'targetPlayerId')", g).
Proof.
  intros [player Hplayer] ->. unfold BaseGame.playMove. unfold bind at 1, gets at 1.
  rewrite Hplayer. cbn. unfold GoFishRules.getCurrentPlayerId. cbn.
  rewrite String.eqb_refl. cbn. by destruct g.
Qed.

(** ** A turn of War *)

Lemma playTurn_unfold g :
  WarGame.playTurn g
  = match GameState.getPlayerById (GameState.currentPlayerId (BaseGame.gameState g))
            (BaseGame.gameState g) with
    | Some currentPlayer =>
        match GameState.players (BaseGame.gameState g) !! currentPlayer with
        | Some p => BaseGame.playMove WarRules.rules (Player.id p) (MoveString "play") g
        | None => (Thrown "TypeError: Cannot read properties of undefined (reading 'id')", g)
        end
    | None =>
        (Returned false,
         BaseGame.mk (BaseGame.gameState g) (BaseGame.history g) (BaseGame.moveHistory g)
           (BaseGame.store g) (BaseGame.output g ++ [ShowError "No current player"]))
    end.
Proof.
  unfold WarGame.playTurn, bind, gets, BaseGame.getCurrentPlayer.
  cbn [getCurrentPlayerId WarRules.rules]. unfold WarRules.getCurrentPlayerId.
  cbn [state BaseGame.world].
  destruct (GameState.getPlayerById _ _) as [i|]; [|done].
  by destruct (GameState.players (BaseGame.gameState g) !! i).
Qed.

(** X23. [WarGame.playTurn] reports an error and returns [false] when the
    current player id names no player; otherwise it is
    [playMove(currentPlayerId, "play")], which is rejected when that
    player holds no card. *)
Theorem war_playTurn_plays_for_the_current_player g :
  let current := GameState.currentPlayerId (BaseGame.gameState g) in
  match GameState.getPlayerById current (BaseGame.gameState g) with
  | None =>
      WarGame.playTurn g
      = (Returned false,
         BaseGame.mk (BaseGame.gameState g) (BaseGame.history g) (BaseGame.moveHistory g)
           (BaseGame.store g) (BaseGame.output g ++ [ShowError "No current player"]))
  | Some player =>
      WarGame.playTurn g = BaseGame.playMove WarRules.rules current (MoveString "play") g
      ∧ ∀ p, GameState.players (BaseGame.gameState g) !! player = Some p →
             Player.id p = current
             ∧ (Player.hand p = [] →
                WarGame.playTurn g
                = (Returned false,
                   BaseGame.mk (BaseGame.gameState g) (BaseGame.history g)
                     (BaseGame.moveHistory g) (BaseGame.store g)
                     (BaseGame.output g
                      ++ [ShowError ("Invalid move by " +:+ Player.name p)])))
  end.
Proof.
  intros current. rewrite !playTurn_unfold. fold current.
  unfold GameState.getPlayerById.
  pose proof (findIndex_split (λ p, String.eqb (Player.id p) current)
                (GameState.players (BaseGame.gameState g))) as Hsplit.
  destruct (GameState.findIndex _ _) as [player|] eqn:Hfind; [|done].
  destruct Hsplit as (before & p & after & Hps & -> & Hp & _).
  apply String.eqb_eq in Hp.
  assert (Hlook : GameState.players (BaseGame.gameState g) !! length before = Some p).
  { rewrite Hps. by apply list_lookup_middle. }
  rewrite Hlook, Hp. split; [done|].
  intros p' [= <-]. split; [done|]. intros Hhand.
  unfold BaseGame.playMove. unfold bind at 1, gets at 1.
  unfold GameState.getPlayerById. rewrite Hfind, Hlook. cbn.
  unfold WarRules.getCurrentPlayerId. cbn. fold current. rewrite String.eqb_refl. cbn.
  unfold bind at 1, liftO, WarRules.validateMove. cbn. rewrite Hlook, Hhand. cbn.
  done.
Qed.

(** ** Go Fish: whose turn it is *)

Lemma getPlayerById_NoDup ps i p dk dp cur rd cu :
  NoDup (Player.id <$> ps) → ps !! i = Some p →
  GameState.getPlayerById (Player.id p) (GameState.mk dk dp ps cur rd cu) = Some i.
Proof.
  intros Hnd Hi. unfold GameState.getPlayerById. cbn [GameState.players].
  pose proof (findIndex_split (λ q, String.eqb (Player.id q) (Player.id p)) ps) as Hsplit.
  destruct (GameState.findIndex _ ps) as [j|].
  - destruct Hsplit as (before & q & after & Hps & -> & Hq & _).
    apply String.eqb_eq in Hq. f_equal.
    assert (Hj : (Player.id <$> ps) !! length before = Some (Player.id q)).
    { rewrite Hps, list_lookup_fmap, list_lookup_middle; done. }
    assert (Hi' : (Player.id <$> ps) !! i = Some (Player.id q)).
    { by rewrite list_lookup_fmap, Hi, Hq. }
    by apply (NoDup_lookup _ _ _ _ Hnd Hj Hi').
  - apply list_elem_of_lookup_2 in Hi.
    rewrite Forall_forall in Hsplit. specialize (Hsplit p Hi).
    by rewrite String.eqb_refl in Hsplit.
Qed.

Lemma go_fish_nextTurn_step dk dp ps rd cu h i p :
  NoDup (Player.id <$> ps) → ps !! i = Some p →
  truthy (Some (GameState.getCustomState "anotherTurn" (VBool false)
                  (GameState.mk dk dp ps (Player.id p) rd cu))) = false →
  ∃ q, ps !! ((i + 1) `mod` length ps) = Some q
       ∧ GoFishRules.nextTurn (mkWorld (GameState.mk dk dp ps (Player.id p) rd cu) h)
         = (Returned tt,
            mkWorld (GameState.mk dk dp ps (Player.id q) rd
                       (JsObject.set "anotherTurn" (VBool false) cu)) h).
Proof.
  intros Hnd Hi Hflag.
  assert (Hlt : i < length ps) by (by eapply lookup_lt_Some).
  destruct (lookup_lt_is_Some_2 ps ((i + 1) `mod` length ps)) as [q Hq].
  { apply Nat.mod_upper_bound. lia. }
  exists q. split; [done|].
  unfold GoFishRules.nextTurn, liftO. unfold bind at 1.
  unfold GoFishRules.getNextPlayerId. cbn [state]. rewrite Hflag.
  rewrite (getPlayerById_NoDup ps i p) by done. cbn [GameState.players].
  destruct (length ps =? 0) eqn:E; [apply Nat.eqb_eq in E; lia|].
  rewrite Hq. reflexivity.
Qed.

(** X27. In Go Fish, when the players' ids are distinct and no extra turn is
    pending, [k] calls of [nextTurn] pass the turn to the player [k] places
    further round the table; after as many calls as there are players it is
    the same player's turn again. *)
Theorem go_fish_turns_go_round_the_table dk dp ps rd cu h i p :
  NoDup (Player.id <$> ps) →
  ps !! i = Some p →
  truthy (Some (GameState.getCustomState "anotherTurn" (VBool false)
                  (GameState.mk dk dp ps (Player.id p) rd cu))) = false →
  (∀ k, ∃ q cu',
     ps !! ((i + k) `mod` length ps) = Some q
     ∧ turns GoFishRules.rules k (mkWorld (GameState.mk dk dp ps (Player.id p) rd cu) h)
       = (Returned tt, mkWorld (GameState.mk dk dp ps (Player.id q) rd cu') h))
  ∧ ∃ cu',
      turns GoFishRules.rules (length ps)
        (mkWorld (GameState.mk dk dp ps (Player.id p) rd cu) h)
      = (Returned tt, mkWorld (GameState.mk dk dp ps (Player.id p) rd cu') h).
Proof.
  intros Hnd Hi Hflag.
  assert (Hlt : i < length ps) by (by eapply lookup_lt_Some).
  assert (Hall : ∀ k i p cu, ps !! i = Some p →
            truthy (Some (GameState.getCustomState "anotherTurn" (VBool false)
                            (GameState.mk dk dp ps (Player.id p) rd cu))) = false →
            ∃ q cu',
              ps !! ((i + k) `mod` length ps) = Some q
              ∧ turns GoFishRules.rules k
                  (mkWorld (GameState.mk dk dp ps (Player.id p) rd cu) h)
                = (Returned tt, mkWorld (GameState.mk dk dp ps (Player.id q) rd cu') h)).
  { clear i p cu Hi Hflag Hlt.
    induction k as [|k IH]; intros i p cu Hi Hflag.
    - exists p, cu. split; [|done].
      rewrite Nat.add_0_r, Nat.mod_small; [done|by eapply lookup_lt_Some].
    - destruct (go_fish_nextTurn_step dk dp ps rd cu h i p Hnd Hi Hflag) as (q & Hq & Hrun).
      destruct (IH _ q (JsObject.set "anotherTurn" (VBool false) cu) Hq)
        as (q' & cu' & Hq' & Hrun').
      { unfold GameState.getCustomState, GameState.customValue. cbn [GameState.customState].
        by rewrite get_set_eq. }
      exists q', cu'. split.
      + rewrite <-Hq'. f_equal.
        assert (length ps ≠ 0) by (apply lookup_lt_Some in Hi; lia).
        rewrite Nat.Div0.add_mod_idemp_l. f_equal. lia.
      + cbn [turns]. unfold bind. cbn [nextTurn GoFishRules.rules]. by rewrite Hrun. }
  split; [intros k; by apply Hall|].
  destruct (Hall (length ps) i p cu Hi Hflag) as (q & cu' & Hq & Hrun).
  exists cu'. rewrite Hrun.
  replace ((i + length ps) `mod` length ps) with i in Hq.
  - by assert (q = p) as -> by congruence.
  - rewrite <-Nat.Div0.add_mod_idemp_r, Nat.Div0.mod_same, Nat.add_0_r.
    by rewrite Nat.mod_small.
Qed.

(** ** Go Fish: the winners *)

Lemma mostBooks_spec (entries : list (string * list string)) : ∀ maxBooks winners,
  GoFishRules.mostBooks ((λ kv, (kv.1, Some (length kv.2))) <$> entries) maxBooks winners
  = if decide (maxBooks < max_list (length <$> entries.*2))
    then (filter (λ kv, length kv.2 = max_list (length <$> entries.*2)) entries).*1
    else winners ++ (filter (λ kv, length kv.2 = maxBooks) entries).*1.
Proof.
  induction entries as [|[k v] entries IH]; intros maxBooks winners.
  - simpl. by rewrite app_nil_r.
  - rewrite !fmap_cons, !filter_cons. cbn [GoFishRules.mostBooks fst snd].
    change (max_list (length v :: (length <$> entries.*2)))
      with (length v `max` max_list (length <$> entries.*2)).
    set (m := max_list (length <$> entries.*2)) in *.
    destruct (Nat.ltb_spec maxBooks (length v)) as [Hlt|Hge];
      [|destruct (Nat.eqb_spec (length v) maxBooks) as [Heq|Hne]];
      rewrite IH; fold m;
      destruct (Nat.max_spec (length v) m) as [[? ->]|[? ->]];
      repeat case_decide; try lia;
      first [done | simpl; by rewrite <-?(assoc_L (++)) | idtac].
Qed.

(** X28. Go Fish's [getWinners] returns, in order, exactly the players
    recorded in [books] whose number of books is the largest recorded. *)
Theorem go_fish_winners_hold_the_most_books w books :
  GameState.customValue "books" (state w) = Some (VBooks books) →
  let most := max_list (length <$> JsObject.values books) in
  GoFishRules.getWinners w
  = JsObject.keys (filter (λ kv, length kv.2 = most) books).
Proof.
  intros Hbooks most. unfold GoFishRules.getWinners, GoFishRules.bookLengths,
    GameState.getCustomState. rewrite Hbooks.
  rewrite mostBooks_spec. unfold most, JsObject.values, JsObject.keys.
  destruct (decide (0 < max_list (length <$> books.*2))) as [Hpos|Hzero]; [done|].
  simpl. by replace (max_list (length <$> books.*2)) with 0 by lia.
Qed.

(** ** Go Fish: an ask that succeeds *)

(** X29. In Go Fish with plain ranks and player ids, when the target of a
    valid request holds the rank, [applyMove] returns, leaves the deck and
    the card objects alone and takes every card of that rank out of the
    target's hand: the hand is left with exactly its cards of other ranks,
    in their order.  It does not write [anotherTurn], so a successful
    request earns no extra turn. *)
Theorem go_fish_ask_takes_every_card_of_the_rank w player targetPlayerId rank target tp :
  GoFishRules.validateMove player (MoveAsk targetPlayerId rank) w = Returned true →
  GameState.getPlayerById targetPlayerId (state w) = Some target →
  GameState.players (state w) !! target = Some tp →
  Exists (λ c, GoFishRules.getCardRank (cards w) c = rank) (Player.hand tp) →
  is_Some (GoFishRules.booksObject (state w)) →
  plainRanks (cards w) →
  plainIds (GameState.players (state w)) →
  ∃ w' tp',
    GoFishRules.applyMove player (MoveAsk targetPlayerId rank) w = (Returned tt, w')
    ∧ cards w' = cards w
    ∧ GameState.deck (state w') = GameState.deck (state w)
    ∧ GameState.players (state w') !! target = Some tp'
    ∧ Player.id tp' = Player.id tp
    ∧ Player.hand tp'
      = filter (λ c, GoFishRules.getCardRank (cards w) c ≠ rank) (Player.hand tp)
    ∧ GameState.customValue "anotherTurn" (state w')
      = GameState.customValue "anotherTurn" (state w).
Proof.
  intros Hvalid Htarget Htp Hholds [books Hbooks] _ _.
  destruct w as [[dk dp ps cur rd cu] h].
  cbn [state cards GameState.players GameState.deck] in *.
  assert (Hpl : ∃ pl, ps !! player = Some pl
                      ∧ String.eqb targetPlayerId (Player.id pl) = false).
  { unfold GoFishRules.validateMove in Hvalid. cbn [state GameState.players] in Hvalid.
    destruct (ps !! player) as [pl|]; [|done]. exists pl. split; [done|].
    by destruct (String.eqb targetPlayerId (Player.id pl)). }
  destruct Hpl as (pl & Hpl & Hself).
  assert (Hne : player ≠ target).
  { intros ->. unfold GameState.getPlayerById in Htarget. cbn in Htarget.
    pose proof (findIndex_split (λ p, String.eqb (Player.id p) targetPlayerId) ps) as Hsplit.
    rewrite Htarget in Hsplit. destruct Hsplit as (before & q & after & Hps & -> & Hq & _).
    rewrite Hps, list_lookup_middle in Hpl by done. injection Hpl as <-.
    apply String.eqb_eq in Hq. rewrite Hq, String.eqb_refl in Hself. done. }
  assert (Hsome : filter (λ c, GoFishRules.getCardRank h c = rank) (Player.hand tp) ≠ []).
  { intros Hnil. apply Exists_exists in Hholds as (c & Hc & Hr).
    by apply (filter_nil_not_elem_of _ _ c Hnil). }
  destruct (applyMove_take player targetPlayerId rank target dk dp ps cur rd cu h pl tp books
              Htarget Htp Hpl Hsome Hbooks)
    as (p1 & sc & books' & action & over & Hp1 & Hrun & _).
  eexists _, _. split; [exact Hrun|]. cbn [state cards GameState.players GameState.deck].
  split_and!; [done|done| | | |].
  - rewrite list_lookup_insert_ne by done.
    apply list_lookup_insert_eq. by eapply lookup_lt_Some.
  - done.
  - apply kept_cards.
  - unfold GameState.customValue. cbn [GameState.customState].
    destruct over; simpl; repeat (rewrite get_set_ne by discriminate); done.
Qed.

(** ** Go Fish: the deal *)

Section GoFishDeal.
#[local] Arguments Nat.ltb : simpl never.
#[local] Arguments CardUtils.dealCards : simpl never.
#[local] Arguments Deck.shuffle : simpl never.
#[local] Arguments JsObject.set : simpl never.
#[local] Arguments Nat.mul : simpl never.

(** X30. Go Fish's [initializeGame], with at least two players and a deck
    large enough, deals seven cards to each player (five when there are more
    than three players) off the top of the shuffled deck, makes the first
    player current and stores no books, no last action and [gameOver]
    false. *)
Theorem go_fish_initializeGame_deals_five_or_seven rnd dk dp ps cur rd cu h :
  let cardsPerPlayer := if 3 <? length ps then 5 else 7 in
  2 ≤ length ps →
  cardsPerPlayer * length ps ≤ length dk →
  ∃ ps' first,
    GoFishRules.initializeGame rnd (mkWorld (GameState.mk dk dp ps cur rd cu) h)
    = (Returned tt,
       mkWorld
         (GameState.mk (drop (cardsPerPlayer * length ps) (Deck.shuffle rnd dk)) dp ps'
            (Player.id first) rd
            (JsObject.set "gameOver" (VBool false)
               (JsObject.set "lastAction" VNull
                  (JsObject.set "books" (VBooks []) cu))))
         h)
    ∧ ps !! 0 = Some first
    ∧ dealt (λ _, cardsPerPlayer) ps ps'.
Proof.
  intros cpp Hlen Hdeck.
  destruct (dealCards_shares (seq 0 (length ps)) cpp (Deck.shuffle rnd dk) dp ps cur rd cu h)
    as (ps' & Hrun & Hdealt).
  { apply NoDup_seq. }
  { rewrite length_seq. by rewrite (shuffle_perm rnd dk). }
  rewrite length_seq in Hrun.
  destruct (lookup_lt_is_Some_2 ps 0) as [first Hfirst]; [lia|].
  destruct Hdealt as [Hlen' Hall].
  destruct (Hall 0 first Hfirst) as (first' & Hfirst' & Hid & _).
  exists ps', first. split_and!; [|done|].
  - unfold GoFishRules.initializeGame. unfold bind at 1. cbn.
    destruct (length ps <? 2) eqn:E; [apply Nat.ltb_lt in E; lia|].
    unfold bind at 1. cbn. unfold bind at 1, GameState.setDeck. cbn.
    fold cpp. rewrite Hrun.
    unfold bind at 1, W.playerAt. unfold bind at 1. cbn. rewrite Hfirst'. cbn.
    rewrite Hid. done.
  - split; [done|]. intros i p Hp. destruct (Hall i p Hp) as (p' & Hp' & H1 & H2 & H3 & H4 & H5).
    exists p'. split_and!; try done. rewrite H5.
    rewrite decide_True; [done|]. apply elem_of_seq. apply lookup_lt_Some in Hp. lia.
Qed.
End GoFishDeal.

(** ** Instances *)

(** Decides [plainRanks] and [plainIds] on a concrete game. *)
Ltac plain_names :=
  unfold plainRanks, plainIds; refine (bool_decide_unpack _ _); vm_compute; exact I.

Lemma rejected_move_is_atomic_witness :
  (WarRules.rules = WarRules.rules ∨ WarRules.rules = GoFishRules.rules)
  ∧ (GameState.getPlayerById "p1" (BaseGame.gameState warStarted) = None
     ∨ "p1" ≠ getCurrentPlayerId WarRules.rules (BaseGame.world warStarted)
     ∨ (∃ player,
          GameState.getPlayerById "p1" (BaseGame.gameState warStarted) = Some player
          ∧ validateMove WarRules.rules player (MoveString "pass") (BaseGame.world warStarted)
            = Returned false))
  ∧ let r := BaseGame.playMove WarRules.rules "p1" (MoveString "pass") warStarted in
    r.1 = Returned false
    ∧ BaseGame.gameState r.2 = BaseGame.gameState warStarted
    ∧ BaseGame.history r.2 = BaseGame.history warStarted
    ∧ BaseGame.moveHistory r.2 = BaseGame.moveHistory warStarted
    ∧ BaseGame.store r.2 = BaseGame.store warStarted.
Proof.
  assert (H1 : WarRules.rules = WarRules.rules ∨ WarRules.rules = GoFishRules.rules)
    by (left; reflexivity).
  assert (H2 : GameState.getPlayerById "p1" (BaseGame.gameState warStarted) = None
     ∨ "p1" ≠ getCurrentPlayerId WarRules.rules (BaseGame.world warStarted)
     ∨ (∃ player,
          GameState.getPlayerById "p1" (BaseGame.gameState warStarted) = Some player
          ∧ validateMove WarRules.rules player (MoveString "pass") (BaseGame.world warStarted)
            = Returned false)).
  { right; right. exists 0. split; vm_compute; reflexivity. }
  exact (conj H1 (conj H2
           (rejected_move_is_atomic WarRules.rules warStarted "p1" (MoveString "pass") H1 H2))).
Defined.

Lemma war_tie_equal_hands_goes_to_opponent_witness :
  ∃ w',
    WarRules.applyMove 0 (MoveString "play") tieWorld = (Returned tt, w')
    ∧ GameState.players (state w') !! 1
      = Some (Player.mk "p2" "Bob" ([] ++ [] ++ [0; 1])
                (Z.of_nat (length ([] ++ [] ++ [0; 1] : list nat))))
    ∧ GameState.players (state w') !! 0
      = Some (Player.mk "p1" "Alice" [] (Z.of_nat (length ([] : list nat))))
    ∧ GameState.customValue "roundWinner" (state w') = Some (VStr "p2")
    ∧ GameState.customValue "cardsInPlay" (state w') = Some (VCards []).
Proof.
  apply (war_tie_equal_hands_goes_to_opponent tieWorld 0 1
           (Player.mk "p1" "Alice" [0] 1) (Player.mk "p2" "Bob" [1] 1) 0 [] 1 [] []);
    [plain_names|..];
    try reflexivity; vm_compute; try discriminate; lia.
Defined.

Lemma war_tie_outcome_witness :
  ∃ w',
    WarRules.applyMove 0 (MoveString "play") warTieWorld = (Returned tt, w')
    ∧ GameState.customValue "warMode" (state w') = Some (VBool true)
    ∧ GameState.customValue "cardsInPlay" (state w')
      = Some (VCards [0; 5; 1; 6; 2; 7; 3; 8]).
Proof.
  destruct (war_tie_outcome warTieWorld 0 1
              (Player.mk "p1" "Alice" [0; 1; 2; 3; 4] 5) (Player.mk "p2" "Bob" [5; 6; 7; 8; 9] 5)
              0 [1; 2; 3; 4] 5 [6; 7; 8; 9] [])
    as (w' & Hrun & Hwar & _).
  1: plain_names.
  1-9: vm_compute; first [reflexivity | discriminate].
  exists w'. split; [exact Hrun|].
  destruct Hwar as (p1 & p2 & p3 & o1 & o2 & o3 & Hp & Ho & Hmode & Hplay & _).
  1-2: vm_compute; lia.
  vm_compute in Hp, Ho. injection Hp as <- <- <-. injection Ho as <- <- <-.
  split; [exact Hmode|exact Hplay].
Defined.

Lemma go_fish_draw_match_keeps_turn_witness :
  let w := BaseGame.world goFishStarted in
  ∃ w',
    GoFishRules.applyMove 0 (MoveAsk "p2" "2") w = (Returned tt, w')
    ∧ GameState.customValue "anotherTurn" (state w') = Some (VBool true)
    ∧ GoFishRules.getNextPlayerId w' = Returned "p1".
Proof.
  destruct (go_fish_draw_match_keeps_turn (BaseGame.world goFishStarted) 0
              (Player.mk "p1" "Alice" [0; 13; 26; 6; 8; 10; 12] 0) "p2" 1
              (Player.mk "p2" "Bob" [1; 3; 5; 7; 9; 11; 2] 0) "2" 39
              (tail (GameState.deck (BaseGame.gameState goFishStarted))))
    as (w' & pl' & Hrun & _ & Hturn & Hnext & _);
    try (vm_compute; reflexivity).
  - vm_compute. repeat (constructor; [discriminate|]). constructor.
  - vm_compute. eexists. reflexivity.
  - plain_names.
  - plain_names.
  - exists w'. split; [exact Hrun|]. split; [exact Hturn|exact Hnext].
Defined.

Lemma restart_idempotent_witness :
  let g := warAfterOneMove in
  let first := BaseGame.gameState newGame in
  let once := (BaseGame.restart g).2 in
  let many := (restarts 3 g).2 in
  view (BaseGame.store many) (BaseGame.gameState many)
  = view (BaseGame.store once) (BaseGame.gameState once)
  ∧ BaseGame.history many = [first]
  ∧ BaseGame.moveHistory many = [].
Proof.
  destruct (restart_idempotent warAfterOneMove (BaseGame.gameState newGame)
              (tail (BaseGame.history warAfterOneMove)) 2)
    as (_ & Hsame & _ & Hh & Hm & _).
  - vm_compute. reflexivity.
  - apply Forall_forall. intros r Hr. vm_compute in Hr. vm_compute.
    repeat (apply elem_of_cons in Hr as [->|Hr]; [lia|]). by apply elem_of_nil in Hr.
  - split; [exact Hsame|]. split; [exact Hh|exact Hm].
Defined.

Lemma history_and_log_in_lockstep_witness :
  let g := (calls WarRules.rules mixedCalls warStarted).2 in
  length (BaseGame.moveHistory g) = length (BaseGame.history g) - 1
  ∧ BaseGame.history g ≠ []
  ∧ BaseGame.moveHistory g
    = foldl inEffect []
        (zip mixedCalls [Some true; Some false; Some true; Some true; Some true])
  ∧ BaseGame.moveHistory g = [("p1", play); ("p1", play)]
  ∧ length (BaseGame.history g) = 3.
Proof.
  pose proof (history_and_log_in_lockstep WarRules.rules (keepOrder 52) newGame mixedCalls
                [Some true; Some false; Some true; Some true; Some true]
                (calls WarRules.rules mixedCalls warStarted).2) as H.
  destruct H as (Hlen & Hne & Hlog); [vm_compute; reflexivity..|].
  cbv zeta. split_and!; [exact Hlen|exact Hne|exact Hlog| |].
  - rewrite Hlog. vm_compute. reflexivity.
  - vm_compute. reflexivity.
Defined.

Lemma restart_returns_to_the_state_before_start_witness :
  let g := (calls WarRules.rules someCalls warStarted).2 in
  BaseGame.history g !! 0 = Some (BaseGame.gameState newGame)
  ∧ BaseGame.gameState (BaseGame.restart g).2 = BaseGame.gameState newGame.
Proof.
  destruct (restart_returns_to_the_state_before_start WarRules.rules (keepOrder 52) newGame
              someCalls [Some true; Some false; Some true; None]
              (calls WarRules.rules someCalls warStarted).2)
    as (Hfirst & _ & Hstate & _); try (vm_compute; reflexivity).
  - vm_compute. repeat constructor.
  - split; [exact Hfirst|exact Hstate].
Defined.

Lemma cards_conserved_up_to_books_witness :
  allIds warDealt ≡ₚ startIds newWorld
  ∧ ∃ gone,
      allIds goFishAfterBook ++ (Heap.id (cards goFishAfterBook) <$> gone)
      ≡ₚ startIds newWorld
      ∧ GoFishRules.getCardRank (cards goFishAfterBook) <$> gone
        ≡ₚ bookRanks (state goFishAfterBook) ≫= replicate 4
      ∧ ∀ rank,
          rank ∈ bookRanks (state goFishAfterBook) →
          length (filter (λ i, split_head i = rank) (startIds newWorld)) = 4 →
          Forall (λ i, split_head i ≠ rank) (allIds goFishAfterBook).
Proof.
  split.
  - apply (cards_conserved_up_to_books newWorld warDealt).
    + vm_compute. repeat split; reflexivity.
    + plain_names.
    + plain_names.
    + apply (reach_init _ _ (keepOrder 52)). vm_compute. reflexivity.
  - apply (cards_conserved_up_to_books newWorld goFishAfterBook).
    + vm_compute. repeat split; reflexivity.
    + plain_names.
    + plain_names.
    + apply (reach_move _ _ goFishDealt 0 (MoveAsk "p2" "2")).
      * apply (reach_init _ _ stackedOracle). vm_compute. reflexivity.
      * vm_compute. reflexivity.
      * vm_compute. reflexivity.
Defined.

Lemma removing_the_current_player_leaves_none_current_witness :
  GameState.getCurrentPlayer
    (GameState.removePlayer "p1" (BaseGame.gameState newGame)).2 = None.
Proof.
  destruct (removing_the_current_player_leaves_none_current (BaseGame.gameState newGame))
    as (_ & Hnone & _).
  - refine (bool_decide_unpack _ _); vm_compute; exact I.
  - vm_compute. eexists. reflexivity.
  - exact Hnone.
Defined.

Lemma custom_state_round_trip_witness :
  GameState.getCustomState "warMode" (VBool false)
    (GameState.setCustomState "warMode" (VBool true) (state tieWorld)) = VBool true
  ∧ GameState.getCustomState "roundWinner" (VStr "nobody")
      (GameState.setCustomState "roundWinner" VNull (state tieWorld)) = VStr "nobody".
Proof.
  split.
  - apply (custom_state_round_trip "warMode" (VBool true) (VBool false) "cardsInPlay"
             (state tieWorld)). discriminate.
  - apply (custom_state_round_trip "roundWinner" VNull (VStr "nobody") "cardsInPlay"
             (state tieWorld)). discriminate.
Defined.

Lemma clone_has_the_value_of_the_original_witness :
  view (GameState.clone (state tieWorld) (cards tieWorld)).2
    (GameState.clone (state tieWorld) (cards tieWorld)).1
  = view (cards tieWorld) (state tieWorld).
Proof.
  pose proof (clone_has_the_value_of_the_original (cards tieWorld) (state tieWorld)) as H.
  destruct (GameState.clone (state tieWorld) (cards tieWorld)) as [copy h'].
  apply H. vm_compute. repeat (constructor; [lia|]). constructor.
Defined.

Lemma id_encodes_rank_and_suit_witness :
  GoFishRules.getCardRank (cards tieWorld) 1 = "7"
  ∧ CardUtils.getCardSuit (cards tieWorld) 1 = "Spades".
Proof.
  destruct (id_encodes_rank_and_suit (cards tieWorld) 1 "7" "Spades" eq_refl eq_refl eq_refl)
    as (_ & Hrank & Hsuit).
  split; [exact Hrank|exact Hsuit].
Defined.

Lemma compareCardsByRank_follows_the_rank_order_witness :
  CardUtils.compareCardsByRank (cards warTieWorld) 0 6 = Some 5%Z.
Proof.
  destruct (compareCardsByRank_follows_the_rank_order (cards warTieWorld) 0 6 5 0
              "7" "2" "Hearts" "Spades" eq_refl eq_refl eq_refl eq_refl)
    as (_ & _ & Hcmp & _).
  exact Hcmp.
Defined.

Lemma groupCardsByRank_partitions_the_cards_witness :
  mjoin (JsObject.values (CardUtils.groupCardsByRank (cards warTieWorld) [0; 1; 5; 6]))
  ≡ₚ [0; 1; 5; 6].
Proof.
  destruct (groupCardsByRank_partitions_the_cards (cards warTieWorld) [0; 1; 5; 6])
    as (_ & Hperm & _).
  - vm_compute. repeat (constructor; [reflexivity|]). constructor.
  - exact Hperm.
Defined.

Lemma dealCards_gives_each_player_their_share_witness :
  ∃ ps',
    CardUtils.dealCardsBy false [0; 1] 2 dealWorld
    = (Returned tt,
       mkWorld (GameState.mk [4] [] ps' EmptyString 1 []) (cards dealWorld))
    ∧ dealt (λ i, if decide (i ∈ [0; 1]) then 2 else 0) [alice; bob] ps'.
Proof.
  apply (dealCards_gives_each_player_their_share false [0; 1] 2 [0; 1; 2; 3; 4] []
           [alice; bob] EmptyString 1 [] (cards dealWorld)).
  - refine (bool_decide_unpack _ _); vm_compute; exact I.
  - simpl. lia.
Defined.

Lemma dealCards_moves_cards_from_the_deck_to_hands_witness :
  ∃ dk' ps',
    CardUtils.dealCardsBy true [0; 1] 3 dealWorld
    = (Returned tt, mkWorld (GameState.mk dk' [] ps' EmptyString 1 []) (cards dealWorld))
    ∧ length ps' = 2
    ∧ dk' ++ handRefs ps' ≡ₚ [0; 1; 2; 3; 4] ++ handRefs [alice; bob].
Proof.
  apply (dealCards_moves_cards_from_the_deck_to_hands true [0; 1] 3 [0; 1; 2; 3; 4] []
           [alice; bob] EmptyString 1 [] (cards dealWorld)).
  repeat (constructor; [simpl; lia|]). constructor.
Defined.

Lemma war_turns_alternate_witness :
  (WarRules.nextTurn;;; WarRules.nextTurn) tieWorld = (Returned tt, tieWorld).
Proof.
  destruct (war_turns_alternate (Player.mk "p1" "Alice" [0] 1) (Player.mk "p2" "Bob" [1] 1)
              [] [] "p1" 1
              [("cardsInPlay", VCards []); ("warMode", VBool false); ("roundWinner", VNull)]
              (cards tieWorld)) as [_ Htwice].
  - discriminate.
  - left. reflexivity.
  - exact Htwice.
Defined.

Lemma war_never_sets_the_game_over_flag_witness :
  GameState.getCustomState "gameOver" (VBool false) (state warDealt) = VBool false.
Proof.
  destruct (war_never_sets_the_game_over_flag newWorld warDealt) as [Hflag _].
  - vm_compute. repeat split; reflexivity.
  - plain_names.
  - apply (reach_init _ _ (keepOrder 52)). vm_compute. reflexivity.
  - exact Hflag.
Defined.

Lemma war_game_over_has_one_winner_witness :
  WarRules.getWinners (WarRules.applyMove 0 play tieWorld).2 ≠ [].
Proof.
  destruct (war_game_over_has_one_winner ["7-Hearts"; "7-Spades"] tieWorld 0 play
              (WarRules.applyMove 0 play tieWorld).2) as [Hsome _].
  - exists [], (Player.mk "p1" "Alice" [0] 1), (Player.mk "p2" "Bob" [1] 1), "p1", 1%Z,
      [], false, VNull.
    split; [reflexivity|]. split; reflexivity.
  - plain_names.
  - reflexivity.
  - vm_compute. reflexivity.
  - exact Hsome.
Defined.

Lemma war_move_against_an_empty_hand_raises_witness :
  ∃ msg g',
    BaseGame.playMove WarRules.rules "p1" play wonGame = (Thrown msg, g')
    ∧ length (BaseGame.history g') = 1
    ∧ BaseGame.moveHistory g' = [].
Proof.
  destruct (war_move_against_an_empty_hand_raises wonGame
              (Player.mk "p1" "Alice" [0; 1] 2) (Player.mk "p2" "Bob" [] 0) 0 [1] true
              eq_refl ltac:(discriminate) eq_refl eq_refl eq_refl)
    as (msg & g' & Hrun & Hh & Hm & _).
  exists msg, g'. split; [exact Hrun|]. split; [by rewrite Hh|exact Hm].
Defined.

Lemma start_raises_without_the_right_players_witness :
  ∃ msg g',
    BaseGame.start WarRules.rules (keepOrder 52) WarGame.new = (Thrown msg, g')
    ∧ length (BaseGame.history g') = 1.
Proof.
  destruct (start_raises_without_the_right_players WarRules.rules (keepOrder 52) WarGame.new)
    as [msg Hrun].
  - left. split; [reflexivity|]. vm_compute. discriminate.
  - eexists msg, _. split; [exact Hrun|]. reflexivity.
Defined.

Lemma go_fish_null_move_raises_witness :
  BaseGame.playMove GoFishRules.rules "p1" MoveNull goFishStarted
  = (Thrown "TypeError: Cannot read properties of null (reading 'targetPlayerId')",
     goFishStarted).
Proof.
  apply (go_fish_null_move_raises goFishStarted "p1").
  - vm_compute. eexists. reflexivity.
  - vm_compute. reflexivity.
Defined.

Lemma go_fish_turns_go_round_the_table_witness :
  ∃ cu',
    turns GoFishRules.rules 2 (mkWorld (GameState.mk [] [] [alice; bob] "p1" 1 []) [])
    = (Returned tt, mkWorld (GameState.mk [] [] [alice; bob] "p1" 1 cu') []).
Proof.
  destruct (go_fish_turns_go_round_the_table [] [] [alice; bob] 1 [] [] 0 alice)
    as [_ Hround].
  - refine (bool_decide_unpack _ _); vm_compute; exact I.
  - reflexivity.
  - reflexivity.
  - exact Hround.
Defined.

Lemma go_fish_winners_hold_the_most_books_witness :
  GoFishRules.getWinners goFishAfterBook = ["p1"].
Proof.
  rewrite (go_fish_winners_hold_the_most_books goFishAfterBook [("p1", ["2"])]).
  - reflexivity.
  - vm_compute. reflexivity.
Defined.

Lemma go_fish_ask_takes_every_card_of_the_rank_witness :
  ∃ w' tp',
    GoFishRules.applyMove 0 (MoveAsk "p2" "7") askWorld = (Returned tt, w')
    ∧ GameState.players (state w') !! 1 = Some tp'
    ∧ Player.hand tp'
      = filter (λ c, GoFishRules.getCardRank (cards askWorld) c ≠ "7") [1; 2].
Proof.
  destruct (go_fish_ask_takes_every_card_of_the_rank askWorld 0 "p2" "7" 1
              (Player.mk "p2" "Bob" [1; 2] 0) eq_refl eq_refl eq_refl)
    as (w' & tp' & Hrun & _ & _ & Htp & _ & Hnone & _).
  - constructor. reflexivity.
  - eexists. reflexivity.
  - plain_names.
  - plain_names.
  - exists w', tp'. split; [exact Hrun|]. split; [exact Htp|exact Hnone].
Defined.

Lemma go_fish_initializeGame_deals_five_or_seven_witness :
  ∃ ps' first,
    GoFishRules.initializeGame stackedOracle newWorld
    = (Returned tt,
       mkWorld
         (GameState.mk (drop 14 (Deck.shuffle stackedOracle (seq 0 52))) [] ps'
            (Player.id first) 1
            (JsObject.set "gameOver" (VBool false)
               (JsObject.set "lastAction" VNull (JsObject.set "books" (VBooks []) []))))
         CardUtils.standardCards)
    ∧ [alice; bob] !! 0 = Some first
    ∧ dealt (λ _, 7) [alice; bob] ps'.
Proof.
  apply (go_fish_initializeGame_deals_five_or_seven stackedOracle (seq 0 52) []
           [alice; bob] "p1" 1 [] CardUtils.standardCards).
  - simpl. lia.
  - simpl. lia.
Defined.
